(** * perf_curves: ROC / precision-recall / precision-recall-gain curves

    A shallow embedding of [perf_curves.py] and the properties of its
    counting engine [_binary_clf_curve], of the pseudo-point corrector, of
    the three curve derivers and of the left Riemann sum.

    Numbers.  numpy's [float64] is held as [xnum]: the IEEE special values
    [+inf], [-inf] and [NaN] together with the finite values, which are
    exact rationals.  The arithmetic on special values follows IEEE 754
    (inf - inf, 0 * inf, 0 / 0 and inf / inf are NaN, x / 0 is an infinity
    for x <> 0, every comparison with NaN is false); on finite values it is
    exact: rounding, overflow, underflow and the sign of zero are not part
    of the model.  Integer arrays hold unbounded integers.

    Arrays.  An input array is a shape and a flat row-major buffer, as numpy
    stores it.  Every two-dimensional intermediate of the source is built by
    operations along axis 0, so a matrix is held as the list of its columns:
    entry [M[i, j]] is entry [i] of column [j]. *)

From Stdlib Require Import List ZArith QArith Qabs Bool Lia Lqa.
From Stdlib Require Import Permutation Sorted.
Import ListNotations.

Set Implicit Arguments.

(** ** Extended numbers *)

Inductive xnum : Type :=
| Fin (q : Q)
| PInf
| NInf
| NaN.

Definition x0 : xnum := Fin 0.
Definition x1 : xnum := Fin 1.

Definition Qltb (a b : Q) : bool := negb (Qle_bool b a).

Definition xneg (x : xnum) : xnum :=
  match x with
  | Fin q => Fin (- q)
  | PInf => NInf
  | NInf => PInf
  | NaN => NaN
  end.

Definition xadd (x y : xnum) : xnum :=
  match x, y with
  | NaN, _ | _, NaN => NaN
  | Fin a, Fin b => Fin (a + b)
  | PInf, NInf | NInf, PInf => NaN
  | PInf, _ | _, PInf => PInf
  | NInf, _ | _, NInf => NInf
  end.

Definition xsub (x y : xnum) : xnum := xadd x (xneg y).

(** The infinity with the sign of [a], NaN for [a = 0]. *)
Definition inf_signed (a : Q) : xnum :=
  if Qeq_bool a 0 then NaN else if Qltb 0 a then PInf else NInf.

Definition xmul (x y : xnum) : xnum :=
  match x, y with
  | NaN, _ | _, NaN => NaN
  | Fin a, Fin b => Fin (a * b)
  | Fin a, PInf | PInf, Fin a => inf_signed a
  | Fin a, NInf | NInf, Fin a => xneg (inf_signed a)
  | PInf, PInf | NInf, NInf => PInf
  | PInf, NInf | NInf, PInf => NInf
  end.

Definition xdiv (x y : xnum) : xnum :=
  match x, y with
  | NaN, _ | _, NaN => NaN
  | Fin a, Fin b => if Qeq_bool b 0 then inf_signed a else Fin (a / b)
  | Fin _, PInf | Fin _, NInf => Fin 0
  | PInf, Fin b => if Qle_bool 0 b then PInf else NInf
  | NInf, Fin b => if Qle_bool 0 b then NInf else PInf
  | PInf, PInf | PInf, NInf | NInf, PInf | NInf, NInf => NaN
  end.

Definition xabs (x : xnum) : xnum :=
  match x with
  | Fin q => Fin (Qabs q)
  | PInf | NInf => PInf
  | NaN => NaN
  end.

Definition xleb (x y : xnum) : bool :=
  match x, y with
  | NaN, _ | _, NaN => false
  | Fin a, Fin b => Qle_bool a b
  | NInf, _ => true
  | _, PInf => true
  | _, _ => false
  end.

Definition xltb (x y : xnum) : bool :=
  match x, y with
  | NaN, _ | _, NaN => false
  | Fin a, Fin b => Qltb a b
  | NInf, NInf | PInf, PInf => false
  | NInf, _ => true
  | _, PInf => true
  | _, _ => false
  end.

Definition xeqb (x y : xnum) : bool :=
  match x, y with
  | Fin a, Fin b => Qeq_bool a b
  | PInf, PInf | NInf, NInf => true
  | _, _ => false
  end.

Definition isnan (x : xnum) : bool :=
  match x with NaN => true | _ => false end.

Definition isfinite (x : xnum) : bool :=
  match x with Fin _ => true | _ => false end.

(** [np.maximum]: NaN if either argument is NaN. *)
Definition xmax (x y : xnum) : xnum :=
  match x, y with
  | NaN, _ | _, NaN => NaN
  | _, _ => if xleb x y then y else x
  end.

Definition xle (x y : xnum) : Prop := xleb x y = true.
Definition xlt (x y : xnum) : Prop := xltb x y = true.

Definition of_Z (z : Z) : xnum := Fin (inject_Z z).
Definition of_bool (b : bool) : xnum := if b then x1 else x0.

(** ** Exceptions

    The source fails through [assert] and through out-of-range indexing;
    both are results of the embedding. *)

Inductive exn : Type := AssertionError | IndexError.

Inductive result (A : Type) : Type :=
| Ok (a : A)
| Raise (e : exn).
Arguments Raise {A} e.

Definition bind {A B : Type} (r : result A) (k : A -> result B) : result B :=
  match r with
  | Ok a => k a
  | Raise e => Raise e
  end.

Definition assert (b : bool) : result unit :=
  if b then Ok tt else Raise AssertionError.

Notation "x <- e ;; k" := (bind e (fun x => k))
  (at level 61, e at next level, right associativity).
Notation "' pat <- e ;; k" := (bind e (fun x => match x with pat => k end))
  (at level 61, pat pattern, e at next level, right associativity).
Notation "'check' b ;; k" := (bind (assert b) (fun _ => k))
  (at level 61, b at next level, right associativity).

(** ** numpy arrays *)

Inductive dtype : Type := DBool | DInt | DFloat.

Definition dtype_eqb (a b : dtype) : bool :=
  match a, b with
  | DBool, DBool | DInt, DInt | DFloat, DFloat => true
  | _, _ => false
  end.

Inductive buffer : Type :=
| BoolBuf (l : list bool)
| IntBuf (l : list Z)
| FloatBuf (l : list xnum).

Record ndarray : Type := mk_ndarray { shape : list nat; buf : buffer }.

Definition kind (a : ndarray) : dtype :=
  match buf a with
  | BoolBuf _ => DBool
  | IntBuf _ => DInt
  | FloatBuf _ => DFloat
  end.

Definition ndim (a : ndarray) : nat := length (shape a).
Definition size (a : ndarray) : nat := fold_right Nat.mul 1%nat (shape a).
Definition dim (a : ndarray) (k : nat) : nat := nth k (shape a) 0%nat.

Definition buf_length (b : buffer) : nat :=
  match b with
  | BoolBuf l => length l
  | IntBuf l => length l
  | FloatBuf l => length l
  end.

(** A well-formed array holds as many entries as its shape says. *)
Definition wf_ndarray (a : ndarray) : Prop := buf_length (buf a) = size a.

(** The entries as numbers ([astype(float)]). *)
Definition values (a : ndarray) : list xnum :=
  match buf a with
  | BoolBuf l => map of_bool l
  | IntBuf l => map of_Z l
  | FloatBuf l => l
  end.

(** The entries as truth values. *)
Definition labels (a : ndarray) : list bool :=
  match buf a with
  | BoolBuf l => l
  | IntBuf l => map (fun z => negb (Z.eqb z 0)) l
  | FloatBuf l => map (fun x => negb (xeqb x x0)) l
  end.

Fixpoint shape_eqb (s t : list nat) : bool :=
  match s, t with
  | [], [] => true
  | a :: s', b :: t' => Nat.eqb a b && shape_eqb s' t'
  | _, _ => false
  end.

(** Column [j] of a two-dimensional array of [m] columns and [n] rows. *)
Definition column (flat : list xnum) (n m j : nat) : list xnum :=
  map (fun i => nth (i * m + j) flat NaN) (seq 0 n).

Definition columns (a : ndarray) : list (list xnum) :=
  map (column (values a) (dim a 0) (dim a 1)) (seq 0 (dim a 1)).

(** Intermediate and output arrays: a dtype and the entries as numbers. *)
Record vector : Type := mk_vector { vdtype : dtype; elems : list xnum }.
Record matrix : Type := mk_matrix { mdtype : dtype; cols : list (list xnum) }.

(** ** List operations of numpy *)

Section ListOps.
Variables A B C : Type.

Fixpoint map2 (f : A -> B -> C) (l : list A) (l' : list B) : list C :=
  match l, l' with
  | a :: t, b :: t' => f a b :: map2 f t t'
  | _, _ => []
  end.

(** [a[-1]] *)
Definition last_elem (l : list A) (d : A) : result A :=
  match l with
  | [] => Raise IndexError
  | _ :: _ => Ok (last l d)
  end.

(** [a[idx]] for an index array [idx] *)
Definition take (l : list A) (idx : list nat) (d : A) : result (list A) :=
  if forallb (fun i => Nat.ltb i (length l)) idx
  then Ok (map (fun i => nth i l d) idx)
  else Raise IndexError.

(** [a[mask]] for a boolean array [mask] *)
Fixpoint select (mask : list bool) (l : list A) : list A :=
  match mask, l with
  | b :: mask', a :: l' => if b then a :: select mask' l' else select mask' l'
  | _, _ => []
  end.
End ListOps.

(** [np.argsort(s, kind='mergesort')]: the stable ascending sort of the
    indices by their keys, as insertion from the right, which places an
    index before the later indices of the same key. *)
Fixpoint insert_index (s : list xnum) (i : nat) (l : list nat) : list nat :=
  match l with
  | [] => [i]
  | j :: l' =>
      if xleb (nth i s NaN) (nth j s NaN) then i :: l
      else j :: insert_index s i l'
  end.

Definition argsort (s : list xnum) : list nat :=
  fold_right (insert_index s) [] (seq 0 (length s)).

(** [np.diff] *)
Fixpoint diff (l : list xnum) : list xnum :=
  match l with
  | a :: (b :: _) as t => xsub b a :: diff t
  | _ => []
  end.

(** [np.where(a)[0]]: the indices of the non-zero entries (NaN is non-zero) *)
Fixpoint where_from (k : nat) (l : list xnum) : list nat :=
  match l with
  | [] => []
  | x :: t =>
      if xeqb x x0 then where_from (S k) t else k :: where_from (S k) t
  end.

Definition where_nonzero (l : list xnum) : list nat := where_from 0 l.

(** [np.cumsum] *)
Fixpoint cumsum_from (acc : xnum) (l : list xnum) : list xnum :=
  match l with
  | [] => []
  | x :: t => let a := xadd acc x in a :: cumsum_from a t
  end.

Definition cumsum (l : list xnum) : list xnum :=
  match l with
  | [] => []
  | x :: t => x :: cumsum_from x t
  end.

Fixpoint cumsumZ_from (acc : Z) (l : list Z) : list Z :=
  match l with
  | [] => []
  | x :: t => let a := (acc + x)%Z in a :: cumsumZ_from a t
  end.

Definition cumsumZ (l : list Z) : list Z :=
  match l with
  | [] => []
  | x :: t => x :: cumsumZ_from x t
  end.

(** [np.sum] *)
Definition xsum (l : list xnum) : xnum := fold_left xadd l x0.
Definition sumZ (l : list Z) : Z := fold_left Z.add l 0%Z.

(** [np.nansum]: NaN entries count as zero *)
Definition nansum (l : list xnum) : xnum :=
  xsum (map (fun x => if isnan x then x0 else x) l).

(** [np.maximum.accumulate] *)
Fixpoint accumulate_from (m : xnum) (l : list xnum) : list xnum :=
  match l with
  | [] => []
  | x :: t => let m' := xmax m x in m' :: accumulate_from m' t
  end.

Definition maximum_accumulate (l : list xnum) : list xnum :=
  match l with
  | [] => []
  | x :: t => x :: accumulate_from x t
  end.

(** [np.isclose] with the default tolerances of [np.allclose] *)
Definition rtol : xnum := Fin (1 # 100000).
Definition atol : xnum := Fin (1 # 100000000).

Definition isclose (a b : xnum) : bool :=
  if isfinite a && isfinite b
  then xleb (xabs (xsub a b)) (xadd atol (xmul rtol (xabs b)))
  else xeqb a b.

Fixpoint forallb2 (A B : Type) (f : A -> B -> bool) (l : list A) (l' : list B) : bool :=
  match l, l' with
  | a :: t, b :: t' => f a b && forallb2 f t t'
  | _, _ => true
  end.

Definition allclose (a b : list xnum) : bool := forallb2 isclose a b.

(** Row [i] of a matrix ([M[i, :]]) and its last row ([M[-1, :]]). *)
Definition row (M : list (list xnum)) (i : nat) : result (list xnum) :=
  if forallb (fun c => Nat.ltb i (length c)) M
  then Ok (map (fun c => nth i c NaN) M)
  else Raise IndexError.

Definition last_row (M : list (list xnum)) : result (list xnum) :=
  if forallb (fun c => Nat.ltb 0 (length c)) M
  then Ok (map (fun c => last c NaN) M)
  else Raise IndexError.

(** [M[idx, :]] for an index array [idx] *)
Definition take_rows (M : list (list xnum)) (idx : list nat) : result (list (list xnum)) :=
  if forallb (fun c => forallb (fun i => Nat.ltb i (length c)) idx) M
  then Ok (map (fun c => map (fun i => nth i c NaN) idx) M)
  else Raise IndexError.

(** ** The pseudo-point corrector *)

Definition EPSILON : xnum := Fin (1 # 10000000000).

(** [M[:, mask] = N[:, mask]]: the columns marked by [mask] are taken from [N]. *)
Fixpoint assign_columns (mask : list bool) (M N : list (list xnum)) : list (list xnum) :=
  match mask, M, N with
  | b :: mask', c :: M', c' :: N' =>
      (if b then c' else c) :: assign_columns mask' M' N'
  | _, _, _ => M
  end.

Definition scale (M : list (list xnum)) : list (list xnum) :=
  map (map (xmul EPSILON)) M.

Definition add_pseudo_points (fps tps : matrix) : result (matrix * matrix) :=
  fps_last <- last_row (cols fps) ;;
  tps_last <- last_row (cols tps) ;;
  let fps_fix := map (fun x => xeqb x x0) fps_last in
  let tps_fix := map (fun x => xeqb x x0) tps_last in
  if existsb (fun b => b) fps_fix || existsb (fun b => b) tps_fix then
    let fps' := assign_columns fps_fix (cols fps) (scale (cols tps)) in
    let tps' := assign_columns tps_fix (cols tps) (scale fps') in
    Ok (mk_matrix DFloat fps', mk_matrix DFloat tps')
  else Ok (fps, tps).

(** ** The counting engine *)

Definition desc_score_indices (s : list xnum) : list nat := rev (argsort s).

Definition threshold_idxs (s : list xnum) (n : nat) : list nat :=
  where_nonzero (diff s) ++ [(n - 1)%nat].

(** The branch [sample_weight is None]: integer counts, one column. *)
Definition counts_unweighted (y : list bool) (idxs : list nat) : result (matrix * matrix) :=
  tps <- take (cumsumZ (map Z.b2z y)) idxs 0%Z ;;
  let fps := map2 (fun i t => (1 + Z.of_nat i - t)%Z) idxs tps in
  fps_last <- last_elem fps 0%Z ;;
  tps_last <- last_elem tps 0%Z ;;
  check (Z.eqb fps_last (sumZ (map (fun b => Z.b2z (negb b)) y))
         && Z.eqb tps_last (sumZ (map Z.b2z y))) ;;
  Ok (mk_matrix DInt [map of_Z fps], mk_matrix DInt [map of_Z tps]).

(** The dtype of [y_true[:, None] * weight] after [np.cumsum]. *)
Definition count_dtype (w : ndarray) : dtype :=
  match kind w with
  | DFloat => DFloat
  | _ => DInt
  end.

(** The branch with an explicit [sample_weight]. *)
Definition counts_weighted (y : list bool) (desc idxs : list nat) (sample_weight : ndarray)
  : result (matrix * matrix) :=
  check (Nat.eqb (ndim sample_weight) 2) ;;
  check (Nat.eqb (dim sample_weight 0) (length y)) ;;
  check (Nat.leb 1 (dim sample_weight 1)) ;;
  check (forallb isfinite (values sample_weight)) ;;
  check (forallb (xltb x0) (values sample_weight)) ;;
  weight <- take_rows (columns sample_weight) desc ;;
  tps <- take_rows (map (fun c => cumsum (map2 (fun b w => xmul (of_bool b) w) y c)) weight) idxs ;;
  csum <- take_rows (map cumsum weight) idxs ;;
  let fps := map2 (map2 xsub) csum tps in
  fps_last <- last_row fps ;;
  check (allclose fps_last (map (fun c => xsum (select (map negb y) c)) weight)) ;;
  tps_last <- last_row tps ;;
  check (allclose tps_last (map (fun c => xsum (select y c)) weight)) ;;
  Ok (mk_matrix (count_dtype sample_weight) fps, mk_matrix (count_dtype sample_weight) tps).

(** Lines 110-146: validation, sort, thresholds, counts and the leading
    zero row; the state of the engine before the pseudo-point corrector. *)
Definition raw_counts (y_true y_score : ndarray) (sample_weight : option ndarray)
  : result (matrix * matrix * list xnum) :=
  check (Nat.eqb (ndim y_true) 1 && dtype_eqb (kind y_true) DBool) ;;
  check (shape_eqb (shape y_score) (shape y_true)
         && forallb isfinite (values y_score)) ;;
  check (Nat.leb 1 (size y_true)) ;;
  let desc := desc_score_indices (values y_score) in
  s <- take (values y_score) desc NaN ;;
  y <- take (labels y_true) desc false ;;
  let idxs := threshold_idxs s (length y) in
  '(fps, tps) <- match sample_weight with
                 | None => counts_unweighted y idxs
                 | Some w => counts_weighted y desc idxs w
                 end ;;
  let fps := mk_matrix (mdtype fps) (map (cons x0) (cols fps)) in
  let tps := mk_matrix (mdtype tps) (map (cons x0) (cols tps)) in
  th <- take s idxs NaN ;;
  Ok (fps, tps, PInf :: th).

Definition all_positive (l : list xnum) : bool := forallb (xltb x0) l.

Definition nondecreasing (M : list (list xnum)) : bool :=
  forallb (fun c => forallb (xleb x0) (diff c)) M.

Definition _binary_clf_curve (y_true y_score : ndarray) (sample_weight : option ndarray)
  : result (matrix * matrix * list xnum) :=
  '(fps, tps, thresholds) <- raw_counts y_true y_score sample_weight ;;
  '(fps, tps) <- add_pseudo_points fps tps ;;
  fps_last <- last_row (cols fps) ;;
  tps_last <- last_row (cols tps) ;;
  check (all_positive fps_last && all_positive tps_last) ;;
  check (dtype_eqb (mdtype fps) (mdtype tps)) ;;
  let fps := mk_matrix (mdtype fps) (map maximum_accumulate (cols fps)) in
  check (nondecreasing (cols fps) && nondecreasing (cols tps)) ;;
  Ok (fps, tps, thresholds).

(** ** The curve derivers *)

(** [M / M[-1:, :]]: every column divided by its last entry. *)
Definition divide_by_last (M : list (list xnum)) : list (list xnum) :=
  map (fun c => map (fun x => xdiv x (last c NaN)) c) M.


(** [M[0, :] = M[1, :]] *)
Definition overwrite_first (M : list (list xnum)) : result (list (list xnum)) :=
  second <- row M 1 ;;
  Ok (map2 (fun c v => v :: tl c) M second).

(** [tps / (tps + fps)] before the first row is overwritten. *)
Definition raw_precision (fps tps : matrix) : list (list xnum) :=
  map2 (map2 (fun t f => xdiv t (xadd t f))) (cols tps) (cols fps).

Definition in_unit_interval (M : list (list xnum)) : bool :=
  forallb (forallb (xleb x0)) M && forallb (forallb (fun p => xleb p x1)) M.

Definition recall_precision_curve (y_true y_score : ndarray) (sample_weight : option ndarray)
  : result (list (list xnum) * list (list xnum) * list xnum) :=
  '(fps, tps, thresholds) <- _binary_clf_curve y_true y_score sample_weight ;;
  let recall := divide_by_last (cols tps) in
  precision <- overwrite_first (raw_precision fps tps) ;;
  check (in_unit_interval precision) ;;
  Ok (recall, precision, thresholds).





(** ** The left Riemann sum

    The two curves are matrices of one shape (as the docstring asks);
    broadcasting of unequal shapes is not modelled. *)
Definition auc_left (x_curve y_curve : list (list xnum)) : result (list xnum) :=
  check (negb (existsb (existsb isnan) x_curve)) ;;
  check (negb (existsb (existsb isnan) y_curve)) ;;
  Ok (map2 (fun x y => nansum (map2 xmul (removelast y) (diff x))) x_curve y_curve).

(** ** The non-vectorized reference *)

Definition first_elem (A : Type) (l : list A) : result A :=
  match l with
  | [] => Raise IndexError
  | a :: _ => Ok a
  end.

Definition _nv_add_pseudo_points (fps tps : vector) : result (vector * vector) :=
  fps_last <- last_elem (elems fps) NaN ;;
  let '(fps, tps) :=
    if xeqb fps_last x0
    then (mk_vector DFloat (map (xmul EPSILON) (elems tps)), mk_vector DFloat (elems tps))
    else (fps, tps) in
  tps_last <- last_elem (elems tps) NaN ;;
  let '(fps, tps) :=
    if xeqb tps_last x0
    then (mk_vector DFloat (elems fps), mk_vector DFloat (map (xmul EPSILON) (elems fps)))
    else (fps, tps) in
  Ok (fps, tps).

Definition nv_counts_unweighted (y : list bool) (idxs : list nat) : result (vector * vector) :=
  tps <- take (cumsumZ (map Z.b2z y)) idxs 0%Z ;;
  let fps := map2 (fun i t => (1 + Z.of_nat i - t)%Z) idxs tps in
  fps_last <- last_elem fps 0%Z ;;
  tps_last <- last_elem tps 0%Z ;;
  check (Z.eqb fps_last (sumZ (map (fun b => Z.b2z (negb b)) y))
         && Z.eqb tps_last (sumZ (map Z.b2z y))) ;;
  Ok (mk_vector DInt (map of_Z fps), mk_vector DInt (map of_Z tps)).

Definition nv_counts_weighted (y : list bool) (desc idxs : list nat) (sample_weight : ndarray)
  : result (vector * vector) :=
  check (shape_eqb (shape sample_weight) [length y]) ;;
  check (forallb isfinite (values sample_weight)) ;;
  check (forallb (xltb x0) (values sample_weight)) ;;
  weight <- take (values sample_weight) desc NaN ;;
  tps <- take (cumsum (map2 (fun b w => xmul (of_bool b) w) y weight)) idxs NaN ;;
  csum <- take (cumsum weight) idxs NaN ;;
  let fps := map2 xsub csum tps in
  fps_last <- last_elem fps NaN ;;
  tps_last <- last_elem tps NaN ;;
  check (allclose [fps_last; tps_last]
           [xsum (select (map negb y) weight); xsum (select y weight)]) ;;
  Ok (mk_vector (count_dtype sample_weight) fps, mk_vector (count_dtype sample_weight) tps).

Definition _nv_binary_clf_curve (y_true y_score : ndarray) (sample_weight : option ndarray)
  : result (vector * vector * list xnum) :=
  check (Nat.eqb (ndim y_true) 1 && dtype_eqb (kind y_true) DBool) ;;
  check (shape_eqb (shape y_score) (shape y_true)
         && forallb isfinite (values y_score)) ;;
  check (Nat.leb 1 (size y_true)) ;;
  let desc := desc_score_indices (values y_score) in
  s <- take (values y_score) desc NaN ;;
  y <- take (labels y_true) desc false ;;
  let idxs := threshold_idxs s (length y) in
  '(fps, tps) <- match sample_weight with
                 | None => nv_counts_unweighted y idxs
                 | Some w => nv_counts_weighted y desc idxs w
                 end ;;
  tps_first <- first_elem (elems tps) ;;
  fps_first <- first_elem (elems fps) ;;
  check (negb (xeqb tps_first x0 && xeqb fps_first x0)) ;;
  let fps := mk_vector (vdtype fps) (x0 :: elems fps) in
  let tps := mk_vector (vdtype tps) (x0 :: elems tps) in
  th <- take s idxs NaN ;;
  let thresholds := PInf :: th in
  '(fps, tps) <- _nv_add_pseudo_points fps tps ;;
  fps_last <- last_elem (elems fps) NaN ;;
  tps_last <- last_elem (elems tps) NaN ;;
  check (xltb x0 fps_last && xltb x0 tps_last) ;;
  check (dtype_eqb (vdtype fps) (vdtype tps)) ;;
  let fps := mk_vector (vdtype fps) (maximum_accumulate (elems fps)) in
  check (forallb (xleb x0) (diff (elems fps)) && forallb (xleb x0) (diff (elems tps))) ;;
  Ok (fps, tps, thresholds).

(** [sample_weight.flatten()] *)
Definition flatten (a : ndarray) : ndarray := mk_ndarray [size a] (buf a).

(** The left Riemann sum as the specification words it: the sum over
    [i = 0 .. n-2] of [y[i] * (x[i+1] - x[i])], a NaN product counting as 0. *)
Definition riemann_term (x y : list xnum) (i : nat) : xnum :=
  let p := xmul (nth i y NaN) (xsub (nth (S i) x NaN) (nth i x NaN)) in
  if isnan p then x0 else p.

Definition left_riemann_sum (x y : list xnum) : xnum :=
  xsum (map (riemann_term x y) (seq 0 (length x - 1))).

(** ** Lists of rationals: the finite part of the engine *)

Fixpoint Qcumsum_from (acc : Q) (l : list Q) : list Q :=
  match l with
  | [] => []
  | x :: t => (acc + x) :: Qcumsum_from (acc + x) t
  end.

Definition Qcumsum (l : list Q) : list Q :=
  match l with
  | [] => []
  | x :: t => x :: Qcumsum_from x t
  end.

Definition Qsum (l : list Q) : Q := fold_left Qplus l 0.

(** Non-decreasing along the list, on consecutive entries. *)
Fixpoint Qnondecr (l : list Q) : Prop :=
  match l with
  | a :: (b :: _) as t => a <= b /\ Qnondecr t
  | _ => True
  end.

(** The entries of a list that differ from their successor, and the last
    entry: what the threshold indices select. *)
Fixpoint Qdedup (l : list Q) : list Q :=
  match l with
  | [] => []
  | a :: t =>
      match t with
      | [] => [a]
      | b :: _ => if Qeq_bool (b + - a) 0 then Qdedup t else a :: Qdedup t
      end
  end.

(** [y_true * weight] on finite weights. *)
Definition Qweigh (y : list bool) (w : list Q) : list Q :=
  map2 (fun (b : bool) x => (if b then 1 else 0) * x) y w.

(** What the counting stage establishes for the false- and true-positive
    counts of one column (the rows after the leading zero row). *)
Record raw_column (f t : list Q) : Prop := mk_raw_column {
  rc_length : length f = length t;
  rc_nonempty : f <> [];
  rc_fmono : Qnondecr (0 :: f);
  rc_tmono : Qnondecr (0 :: t);
  rc_pos : forall k, (k < length f)%nat -> 0 < nth k f 0 + nth k t 0
}.

(** The counts of one column at the threshold indices, on finite weights. *)
Definition Qtps (y : list bool) (w : list Q) (idxs : list nat) : list Q :=
  map (fun i => nth i (Qcumsum (Qweigh y w)) 0) idxs.

Definition Qfps (y : list bool) (w : list Q) (idxs : list nat) : list Q :=
  map2 (fun c t => c + - t) (map (fun i => nth i (Qcumsum w) 0) idxs) (Qtps y w idxs).

Definition Ztps (y : list bool) (idxs : list nat) : list Z :=
  map (fun i => nth i (cumsumZ (map Z.b2z y)) 0%Z) idxs.

Definition Zfps (y : list bool) (idxs : list nat) : list Z :=
  map2 (fun i t => (1 + Z.of_nat i - t)%Z) idxs (Ztps y idxs).

(** Column [j] of a flat buffer of finite entries. *)
Definition Qcolumn (flat : list Q) (n m j : nat) : list Q :=
  map (fun i => nth (i * m + j)%nat flat 0) (seq 0 n).

(** ** The preconditions of the engine *)

Definition labels_ok (y_true : ndarray) : bool :=
  Nat.eqb (ndim y_true) 1 && dtype_eqb (kind y_true) DBool
  && Nat.leb 1 (size y_true).

Definition scores_ok (y_true y_score : ndarray) : bool :=
  shape_eqb (shape y_score) (shape y_true)
  && forallb isfinite (values y_score).

Definition weights_ok (y_true sample_weight : ndarray) : bool :=
  Nat.eqb (ndim sample_weight) 2
  && Nat.eqb (dim sample_weight 0) (size y_true)
  && Nat.leb 1 (dim sample_weight 1)
  && forallb isfinite (values sample_weight)
  && forallb (xltb x0) (values sample_weight).

Definition preconditions (y_true y_score : ndarray) (sample_weight : option ndarray) : bool :=
  labels_ok y_true && scores_ok y_true y_score
  && match sample_weight with
     | None => true
     | Some w => weights_ok y_true w
     end.

Definition wf_inputs (y_true y_score : ndarray) (sample_weight : option ndarray) : Prop :=
  wf_ndarray y_true /\ wf_ndarray y_score /\
  match sample_weight with
  | None => True
  | Some w => wf_ndarray w
  end.

(** The number of replicate columns. *)
Definition n_replicates (sample_weight : option ndarray) : nat :=
  match sample_weight with
  | None => 1
  | Some w => dim w 1
  end.

(** Column [j] of the weights in sorted order. *)
Definition sorted_weights (flat : list Q) (n m : nat) (desc : list nat) (j : nat) : list Q :=
  map (fun i => nth i (Qcolumn flat n m j) 0) desc.

(** A column pair of the counting stage: finite, with the properties of
    [raw_column], of [k] rows, and zero throughout for a class that is
    absent from the labels [y]. *)
Definition raw_pair (y : list bool) (k : nat) (cf ct : list xnum) : Prop :=
  exists f t,
    cf = map Fin f /\ ct = map Fin t /\ raw_column f t /\ length f = k /\
    (Forall (fun b => b = true) y -> Forall (fun x => x == 0) f) /\
    (Forall (fun b => b = false) y -> Forall (fun x => x == 0) t).

(** [th] lists the distinct values of the scores [s] in decreasing order. *)
Definition distinct_scores (s : list xnum) (th : list Q) : Prop :=
  StronglySorted (fun a b => b < a) th /\
  (forall x, In x th -> In (Fin x) s) /\
  (forall x, In (Fin x) s -> exists z, In z th /\ x == z).

(** A column pair that starts with the zero row of the sentinel. *)
Definition with_zero_row (P : list xnum -> list xnum -> Prop) (cf ct : list xnum) : Prop :=
  exists cf' ct', cf = x0 :: cf' /\ ct = x0 :: ct' /\ P cf' ct'.

(** The pseudo-point corrector on one column pair. *)
Definition fix_fps (cf ct : list xnum) : list xnum :=
  if xeqb (last cf NaN) x0 then map (xmul EPSILON) ct else cf.

Definition fix_tps (cf ct : list xnum) : list xnum :=
  if xeqb (last ct NaN) x0 then map (xmul EPSILON) (fix_fps cf ct) else ct.

Definition Qeps : Q := 1 # 10000000000.

Definition Qfix_fps (f t : list Q) : list Q :=
  if Qeq_bool (last f 0) 0 then map (Qmult Qeps) t else f.

Definition Qfix_tps (f t : list Q) : list Q :=
  if Qeq_bool (last t 0) 0 then map (Qmult Qeps) (Qfix_fps f t) else t.

(** What the engine establishes for the counts of one column. *)
Record curve_column (f t : list Q) : Prop := mk_curve_column {
  cc_length : length f = length t;
  cc_rows : (2 <= length f)%nat;
  cc_f0 : hd 0 f == 0;
  cc_t0 : hd 0 t == 0;
  cc_fmono : Qnondecr f;
  cc_tmono : Qnondecr t;
  cc_flast : 0 < last f 0;
  cc_tlast : 0 < last t 0;
  cc_pos : forall k, (1 <= k < length f)%nat -> 0 < nth k f 0 + nth k t 0
}.

(** A column pair of the engine's output: finite, with the properties of
    [curve_column], of [k] rows, and the pseudo-points of a class that is
    absent from the labels [y]. *)
Definition curve_pair (y : list bool) (k : nat) (cf ct : list xnum) : Prop :=
  exists f t,
    cf = map Fin f /\ ct = map Fin t /\ curve_column f t /\ length f = k /\
    (Forall (fun b => b = true) y -> f = map (Qmult Qeps) t) /\
    (Forall (fun b => b = false) y -> t = map (Qmult Qeps) f).

(** ** Statements about columns *)

(** A column is non-decreasing along the threshold axis. *)
Definition column_nondecreasing (c : list xnum) : Prop :=
  forall i j, (i <= j)%nat -> (j < length c)%nat -> xle (nth i c NaN) (nth j c NaN).



(** ** Example inputs *)

Definition example_y_true : ndarray :=
  mk_ndarray [4%nat] (BoolBuf [true; false; true; false]).

Definition example_y_score : ndarray :=
  mk_ndarray [4%nat] (FloatBuf [Fin (9 # 10); Fin (8 # 10); Fin (4 # 10); Fin (1 # 10)]).






Definition example_column_weight : ndarray :=
  mk_ndarray [4%nat; 1%nat] (FloatBuf [Fin 2; Fin 3; Fin (1 # 2); Fin 5]).

(** The thresholds below the sentinel, on finite scores. *)
Definition Qthresholds (q : list Q) : list Q :=
  Qdedup (map (fun i => nth i q 0) (desc_score_indices (map Fin q))).





(** ** The gains of one column, on finite counts *)






(** A matrix holds a NaN. *)
Definition contains_nan (M : list (list xnum)) : Prop :=
  exists c, In c M /\ In NaN c.

(** Two matrices of one shape. *)
Definition same_shape (M N : list (list xnum)) : Prop :=
  Forall2 (fun c c' => length c = length c') M N.

Definition example_x_curve : list (list xnum) := [[Fin 0; Fin 1; PInf]; [Fin 0; Fin (1 # 2); Fin 1]].
Definition example_y_curve : list (list xnum) := [[Fin 2; Fin 0; Fin 7]; [Fin 1; Fin 3; Fin 4]].
Definition example_nan_curve : list (list xnum) := [[Fin 2; NaN; Fin 7]; [Fin 1; Fin 3; Fin 4]].

(** ** The reference as a one-column matrix *)

Definition as_matrix (v : vector) : matrix := mk_matrix (vdtype v) [elems v].

Definition lift_pair (r : result (vector * vector)) : result (matrix * matrix) :=
  match r with
  | Ok (f, t) => Ok (as_matrix f, as_matrix t)
  | Raise e => Raise e
  end.

Definition lift_curve (r : result (vector * vector * list xnum))
  : result (matrix * matrix * list xnum) :=
  match r with
  | Ok (f, t, th) => Ok (as_matrix f, as_matrix t, th)
  | Raise e => Raise e
  end.

(** No weights, or a weight matrix of one column. *)
Definition single_column (sample_weight : option ndarray) : Prop :=
  match sample_weight with
  | None => True
  | Some w => exists n, shape w = [n; 1%nat]
  end.

(** ** The step function

    [make_into_step] drops the sample points that are NaN and, of several
    points at one location, all but the last. *)

Definition select_buffer (mask : list bool) (b : buffer) : buffer :=
  match b with
  | BoolBuf l => BoolBuf (select mask l)
  | IntBuf l => IntBuf (select mask l)
  | FloatBuf l => FloatBuf (select mask l)
  end.

(** [a[mask]] for a one-dimensional [a]: the entries at the true positions
    of [mask], which must have the shape of [a]. *)
Definition boolean_index (a : ndarray) (mask : list bool) : result ndarray :=
  if shape_eqb (shape a) [length mask]
  then let b := select_buffer mask (buf a) in Ok (mk_ndarray [buf_length b] b)
  else Raise IndexError.

(** [a[[]]]: no entry, of the dtype of [a]. *)
Definition index_none (a : ndarray) : ndarray :=
  mk_ndarray [0%nat] (select_buffer [] (buf a)).

(** [np.diff] of a one-dimensional array; on booleans the difference is the
    exclusive or. *)
Definition diff_array (a : ndarray) : list xnum :=
  match buf a with
  | BoolBuf l => map of_bool (map2 xorb (tl l) l)
  | _ => diff (values a)
  end.

Definition make_into_step (xp yp : ndarray) : result (ndarray * ndarray) :=
  check (Nat.eqb (ndim xp) 1 && shape_eqb (shape xp) (shape yp)) ;;
  let idx := map (fun x => negb (isnan x)) (values xp) in
  xp' <- boolean_index xp idx ;;
  yp' <- boolean_index yp idx ;;
  let deltas := diff_array xp' in
  check (negb (existsb (fun d => xltb d (Fin (- (1 # 10000000000)))) deltas)) ;;
  if Nat.eqb (size xp') 0 then Ok (index_none xp', index_none yp')
  else
    let idx := map (xltb x0) deltas ++ [true] in
    xp'' <- boolean_index xp' idx ;;
    yp'' <- boolean_index yp' idx ;;
    Ok (xp'', yp'').

(** The sample points that are not NaN, and what [yp] holds at them. *)
Definition not_nan (l : list xnum) : list bool := map (fun x => negb (isnan x)) l.

Definition sample_points (xp : ndarray) : list xnum :=
  select (not_nan (values xp)) (values xp).


(** The points of a sorted list that are followed by a larger one, and the
    last point. *)
Fixpoint last_of_ties (l : list xnum) : list bool :=
  match l with
  | [] => []
  | a :: t =>
      match t with
      | [] => [true]
      | b :: _ => xltb a b :: last_of_ties t
      end
  end.

(** A sequence is strictly increasing. *)
Definition strictly_increasing (l : list xnum) : Prop :=
  forall i j, (i < j)%nat -> (j < length l)%nat -> xlt (nth i l NaN) (nth j l NaN).

Definition example_xp : ndarray :=
  mk_ndarray [6%nat] (FloatBuf [Fin 0; NaN; Fin 1; Fin 1; Fin 3; PInf]).

Definition example_yp : ndarray :=
  mk_ndarray [6%nat] (IntBuf [10; 20; 30; 40; 50; 60]%Z).

(** [a[mask]] as an array. *)
Definition mask_array (mask : list bool) (a : ndarray) : ndarray :=
  mk_ndarray [buf_length (select_buffer mask (buf a))] (select_buffer mask (buf a)).

(** The tolerance of [make_into_step] for a decrease of the sample points. *)
Definition step_tolerance : xnum := Fin (- (1 # 10000000000)).




(** ** The trapezoid rule

    [np.trapz(y, x, axis=0)] is the sum over the rows of
    [d * (y[1:] + y[:-1]) / 2.0] with [d = np.diff(x, axis=0)].  As for
    [auc_left] the two curves are matrices of one shape. *)
Definition trapz (y x : list xnum) : xnum :=
  xsum (map2 (fun d s => xdiv (xmul d s) (Fin 2))
          (diff x) (map2 xadd (tl y) (removelast y))).

Definition auc_trapz (x_curve y_curve : list (list xnum)) : list xnum :=
  map2 (fun x y => trapz y x) x_curve y_curve.










(** ** What the counts count *)

(** The samples of label [b] whose score is at least [th]. *)
Definition at_least (b : bool) (th : xnum) (p : bool * xnum) : bool :=
  Bool.eqb (fst p) b && xleb th (snd p).

Definition count_at_least (y : list bool) (s : list xnum) (b : bool) (th : xnum) : Z :=
  Z.of_nat (length (filter (at_least b th) (combine y s))).

(** The scores and the labels in the order of the sort, and the indices of
    the thresholds in that order. *)
Definition Qsorted (q : list Q) : list Q :=
  map (fun i => nth i q 0) (desc_score_indices (map Fin q)).

Definition sorted_labels (l : list bool) (q : list Q) : list bool :=
  map (fun i => nth i l false) (desc_score_indices (map Fin q)).

Definition score_idxs (q : list Q) : list nat :=
  threshold_idxs (map Fin (Qsorted q)) (length (map Fin (Qsorted q))).



Definition example_unit_weight : ndarray :=
  mk_ndarray [4%nat; 2%nat] (IntBuf [1; 1; 1; 1; 1; 1; 1; 1]%Z).

(** ** The non-vectorized curves *)

(** [a[i]] *)
Definition nth_elem (A : Type) (l : list A) (i : nat) (d : A) : result A :=
  if Nat.ltb i (length l) then Ok (nth i l d) else Raise IndexError.


Definition _nv_recall_precision_curve (y_true y_score : ndarray)
  (sample_weight : option ndarray) : result (list xnum * list xnum * list xnum) :=
  '(fps, tps, thresholds) <- _nv_binary_clf_curve y_true y_score sample_weight ;;
  tps_last <- last_elem (elems tps) NaN ;;
  let recall := map (fun x => xdiv x tps_last) (elems tps) in
  let precision := map2 (fun t f => xdiv t (xadd t f)) (elems tps) (elems fps) in
  second <- nth_elem precision 1 NaN ;;
  let precision := second :: tl precision in
  check (forallb (xleb x0) precision && forallb (fun p => xleb p x1) precision) ;;
  Ok (recall, precision, thresholds).

(** A curve of the reference as the one-column curve of the vectorized
    version. *)
Definition lift_columns (r : result (list xnum * list xnum * list xnum))
  : result (list (list xnum) * list (list xnum) * list xnum) :=
  match r with
  | Ok (a, b, th) => Ok ([a], [b], th)
  | Raise e => Raise e
  end.







(** The labels with the two classes exchanged ([~y_true]). *)
Definition exchanged (y_true : ndarray) : ndarray :=
  mk_ndarray (shape y_true) (BoolBuf (map negb (labels y_true))).










(** * Properties *)

Unset Implicit Arguments.

(** ** Comparisons of finite numbers *)

Lemma Qltb_iff (a b : Q) : Qltb a b = true <-> a < b.
Proof.
  unfold Qltb. rewrite negb_true_iff. split; intro H.
  - apply Qnot_le_lt. intro H'. apply Qle_bool_iff in H'. congruence.
  - apply not_true_is_false. intro H'. apply Qle_bool_iff in H'. lra.
Qed.

Lemma Qle_bool_false (a b : Q) : Qle_bool a b = false <-> b < a.
Proof.
  rewrite <- Qltb_iff. unfold Qltb. rewrite negb_true_iff. tauto.
Qed.

Lemma Qeq_bool_false (a b : Q) : Qeq_bool a b = false <-> ~ a == b.
Proof.
  split; intro H.
  - intro E. apply Qeq_bool_iff in E. congruence.
  - apply not_true_is_false. intro E. apply Qeq_bool_iff in E. tauto.
Qed.

Lemma xleb_Fin (a b : Q) : xleb (Fin a) (Fin b) = true <-> a <= b.
Proof. simpl. apply Qle_bool_iff. Qed.

Lemma xltb_Fin (a b : Q) : xltb (Fin a) (Fin b) = true <-> a < b.
Proof. simpl. apply Qltb_iff. Qed.


Lemma isfinite_Fin (x : xnum) : isfinite x = true -> exists q, x = Fin q.
Proof. destruct x; simpl; try discriminate. eauto. Qed.

Lemma forallb_isfinite (l : list xnum) :
  forallb isfinite l = true -> exists q, l = map Fin q.
Proof.
  induction l as [|x l IH]; simpl; intro H.
  - exists []. reflexivity.
  - apply andb_true_iff in H. destruct H as [Hx Hl].
    destruct (isfinite_Fin _ Hx) as [q ->]. destruct (IH Hl) as [qs ->].
    exists (q :: qs). reflexivity.
Qed.

Lemma forallb_isfinite_Fin (q : list Q) : forallb isfinite (map Fin q) = true.
Proof. induction q; simpl; auto. Qed.

(** ** Sums of finite lists *)

Lemma cumsum_from_Fin (acc : Q) (l : list Q) :
  cumsum_from (Fin acc) (map Fin l) = map Fin (Qcumsum_from acc l).
Proof.
  revert acc. induction l as [|x l IH]; intro acc; simpl; [reflexivity|].
  rewrite IH. reflexivity.
Qed.

Lemma cumsum_Fin (l : list Q) : cumsum (map Fin l) = map Fin (Qcumsum l).
Proof.
  destruct l as [|x l]; simpl; [reflexivity|]. rewrite cumsum_from_Fin. reflexivity.
Qed.

Lemma xsum_from_Fin (acc : Q) (l : list Q) :
  fold_left xadd (map Fin l) (Fin acc) = Fin (fold_left Qplus l acc).
Proof.
  revert acc. induction l as [|x l IH]; intro acc; simpl; [reflexivity|].
  apply IH.
Qed.

Lemma xsum_Fin (l : list Q) : xsum (map Fin l) = Fin (Qsum l).
Proof. apply xsum_from_Fin. Qed.

Lemma Qcumsum_from_length (acc : Q) (l : list Q) :
  length (Qcumsum_from acc l) = length l.
Proof. revert acc. induction l; intro; simpl; auto. Qed.

Lemma Qcumsum_length (l : list Q) : length (Qcumsum l) = length l.
Proof. destruct l; simpl; [|rewrite Qcumsum_from_length]; reflexivity. Qed.

Lemma fold_left_Qplus_acc (l : list Q) (acc : Q) :
  fold_left Qplus l acc == acc + fold_left Qplus l 0.
Proof.
  revert acc. induction l as [|x l IH]; intro acc; simpl.
  - lra.
  - rewrite IH. rewrite (IH (0 + x)). lra.
Qed.

Lemma Qsum_cons (x : Q) (l : list Q) : Qsum (x :: l) == x + Qsum l.
Proof.
  unfold Qsum. simpl. rewrite fold_left_Qplus_acc. lra.
Qed.

(** ** Indexing *)

Lemma nth_map_Fin (q : list Q) (i : nat) :
  (i < length q)%nat -> nth i (map Fin q) NaN = Fin (nth i q 0).
Proof.
  intro H. rewrite (nth_indep _ NaN (Fin 0)) by (rewrite length_map; exact H).
  apply (map_nth Fin).
Qed.

Lemma forallb_ltb (n : nat) (idx : list nat) :
  forallb (fun i => Nat.ltb i n) idx = true <-> Forall (fun i => (i < n)%nat) idx.
Proof.
  rewrite forallb_forall, Forall_forall. split; intros H i Hi.
  - apply Nat.ltb_lt. auto.
  - apply Nat.ltb_lt. auto.
Qed.

Lemma take_ok (A : Type) (l : list A) (idx : list nat) (d : A) :
  Forall (fun i => (i < length l)%nat) idx ->
  take l idx d = Ok (map (fun i => nth i l d) idx).
Proof.
  intro H. unfold take. apply forallb_ltb in H. rewrite H. reflexivity.
Qed.

Lemma map_nth_Fin (q : list Q) (idx : list nat) :
  Forall (fun i => (i < length q)%nat) idx ->
  map (fun i => nth i (map Fin q) NaN) idx = map Fin (map (fun i => nth i q 0) idx).
Proof.
  intro H. rewrite map_map. apply map_ext_in. intros i Hi.
  apply nth_map_Fin. rewrite Forall_forall in H. auto.
Qed.

(** ** The stable sort *)

Section Sorting.
Variable q : list Q.

Let Rq (i j : nat) : Prop := nth i q 0 <= nth j q 0.

Lemma insert_index_perm (s : list xnum) (i : nat) (l : list nat) :
  Permutation (insert_index s i l) (i :: l).
Proof.
  induction l as [|j l IH]; simpl; [apply Permutation_refl|].
  destruct (xleb _ _); [apply Permutation_refl|].
  eapply Permutation_trans; [apply perm_skip, IH|apply perm_swap].
Qed.

Lemma argsort_perm (s : list xnum) : Permutation (argsort s) (seq 0 (length s)).
Proof.
  unfold argsort. induction (seq 0 (length s)) as [|i l IH]; simpl.
  - apply Permutation_refl.
  - eapply Permutation_trans; [apply insert_index_perm|apply perm_skip, IH].
Qed.

Lemma insert_index_sorted (i : nat) (l : list nat) :
  (i < length q)%nat -> Forall (fun j => (j < length q)%nat) l ->
  StronglySorted Rq l -> StronglySorted Rq (insert_index (map Fin q) i l).
Proof.
  intros Hi Hl Hs. induction Hs as [|j l Hs IH Hj]; simpl.
  - constructor; constructor.
  - inversion Hl as [|? ? Hjq Hlq]; subst.
    rewrite !nth_map_Fin by assumption. simpl.
    destruct (Qle_bool (nth i q 0) (nth j q 0)) eqn:E.
    + apply Qle_bool_iff in E. constructor; [constructor; assumption|].
      constructor; [exact E|].
      rewrite Forall_forall in Hj |- *. intros k Hk. specialize (Hj k Hk).
      unfold Rq in *. lra.
    + apply Qle_bool_false in E. constructor; [apply IH; assumption|].
      eapply Permutation_Forall; [apply Permutation_sym, insert_index_perm|].
      constructor; [unfold Rq; lra|exact Hj].
Qed.

Lemma argsort_in_range : Forall (fun j => (j < length q)%nat) (argsort (map Fin q)).
Proof.
  eapply Permutation_Forall; [apply Permutation_sym, argsort_perm|].
  rewrite length_map. apply Forall_forall. intros j Hj. apply in_seq in Hj. lia.
Qed.

Lemma argsort_sorted : StronglySorted Rq (argsort (map Fin q)).
Proof.
  unfold argsort. rewrite length_map.
  assert (H : Forall (fun j => (j < length q)%nat) (seq 0 (length q))).
  { apply Forall_forall. intros j Hj. apply in_seq in Hj. lia. }
  induction (seq 0 (length q)) as [|i l IH]; simpl; [constructor|].
  inversion H; subst. apply insert_index_sorted; auto.
  eapply Permutation_Forall; [|eassumption].
  clear. induction l as [|j l IH]; simpl; [apply Permutation_refl|].
  apply Permutation_sym.
  eapply Permutation_trans; [apply insert_index_perm|].
  apply perm_skip, Permutation_sym, IH.
Qed.

Lemma StronglySorted_snoc (A : Type) (R : A -> A -> Prop) (l : list A) (a : A) :
  StronglySorted R l -> Forall (fun x => R x a) l -> StronglySorted R (l ++ [a]).
Proof.
  induction 1 as [|x l Hs IH Hx]; intro Ha; simpl.
  - constructor; constructor.
  - inversion Ha; subst. constructor; [auto|].
    apply Forall_app. split; [assumption|]. constructor; [assumption|constructor].
Qed.

Lemma StronglySorted_rev (A : Type) (R : A -> A -> Prop) (l : list A) :
  StronglySorted R l -> StronglySorted (fun x y => R y x) (rev l).
Proof.
  induction 1 as [|x l Hs IH Hx]; simpl; [constructor|].
  apply StronglySorted_snoc; [assumption|].
  apply Forall_forall. intros y Hy. apply in_rev in Hy.
  rewrite Forall_forall in Hx. auto.
Qed.

Lemma desc_in_range :
  Forall (fun j => (j < length q)%nat) (desc_score_indices (map Fin q)).
Proof.
  unfold desc_score_indices. apply Forall_forall. intros j Hj.
  apply in_rev in Hj. pose proof argsort_in_range as H.
  rewrite Forall_forall in H. auto.
Qed.

Lemma desc_length : length (desc_score_indices (map Fin q)) = length q.
Proof.
  unfold desc_score_indices. rewrite length_rev.
  rewrite (Permutation_length (argsort_perm _)), length_seq, length_map. reflexivity.
Qed.

Lemma desc_perm : Permutation (desc_score_indices (map Fin q)) (seq 0 (length q)).
Proof.
  unfold desc_score_indices.
  eapply Permutation_trans; [apply Permutation_sym, Permutation_rev|].
  rewrite <- (length_map Fin). apply argsort_perm.
Qed.

(** The scores in sorted order are non-increasing. *)
Lemma sorted_scores :
  StronglySorted (fun a b => b <= a)
    (map (fun i => nth i q 0) (desc_score_indices (map Fin q))).
Proof.
  unfold desc_score_indices.
  pose proof (StronglySorted_rev _ _ _ argsort_sorted) as H.
  induction H as [|x l Hs IH Hx]; simpl; constructor; auto.
  rewrite Forall_forall in Hx |- *. intros y Hy.
  apply in_map_iff in Hy. destruct Hy as [j [<- Hj]]. apply Hx, Hj.
Qed.

End Sorting.

(** ** Threshold indices *)

Lemma where_from_shift (k : nat) (l : list xnum) :
  where_from (S k) l = map S (where_from k l).
Proof.
  revert k. induction l as [|x l IH]; intro k; simpl; [reflexivity|].
  destruct (xeqb x x0); simpl; rewrite IH; reflexivity.
Qed.

Lemma where_from_bound (k : nat) (l : list xnum) :
  Forall (fun i => (k <= i < k + length l)%nat) (where_from k l).
Proof.
  revert k. induction l as [|x l IH]; intro k; simpl; [constructor|].
  assert (H : Forall (fun i => (k <= i < k + S (length l))%nat) (where_from (S k) l)).
  { eapply Forall_impl; [|apply IH]. simpl. intros; lia. }
  destruct (xeqb x x0); [exact H|]. constructor; [lia|exact H].
Qed.

Lemma where_from_sorted (k : nat) (l : list xnum) :
  StronglySorted lt (where_from k l).
Proof.
  revert k. induction l as [|x l IH]; intro k; simpl; [constructor|].
  destruct (xeqb x x0); [apply IH|]. constructor; [apply IH|].
  eapply Forall_impl; [|apply where_from_bound]. simpl. intros; lia.
Qed.

Lemma diff_length (l : list xnum) : length (diff l) = (length l - 1)%nat.
Proof.
  induction l as [|a [|b t] IH]; simpl in *; try reflexivity.
  rewrite IH. lia.
Qed.

Lemma threshold_idxs_sorted (s : list xnum) :
  StronglySorted lt (threshold_idxs s (length s)).
Proof.
  unfold threshold_idxs, where_nonzero.
  apply StronglySorted_snoc; [apply where_from_sorted|].
  eapply Forall_impl; [|apply where_from_bound]. simpl.
  intro i. rewrite diff_length. lia.
Qed.

Lemma threshold_idxs_in_range (s : list xnum) :
  s <> [] -> Forall (fun i => (i < length s)%nat) (threshold_idxs s (length s)).
Proof.
  intro Hs. unfold threshold_idxs, where_nonzero. apply Forall_app. split.
  - eapply Forall_impl; [|apply where_from_bound]. simpl.
    intro i. rewrite diff_length. lia.
  - constructor; [|constructor]. destruct s; [congruence|simpl; lia].
Qed.

Lemma threshold_idxs_last (s : list xnum) (d : nat) :
  last (threshold_idxs s (length s)) d = (length s - 1)%nat.
Proof. unfold threshold_idxs. apply last_last. Qed.

Lemma threshold_idxs_nonempty (s : list xnum) (n : nat) : threshold_idxs s n <> [].
Proof. unfold threshold_idxs. destruct (where_nonzero (diff s)); discriminate. Qed.

Lemma threshold_idxs_cons (a b : Q) (t : list Q) :
  threshold_idxs (map Fin (a :: b :: t)) (length (a :: b :: t)) =
  (if Qeq_bool (b + - a) 0 then [] else [0%nat])
  ++ map S (threshold_idxs (map Fin (b :: t)) (length (b :: t))).
Proof.
  unfold threshold_idxs, where_nonzero.
  change (diff (map Fin (a :: b :: t)))
    with (Fin (b + - a) :: diff (map Fin (b :: t))).
  cbn [where_from xeqb x0]. rewrite where_from_shift, map_app.
  cbn [length map Nat.sub]. rewrite Nat.sub_0_r.
  destruct (Qeq_bool (b + - a) 0); reflexivity.
Qed.

(** The thresholds are the sorted scores without their repetitions. *)
Lemma thresholds_dedup (q : list Q) :
  q <> [] ->
  map (fun i => nth i q 0) (threshold_idxs (map Fin q) (length q)) = Qdedup q.
Proof.
  induction q as [|a [|b t] IH]; intro Hq; [congruence|reflexivity|].
  rewrite threshold_idxs_cons, map_app, map_map.
  change (Qdedup (a :: b :: t))
    with (if Qeq_bool (b + - a) 0 then Qdedup (b :: t) else a :: Qdedup (b :: t)).
  rewrite <- IH by discriminate.
  destruct (Qeq_bool (b + - a) 0); reflexivity.
Qed.

Lemma Qdedup_incl (l : list Q) (x : Q) : In x (Qdedup l) -> In x l.
Proof.
  induction l as [|a [|b t] IH]; intro H; [exact H|exact H|].
  change (Qdedup (a :: b :: t))
    with (if Qeq_bool (b + - a) 0 then Qdedup (b :: t) else a :: Qdedup (b :: t)) in H.
  destruct (Qeq_bool (b + - a) 0).
  - right. apply IH, H.
  - destruct H as [H|H]; [left; exact H|right; apply IH, H].
Qed.

Lemma Qdedup_complete (l : list Q) (x : Q) :
  In x l -> exists y, In y (Qdedup l) /\ x == y.
Proof.
  revert x. induction l as [|a [|b t] IH]; intros x H; [destruct H| |].
  - destruct H as [<-|[]]. exists a. split; [left; reflexivity|reflexivity].
  - change (Qdedup (a :: b :: t))
      with (if Qeq_bool (b + - a) 0 then Qdedup (b :: t) else a :: Qdedup (b :: t)).
    destruct (Qeq_bool (b + - a) 0) eqn:E.
    + apply Qeq_bool_iff in E. destruct H as [<-|H]; [|apply IH, H].
      destruct (IH b (or_introl eq_refl)) as [y [Hy Hby]].
      exists y. split; [exact Hy|]. rewrite <- Hby. lra.
    + destruct H as [<-|H].
      * exists a. split; [left; reflexivity|reflexivity].
      * destruct (IH x H) as [y [Hy Hxy]]. exists y. split; [right; exact Hy|exact Hxy].
Qed.

Lemma Qdedup_decreasing (l : list Q) :
  StronglySorted (fun a b => b <= a) l ->
  StronglySorted (fun a b => b < a) (Qdedup l).
Proof.
  induction l as [|a [|b t] IH]; intro H; [constructor|repeat constructor|].
  change (Qdedup (a :: b :: t))
    with (if Qeq_bool (b + - a) 0 then Qdedup (b :: t) else a :: Qdedup (b :: t)).
  inversion H as [|? ? Hs Ha]; subst.
  destruct (Qeq_bool (b + - a) 0) eqn:E; [apply IH, Hs|].
  apply Qeq_bool_false in E. constructor; [apply IH, Hs|].
  apply Forall_forall. intros y Hy. apply Qdedup_incl in Hy.
  inversion Hs as [|? ? Hs' Hb]; subst.
  inversion Ha as [|? ? Hab Hat]; subst.
  destruct Hy as [<-|Hy].
  - apply Qle_lt_or_eq in Hab. destruct Hab as [Hab|Hab]; [exact Hab|].
    exfalso. apply E. rewrite Hab. lra.
  - rewrite Forall_forall in Hb. specialize (Hb y Hy).
    apply Qle_lt_or_eq in Hab. destruct Hab as [Hab|Hab]; [lra|].
    exfalso. apply E. rewrite Hab. lra.
Qed.

(** ** Running sums *)

Lemma Qsum_nil : Qsum [] == 0.
Proof. reflexivity. Qed.

Lemma Qcumsum_from_nth (l : list Q) (acc : Q) (i : nat) :
  (i < length l)%nat ->
  nth i (Qcumsum_from acc l) 0 == acc + Qsum (firstn (S i) l).
Proof.
  revert acc i. induction l as [|x l IH]; intros acc i Hi; simpl in Hi; [lia|].
  destruct i as [|i].
  - simpl. rewrite Qsum_cons. destruct l; rewrite Qsum_nil; lra.
  - change (nth (S i) (Qcumsum_from acc (x :: l)) 0)
      with (nth i (Qcumsum_from (acc + x) l) 0).
    rewrite IH by lia.
    change (firstn (S (S i)) (x :: l)) with (x :: firstn (S i) l).
    rewrite Qsum_cons. lra.
Qed.

Lemma Qcumsum_nth (l : list Q) (i : nat) :
  (i < length l)%nat -> nth i (Qcumsum l) 0 == Qsum (firstn (S i) l).
Proof.
  destruct l as [|x l]; intro Hi; simpl in Hi; [lia|].
  destruct i as [|i].
  - simpl. rewrite Qsum_cons. destruct l; rewrite Qsum_nil; lra.
  - change (nth (S i) (Qcumsum (x :: l)) 0) with (nth i (Qcumsum_from x l) 0).
    rewrite Qcumsum_from_nth by lia.
    change (firstn (S (S i)) (x :: l)) with (x :: firstn (S i) l).
    rewrite Qsum_cons. lra.
Qed.

Lemma Forall_firstn (A : Type) (P : A -> Prop) (k : nat) (l : list A) :
  Forall P l -> Forall P (firstn k l).
Proof.
  intro H. revert k. induction H as [|x l Hx Hl IH]; intro k.
  - rewrite firstn_nil. constructor.
  - destruct k as [|k]; simpl; constructor; auto.
Qed.

Lemma Qsum_nonneg (l : list Q) : Forall (fun x => 0 <= x) l -> 0 <= Qsum l.
Proof.
  induction 1 as [|x l Hx Hl IH]; [rewrite Qsum_nil; lra|].
  rewrite Qsum_cons. lra.
Qed.

Lemma Qsum_firstn_mono (l : list Q) (k k' : nat) :
  Forall (fun x => 0 <= x) l -> (k <= k')%nat ->
  Qsum (firstn k l) <= Qsum (firstn k' l).
Proof.
  intro H. revert k k'. induction H as [|x l Hx Hl IH]; intros k k' Hk.
  - rewrite !firstn_nil. lra.
  - destruct k as [|k]; destruct k' as [|k']; try lia.
    + simpl. lra.
    + change (firstn 0 (x :: l)) with (@nil Q). rewrite Qsum_nil.
      apply Qsum_nonneg. apply Forall_firstn. constructor; assumption.
    + simpl firstn. rewrite !Qsum_cons. specialize (IH k k' ltac:(lia)). lra.
Qed.

Lemma Qsum_firstn_pos (l : list Q) (k : nat) :
  Forall (fun x => 0 < x) l -> l <> [] -> (1 <= k)%nat -> 0 < Qsum (firstn k l).
Proof.
  intros H Hl Hk. destruct H as [|x l Hx H]; [congruence|].
  destruct k as [|k]; [lia|]. simpl firstn. rewrite Qsum_cons.
  assert (0 <= Qsum (firstn k l)); [|lra].
  apply Qsum_nonneg, Forall_firstn. eapply Forall_impl; [|exact H].
  simpl. intros; lra.
Qed.

Lemma Qweigh_split (y : list bool) (w : list Q) (k : nat) :
  length y = length w ->
  Qsum (firstn k w) ==
  Qsum (firstn k (Qweigh y w)) + Qsum (firstn k (Qweigh (map negb y) w)).
Proof.
  revert w k. induction y as [|b y IH]; intros [|x w] k Hlen; simpl in Hlen;
    try discriminate.
  - rewrite !firstn_nil. rewrite Qsum_nil. lra.
  - destruct k as [|k]; [simpl; rewrite Qsum_nil; lra|].
    unfold Qweigh. simpl. fold (Qweigh y w). fold (Qweigh (map negb y) w).
    rewrite !Qsum_cons. rewrite (IH w k) by lia. destruct b; simpl; lra.
Qed.

Lemma Qsum_select (y : list bool) (w : list Q) :
  Qsum (Qweigh y w) == Qsum (select y w).
Proof.
  revert w. induction y as [|b y IH]; intros [|x w]; try reflexivity.
  unfold Qweigh. simpl. fold (Qweigh y w). rewrite Qsum_cons, IH.
  destruct b; [rewrite Qsum_cons|]; lra.
Qed.

Lemma Qweigh_length (y : list bool) (w : list Q) :
  length y = length w -> length (Qweigh y w) = length w.
Proof.
  revert w. induction y as [|b y IH]; intros [|x w] H; simpl in *; try lia.
  unfold Qweigh in *. rewrite IH; lia.
Qed.

Lemma Qweigh_nonneg (y : list bool) (w : list Q) :
  Forall (fun x => 0 < x) w -> Forall (fun x => 0 <= x) (Qweigh y w).
Proof.
  intro H. revert y. induction H as [|x w Hx Hw IH]; intros [|b y];
    try constructor.
  - destruct b; lra.
  - apply IH.
Qed.

Lemma weigh_Fin (y : list bool) (w : list Q) :
  map2 (fun b x => xmul (of_bool b) x) y (map Fin w) = map Fin (Qweigh y w).
Proof.
  revert w. induction y as [|b y IH]; intros [|x w]; try reflexivity.
  unfold Qweigh. simpl. fold (Qweigh y w). rewrite IH. destruct b; reflexivity.
Qed.

Lemma select_Fin (y : list bool) (w : list Q) :
  select y (map Fin w) = map Fin (select y w).
Proof.
  revert w. induction y as [|b y IH]; intros [|x w]; try reflexivity.
  simpl. rewrite IH. destruct b; reflexivity.
Qed.

Lemma Qsum_zero (l : list Q) : Forall (fun x => x == 0) l -> Qsum l == 0.
Proof.
  induction 1 as [|x l Hx Hl IH]; [reflexivity|]. rewrite Qsum_cons, IH, Hx. lra.
Qed.

Lemma Qweigh_zero (y : list bool) (w : list Q) :
  Forall (fun b => b = false) y -> Forall (fun x => x == 0) (Qweigh y w).
Proof.
  intro H. revert w. induction H as [|b y Hb Hy IH]; intros [|x w];
    try constructor.
  - subst b. lra.
  - apply IH.
Qed.

Lemma sumZ_acc (l : list Z) (acc : Z) :
  fold_left Z.add l acc = (acc + sumZ l)%Z.
Proof.
  unfold sumZ. revert acc. induction l as [|x l IH]; intro acc; simpl; [lia|].
  rewrite IH, (IH x). lia.
Qed.

Lemma sumZ_cons (x : Z) (l : list Z) : sumZ (x :: l) = (x + sumZ l)%Z.
Proof. unfold sumZ at 1. simpl. apply sumZ_acc. Qed.

Lemma cumsumZ_from_nth (l : list Z) (acc : Z) (i : nat) :
  (i < length l)%nat ->
  nth i (cumsumZ_from acc l) 0%Z = (acc + sumZ (firstn (S i) l))%Z.
Proof.
  revert acc i. induction l as [|x l IH]; intros acc i Hi; simpl in Hi; [lia|].
  destruct i as [|i].
  - simpl. rewrite sumZ_cons. destruct l; unfold sumZ; simpl; lia.
  - change (nth (S i) (cumsumZ_from acc (x :: l)) 0%Z)
      with (nth i (cumsumZ_from (acc + x) l) 0%Z).
    rewrite IH by lia.
    change (firstn (S (S i)) (x :: l)) with (x :: firstn (S i) l).
    rewrite sumZ_cons. lia.
Qed.

Lemma cumsumZ_nth (l : list Z) (i : nat) :
  (i < length l)%nat -> nth i (cumsumZ l) 0%Z = sumZ (firstn (S i) l).
Proof.
  destruct l as [|x l]; intro Hi; simpl in Hi; [lia|].
  destruct i as [|i].
  - simpl. rewrite sumZ_cons. destruct l; unfold sumZ; simpl; lia.
  - change (nth (S i) (cumsumZ (x :: l)) 0%Z) with (nth i (cumsumZ_from x l) 0%Z).
    rewrite cumsumZ_from_nth by lia.
    change (firstn (S (S i)) (x :: l)) with (x :: firstn (S i) l).
    rewrite sumZ_cons. lia.
Qed.

Lemma cumsumZ_from_length (acc : Z) (l : list Z) :
  length (cumsumZ_from acc l) = length l.
Proof. revert acc. induction l; intro; simpl; auto. Qed.

Lemma cumsumZ_length (l : list Z) : length (cumsumZ l) = length l.
Proof. destruct l; simpl; [|rewrite cumsumZ_from_length]; reflexivity. Qed.

(** Counting labels: the positives and the negatives among the first [k]. *)
Lemma count_firstn_step (y : list bool) (k k' : nat) :
  (k <= k')%nat ->
  (0 <= sumZ (firstn k' (map Z.b2z y)) - sumZ (firstn k (map Z.b2z y))
   <= Z.of_nat k' - Z.of_nat k)%Z.
Proof.
  revert k k'. induction y as [|b y IH]; intros k k' Hk.
  - simpl. rewrite !firstn_nil. unfold sumZ. simpl. lia.
  - destruct k as [|k]; destruct k' as [|k']; try lia.
    + specialize (IH 0%nat k' ltac:(lia)).
      change (firstn 0 (map Z.b2z (b :: y))) with (@nil Z).
      change (firstn 0 (map Z.b2z y)) with (@nil Z) in IH.
      cbn [map firstn]. rewrite sumZ_cons.
      change (sumZ []) with 0%Z in *. destruct b; simpl Z.b2z; lia.
    + specialize (IH k k' ltac:(lia)). cbn [map firstn]. rewrite !sumZ_cons. lia.
Qed.

Lemma count_split (y : list bool) :
  (sumZ (map Z.b2z y) + sumZ (map (fun b => Z.b2z (negb b)) y))%Z
  = Z.of_nat (length y).
Proof.
  induction y as [|b y IH]; [reflexivity|].
  cbn [map length]. rewrite !sumZ_cons. destruct b; simpl Z.b2z; simpl negb; lia.
Qed.

Lemma count_all_true (y : list bool) (k : nat) :
  Forall (fun b => b = true) y -> (k <= length y)%nat ->
  sumZ (firstn k (map Z.b2z y)) = Z.of_nat k.
Proof.
  intro H. revert k. induction H as [|b y Hb Hy IH]; intros k Hk; simpl in Hk.
  - assert (k = 0%nat) by lia. subst. reflexivity.
  - destruct k as [|k]; [reflexivity|]. cbn [map firstn].
    rewrite sumZ_cons, IH by lia. subst b. simpl Z.b2z. lia.
Qed.

Lemma count_all_false (y : list bool) (k : nat) :
  Forall (fun b => b = false) y -> sumZ (firstn k (map Z.b2z y)) = 0%Z.
Proof.
  intro H. revert k. induction H as [|b y Hb Hy IH]; intro k.
  - simpl. rewrite firstn_nil. reflexivity.
  - destruct k as [|k]; [reflexivity|]. cbn [map firstn].
    rewrite sumZ_cons, IH. subst b. reflexivity.
Qed.

(** ** Counts of one column *)

Lemma map2_map (A B C D : Type) (f : B -> C -> D) (a : A -> B) (b : A -> C)
  (l : list A) :
  map2 f (map a l) (map b l) = map (fun i => f (a i) (b i)) l.
Proof. induction l as [|x l IH]; simpl; [reflexivity|]. rewrite IH. reflexivity. Qed.

Lemma map2_map_r (A C D : Type) (f : A -> C -> D) (b : A -> C) (l : list A) :
  map2 f l (map b l) = map (fun i => f i (b i)) l.
Proof. induction l as [|x l IH]; simpl; [reflexivity|]. rewrite IH. reflexivity. Qed.

Lemma map2_length (A B C : Type) (f : A -> B -> C) (l : list A) (l' : list B) :
  length l = length l' -> length (map2 f l l') = length l.
Proof.
  revert l'. induction l as [|a l IH]; intros [|b l'] H; simpl in *; try lia.
  rewrite IH; lia.
Qed.

Lemma nth_map_in (A : Type) (g : A -> Q) (l : list A) (k : nat) (d : A) :
  (k < length l)%nat -> nth k (map g l) 0 = g (nth k l d).
Proof.
  intro H. rewrite (nth_indep _ 0 (g d)) by (rewrite length_map; exact H).
  apply map_nth.
Qed.

Lemma Qnondecr_map_sorted (g : nat -> Q) (n : nat) (idxs : list nat) :
  (forall i j, (i <= j)%nat -> (j < n)%nat -> g i <= g j) ->
  StronglySorted lt idxs -> Forall (fun i => (i < n)%nat) idxs ->
  Qnondecr (map g idxs).
Proof.
  intros Hg Hs Hn. induction Hs as [|i l Hs IH Hi]; [exact I|].
  inversion Hn as [|? ? Hin Hln]; subst. destruct l as [|j l]; [exact I|].
  split; [|apply IH, Hln].
  inversion Hi; subst. inversion Hln; subst. apply Hg; lia.
Qed.

Lemma Qnondecr_select (g : nat -> Q) (n : nat) (idxs : list nat) :
  (forall i, (i < n)%nat -> 0 <= g i) ->
  (forall i j, (i <= j)%nat -> (j < n)%nat -> g i <= g j) ->
  StronglySorted lt idxs -> Forall (fun i => (i < n)%nat) idxs ->
  Qnondecr (0 :: map g idxs).
Proof.
  intros H0 Hg Hs Hn.
  pose proof (Qnondecr_map_sorted g n idxs Hg Hs Hn) as H.
  destruct idxs as [|i l]; [exact I|]. split; [|exact H].
  inversion Hn; subst. auto.
Qed.

Section WeightedColumn.
Variables (y : list bool) (w : list Q) (idxs : list nat).
Hypothesis Hlen : length y = length w.
Hypothesis Hpos : Forall (fun x => 0 < x) w.
Hypothesis Hsorted : StronglySorted lt idxs.
Hypothesis Hrange : Forall (fun i => (i < length w)%nat) idxs.
Hypothesis Hne : idxs <> [].

Let gT (i : nat) : Q := nth i (Qcumsum (Qweigh y w)) 0.
Let gF (i : nat) : Q := nth i (Qcumsum w) 0 + - gT i.

Lemma gT_prefix (i : nat) :
  (i < length w)%nat -> gT i == Qsum (firstn (S i) (Qweigh y w)).
Proof.
  intro Hi. unfold gT. apply Qcumsum_nth. rewrite Qweigh_length; assumption.
Qed.

Lemma gF_prefix (i : nat) :
  (i < length w)%nat -> gF i == Qsum (firstn (S i) (Qweigh (map negb y) w)).
Proof.
  intro Hi. unfold gF. rewrite gT_prefix, Qcumsum_nth by assumption.
  rewrite (Qweigh_split y w (S i) Hlen). lra.
Qed.

Lemma gC_pos (i : nat) : (i < length w)%nat -> 0 < gF i + gT i.
Proof.
  intro Hi. unfold gF.
  assert (H : 0 < nth i (Qcumsum w) 0); [|lra].
  rewrite Qcumsum_nth by assumption.
  apply Qsum_firstn_pos; [assumption| |lia].
  destruct w; [simpl in Hi; lia|discriminate].
Qed.

Lemma weighted_column :
  raw_column
    (map2 (fun c t => c + - t) (map (fun i => nth i (Qcumsum w) 0) idxs) (map gT idxs))
    (map gT idxs).
Proof.
  rewrite map2_map. change (fun i => nth i (Qcumsum w) 0 + - gT i) with gF.
  constructor.
  - rewrite !length_map. reflexivity.
  - destruct idxs; [congruence|discriminate].
  - apply Qnondecr_select with (n := length w); try assumption.
    + intros i Hi. rewrite gF_prefix by assumption.
      apply Qsum_nonneg, Forall_firstn, Qweigh_nonneg, Hpos.
    + intros i j Hij Hj. rewrite !gF_prefix by lia.
      apply Qsum_firstn_mono; [apply Qweigh_nonneg, Hpos|lia].
  - apply Qnondecr_select with (n := length w); try assumption.
    + intros i Hi. rewrite gT_prefix by assumption.
      apply Qsum_nonneg, Forall_firstn, Qweigh_nonneg, Hpos.
    + intros i j Hij Hj. rewrite !gT_prefix by lia.
      apply Qsum_firstn_mono; [apply Qweigh_nonneg, Hpos|lia].
  - intros k Hk. rewrite length_map in Hk.
    rewrite !(nth_map_in _ _ _ _ 0%nat) by assumption.
    apply gC_pos. rewrite Forall_forall in Hrange. apply Hrange, nth_In, Hk.
Qed.

(** The last row holds the two class totals. *)
Lemma weighted_totals :
  gT (length w - 1) == Qsum (select y w) /\
  gF (length w - 1) == Qsum (select (map negb y) w).
Proof.
  assert (Hw : (length w - 1 < length w)%nat).
  { destruct idxs as [|i l]; [congruence|]. inversion Hrange; subst. lia. }
  assert (E : forall z : list Q, length z = length w ->
                firstn (S (length w - 1)) z = z).
  { intros z Hz. apply firstn_all2. lia. }
  split.
  - rewrite gT_prefix, E by (try apply Qweigh_length; assumption).
    apply Qsum_select.
  - rewrite gF_prefix, E by (try apply Qweigh_length; try rewrite length_map; assumption).
    apply Qsum_select.
Qed.

Lemma weighted_all_true :
  Forall (fun b => b = true) y ->
  Forall (fun x => x == 0) (map gF idxs).
Proof.
  intro Hy. apply Forall_forall. intros x Hx. apply in_map_iff in Hx.
  destruct Hx as [i [<- Hi]]. rewrite Forall_forall in Hrange.
  rewrite gF_prefix by auto.
  apply Qsum_zero, Forall_firstn, Qweigh_zero.
  apply Forall_forall. intros b Hb. apply in_map_iff in Hb.
  destruct Hb as [b' [<- Hb']]. rewrite Forall_forall in Hy.
  rewrite (Hy b' Hb'). reflexivity.
Qed.

Lemma weighted_all_false :
  Forall (fun b => b = false) y ->
  Forall (fun x => x == 0) (map gT idxs).
Proof.
  intro Hy. apply Forall_forall. intros x Hx. apply in_map_iff in Hx.
  destruct Hx as [i [<- Hi]]. rewrite Forall_forall in Hrange.
  rewrite gT_prefix by auto.
  apply Qsum_zero, Forall_firstn, Qweigh_zero, Hy.
Qed.

End WeightedColumn.

Section UnweightedColumn.
Variables (y : list bool) (idxs : list nat).
Hypothesis Hsorted : StronglySorted lt idxs.
Hypothesis Hrange : Forall (fun i => (i < length y)%nat) idxs.
Hypothesis Hne : idxs <> [].

Let cT (i : nat) : Z := nth i (cumsumZ (map Z.b2z y)) 0%Z.
Let cF (i : nat) : Z := (1 + Z.of_nat i - cT i)%Z.

Lemma cT_prefix (i : nat) :
  (i < length y)%nat -> cT i = sumZ (firstn (S i) (map Z.b2z y)).
Proof. intro Hi. unfold cT. apply cumsumZ_nth. rewrite length_map. exact Hi. Qed.

Lemma cT_bounds (i j : nat) :
  (i <= j)%nat -> (j < length y)%nat ->
  (0 <= cT i /\ cT i <= cT j /\ 0 <= cF i /\ cF i <= cF j)%Z.
Proof.
  intros Hij Hj. unfold cF. rewrite !cT_prefix by lia.
  pose proof (count_firstn_step y 0 (S i) ltac:(lia)) as H0.
  pose proof (count_firstn_step y (S i) (S j) ltac:(lia)) as H1.
  change (firstn 0 (map Z.b2z y)) with (@nil Z) in H0.
  change (sumZ []) with 0%Z in H0. lia.
Qed.

Lemma unweighted_column :
  raw_column
    (map inject_Z (map2 (fun i t => (1 + Z.of_nat i - t)%Z) idxs (map cT idxs)))
    (map inject_Z (map cT idxs)).
Proof.
  rewrite map2_map_r. change (fun i => (1 + Z.of_nat i - cT i)%Z) with cF.
  rewrite !map_map. constructor.
  - rewrite !length_map. reflexivity.
  - destruct idxs; [congruence|discriminate].
  - apply Qnondecr_select with (n := length y); try assumption.
    + intros i Hi. change 0 with (inject_Z 0). rewrite <- Zle_Qle.
      apply (cT_bounds i i); lia.
    + intros i j Hij Hj. rewrite <- Zle_Qle. apply (cT_bounds i j Hij Hj).
  - apply Qnondecr_select with (n := length y); try assumption.
    + intros i Hi. change 0 with (inject_Z 0). rewrite <- Zle_Qle.
      apply (cT_bounds i i); lia.
    + intros i j Hij Hj. rewrite <- Zle_Qle. apply (cT_bounds i j Hij Hj).
  - intros k Hk. rewrite length_map in Hk.
    rewrite !(nth_map_in _ _ _ _ 0%nat) by assumption.
    rewrite <- inject_Z_plus. change 0 with (inject_Z 0). rewrite <- Zlt_Qlt.
    unfold cF. lia.
Qed.

Lemma unweighted_totals :
  cT (length y - 1) = sumZ (map Z.b2z y) /\
  cF (length y - 1) = sumZ (map (fun b => Z.b2z (negb b)) y).
Proof.
  assert (Hy : (length y - 1 < length y)%nat).
  { destruct idxs as [|i l]; [congruence|]. inversion Hrange; subst. lia. }
  assert (E : cT (length y - 1) = sumZ (map Z.b2z y)).
  { rewrite cT_prefix by assumption. rewrite firstn_all2; [reflexivity|].
    rewrite length_map. lia. }
  split; [exact E|]. unfold cF. rewrite E.
  pose proof (count_split y). lia.
Qed.

Lemma unweighted_all_true :
  Forall (fun b => b = true) y -> Forall (fun z => z = 0%Z) (map cF idxs).
Proof.
  intro Hy. apply Forall_forall. intros x Hx. apply in_map_iff in Hx.
  destruct Hx as [i [<- Hi]]. rewrite Forall_forall in Hrange.
  specialize (Hrange i Hi). unfold cF. rewrite cT_prefix by assumption.
  rewrite count_all_true by (assumption || lia). lia.
Qed.

Lemma unweighted_all_false :
  Forall (fun b => b = false) y -> Forall (fun z => z = 0%Z) (map cT idxs).
Proof.
  intro Hy. apply Forall_forall. intros x Hx. apply in_map_iff in Hx.
  destruct Hx as [i [<- Hi]]. rewrite Forall_forall in Hrange.
  rewrite cT_prefix by auto. apply count_all_false, Hy.
Qed.

End UnweightedColumn.

(** ** Matrices as lists of columns *)

Lemma take_rows_map (X : Type) (g : X -> list xnum) (L : list X) (idx : list nat) :
  (forall x, In x L -> Forall (fun i => (i < length (g x))%nat) idx) ->
  take_rows (map g L) idx = Ok (map (fun x => map (fun i => nth i (g x) NaN) idx) L).
Proof.
  intro H. unfold take_rows. rewrite map_map.
  replace (forallb _ (map g L)) with true; [reflexivity|].
  symmetry. apply forallb_forall. intros c Hc. apply in_map_iff in Hc.
  destruct Hc as [x [<- Hx]]. apply forallb_ltb. auto.
Qed.

Lemma last_row_map (X : Type) (g : X -> list xnum) (L : list X) :
  (forall x, In x L -> g x <> []) ->
  last_row (map g L) = Ok (map (fun x => last (g x) NaN) L).
Proof.
  intro H. unfold last_row. rewrite map_map.
  replace (forallb _ (map g L)) with true; [reflexivity|].
  symmetry. apply forallb_forall. intros c Hc. apply in_map_iff in Hc.
  destruct Hc as [x [<- Hx]]. apply Nat.ltb_lt.
  specialize (H x Hx). destruct (g x); [congruence|simpl; lia].
Qed.

Lemma forallb2_map (X A B : Type) (f : A -> B -> bool) (a : X -> A) (b : X -> B)
  (L : list X) :
  forallb2 f (map a L) (map b L) = forallb (fun x => f (a x) (b x)) L.
Proof. induction L as [|x L IH]; simpl; [reflexivity|]. rewrite IH. reflexivity. Qed.

Lemma map2_xsub_Fin (a b : list Q) :
  map2 xsub (map Fin a) (map Fin b) = map Fin (map2 (fun c t => c + - t) a b).
Proof.
  revert b. induction a as [|x a IH]; intros [|z b]; try reflexivity.
  simpl. rewrite IH. reflexivity.
Qed.

Lemma last_map_Fin (l : list Q) : l <> [] -> last (map Fin l) NaN = Fin (last l 0).
Proof.
  intro H. induction l as [|x [|z l] IH]; [congruence|reflexivity|].
  change (last (map Fin (x :: z :: l)) NaN) with (last (map Fin (z :: l)) NaN).
  rewrite IH by discriminate. reflexivity.
Qed.

Lemma last_map_idx (A : Type) (g : nat -> A) (idx : list nat) (d : A) (e : nat) :
  idx <> [] -> last (map g idx) d = g (last idx e).
Proof.
  intro H. induction idx as [|x [|z l] IH]; [congruence|reflexivity|].
  change (last (map g (x :: z :: l)) d) with (last (map g (z :: l)) d).
  rewrite IH by discriminate. reflexivity.
Qed.

Lemma isclose_eq (a b : Q) : a == b -> isclose (Fin a) (Fin b) = true.
Proof.
  intro H. unfold isclose. cbn [isfinite andb xsub xneg xadd xabs xmul rtol atol xleb].
  apply Qle_bool_iff. rewrite H.
  setoid_replace (b + - b) with 0 by ring. 
  pose proof (Qabs_nonneg b). change (Qabs 0) with 0.
  assert (0 <= (1 # 100000) * Qabs b) by (apply Qmult_le_0_compat; lra). lra.
Qed.

(** ** Input arrays *)

Lemma shape_eqb_eq (s t : list nat) : shape_eqb s t = true <-> s = t.
Proof.
  revert t. induction s as [|a s IH]; intros [|b t]; simpl; split; intro H;
    try reflexivity; try discriminate.
  - apply andb_true_iff in H. destruct H as [H1 H2].
    apply Nat.eqb_eq in H1. apply IH in H2. congruence.
  - inversion H; subst. rewrite Nat.eqb_refl. apply IH. reflexivity.
Qed.

Lemma values_length (a : ndarray) : length (values a) = buf_length (buf a).
Proof. unfold values. destruct (buf a); simpl; rewrite ?length_map; reflexivity. Qed.

Lemma vector_size (a : ndarray) : ndim a = 1%nat -> shape a = [size a].
Proof.
  unfold ndim, size. destruct (shape a) as [|n [|m s]]; simpl; try discriminate.
  intros _. f_equal. lia.
Qed.

Lemma matrix_size (a : ndarray) :
  ndim a = 2%nat -> shape a = [dim a 0; dim a 1] /\ size a = (dim a 0 * dim a 1)%nat.
Proof.
  unfold ndim, size, dim. destruct (shape a) as [|n [|m [|k s]]]; simpl; try discriminate.
  intros _. split; [reflexivity|lia].
Qed.

Lemma columns_Fin (a : ndarray) (flat : list Q) :
  values a = map Fin flat -> length flat = (dim a 0 * dim a 1)%nat ->
  columns a = map (fun j => map Fin (Qcolumn flat (dim a 0) (dim a 1) j)) (seq 0 (dim a 1)).
Proof.
  intros Hv Hlen. unfold columns. rewrite Hv. apply map_ext_in. intros j Hj.
  apply in_seq in Hj. unfold column, Qcolumn. rewrite map_map.
  apply map_ext_in. intros i Hi. apply in_seq in Hi.
  apply nth_map_Fin. rewrite Hlen. nia.
Qed.

Lemma Qcolumn_length (flat : list Q) (n m j : nat) : length (Qcolumn flat n m j) = n.
Proof. unfold Qcolumn. rewrite length_map, length_seq. reflexivity. Qed.

Lemma Qcolumn_pos (flat : list Q) (n m j : nat) :
  Forall (fun x => 0 < x) flat -> length flat = (n * m)%nat -> (j < m)%nat ->
  Forall (fun x => 0 < x) (Qcolumn flat n m j).
Proof.
  intros Hp Hlen Hj. apply Forall_forall. intros x Hx. unfold Qcolumn in Hx.
  apply in_map_iff in Hx. destruct Hx as [i [<- Hi]]. apply in_seq in Hi.
  rewrite Forall_forall in Hp. apply Hp, nth_In. rewrite Hlen. nia.
Qed.

(** ** The counting stage *)

Section WeightedCounts.
Variables (y : list bool) (desc idxs : list nat) (w : ndarray) (flat : list Q).
Hypothesis Hndim : ndim w = 2%nat.
Hypothesis Hrows : dim w 0 = length y.
Hypothesis Hcols : (1 <= dim w 1)%nat.
Hypothesis Hflat : values w = map Fin flat.
Hypothesis Hflat_len : length flat = (dim w 0 * dim w 1)%nat.
Hypothesis Hpos : Forall (fun x => 0 < x) flat.
Hypothesis Hdesc : Forall (fun i => (i < length y)%nat) desc.
Hypothesis Hdesc_len : length desc = length y.
Hypothesis Hsorted : StronglySorted lt idxs.
Hypothesis Hrange : Forall (fun i => (i < length y)%nat) idxs.
Hypothesis Hne : idxs <> [].
Hypothesis Hlast : last idxs 0%nat = (length y - 1)%nat.

Let W (j : nat) : list Q := sorted_weights flat (dim w 0) (dim w 1) desc j.

Lemma sorted_weights_length (j : nat) : length (W j) = length y.
Proof. unfold W, sorted_weights. rewrite length_map. exact Hdesc_len. Qed.

Lemma sorted_weights_pos (j : nat) : (j < dim w 1)%nat -> Forall (fun x => 0 < x) (W j).
Proof.
  intro Hj. apply Forall_forall. intros x Hx. unfold W, sorted_weights in Hx.
  apply in_map_iff in Hx. destruct Hx as [i [<- Hi]].
  pose proof (Qcolumn_pos flat (dim w 0) (dim w 1) j Hpos Hflat_len Hj) as Hc.
  rewrite Forall_forall in Hc, Hdesc. apply Hc, nth_In.
  rewrite Qcolumn_length, Hrows. auto.
Qed.

Lemma weighted_checks :
  forallb isfinite (values w) = true /\ forallb (xltb x0) (values w) = true.
Proof.
  rewrite Hflat. split; [apply forallb_isfinite_Fin|].
  apply forallb_forall. intros x Hx. apply in_map_iff in Hx.
  destruct Hx as [q [<- Hq]]. rewrite Forall_forall in Hpos.
  apply xltb_Fin. auto.
Qed.

Lemma counts_weighted_ok :
  counts_weighted y desc idxs w =
  Ok (mk_matrix (count_dtype w) (map (fun j => map Fin (Qfps y (W j) idxs)) (seq 0 (dim w 1))),
      mk_matrix (count_dtype w) (map (fun j => map Fin (Qtps y (W j) idxs)) (seq 0 (dim w 1)))).
Proof.
  unfold counts_weighted.
  destruct weighted_checks as [Hfin Hgt].
  rewrite Hndim, Hrows, !Nat.eqb_refl, Hfin, Hgt.
  replace (Nat.leb 1 (dim w 1)) with true by (symmetry; apply Nat.leb_le, Hcols).
  cbn [Nat.eqb assert bind].
  set (L := seq 0 (dim w 1)).
  assert (E1 : take_rows (columns w) desc = Ok (map (fun j => map Fin (W j)) L)).
  { rewrite (columns_Fin w flat Hflat Hflat_len). fold L. rewrite take_rows_map.
    - f_equal. apply map_ext. intro j. unfold W, sorted_weights.
      apply map_nth_Fin. rewrite Qcolumn_length, Hrows. exact Hdesc.
    - intros j _. rewrite length_map, Qcolumn_length, Hrows. exact Hdesc. }
  rewrite E1. cbn [bind]. rewrite !map_map.
  assert (E2 : take_rows
                 (map (fun j => cumsum (map2 (fun b x => xmul (of_bool b) x) y (map Fin (W j)))) L)
                 idxs = Ok (map (fun j => map Fin (Qtps y (W j) idxs)) L)).
  { rewrite take_rows_map.
    - f_equal. apply map_ext. intro j. rewrite weigh_Fin, cumsum_Fin.
      apply map_nth_Fin. rewrite Qcumsum_length, Qweigh_length;
        rewrite sorted_weights_length; [exact Hrange|reflexivity].
    - intros j _. rewrite weigh_Fin, cumsum_Fin, length_map, Qcumsum_length.
      rewrite Qweigh_length; rewrite sorted_weights_length; [exact Hrange|reflexivity]. }
  rewrite E2. cbn [bind].
  assert (E3 : take_rows (map (fun j => cumsum (map Fin (W j))) L) idxs
               = Ok (map (fun j => map Fin (map (fun i => nth i (Qcumsum (W j)) 0) idxs)) L)).
  { rewrite take_rows_map.
    - f_equal. apply map_ext. intro j. rewrite cumsum_Fin.
      apply map_nth_Fin. rewrite Qcumsum_length, sorted_weights_length. exact Hrange.
    - intros j _. rewrite cumsum_Fin, length_map, Qcumsum_length, sorted_weights_length.
      exact Hrange. }
  rewrite E3. cbn [bind]. rewrite map2_map.
  assert (E4 : map (fun j => map2 xsub
                      (map Fin (map (fun i => nth i (Qcumsum (W j)) 0) idxs))
                      (map Fin (Qtps y (W j) idxs))) L
               = map (fun j => map Fin (Qfps y (W j) idxs)) L).
  { apply map_ext. intro j. apply map2_xsub_Fin. }
  rewrite E4.
  assert (Hlen_t : forall j, length (Qtps y (W j) idxs) = length idxs).
  { intro j. unfold Qtps. apply length_map. }
  assert (Hlen_f : forall j, length (Qfps y (W j) idxs) = length idxs).
  { intro j. unfold Qfps. rewrite map2_length; rewrite !length_map; auto. }
  assert (Hidx : (0 < length idxs)%nat) by (destruct idxs; [congruence|simpl; lia]).
  rewrite last_row_map.
  2:{ intros j _ E. apply (f_equal (@length _)) in E.
      rewrite length_map, Hlen_f in E. simpl in E. lia. }
  cbn [bind]. unfold allclose. rewrite ?map_map, !forallb2_map.
  assert (Ht : forall j, In j L ->
             last (Qtps y (W j) idxs) 0 == Qsum (select y (W j)) /\
             last (Qfps y (W j) idxs) 0 == Qsum (select (map negb y) (W j))).
  { intros j Hj. apply in_seq in Hj.
    assert (Hl : length y = length (W j)) by (symmetry; apply sorted_weights_length).
    assert (Hr : Forall (fun i => (i < length (W j))%nat) idxs) by (rewrite <- Hl; exact Hrange).
    destruct (@weighted_totals y (W j) idxs Hl Hsorted Hr Hne) as [T1 T2].
    unfold Qfps, Qtps. rewrite map2_map.
    rewrite !(last_map_idx _ _ _ 0 0%nat Hne), Hlast, Hl. split; assumption. }
  replace (forallb _ L) with true.
  2:{ symmetry. apply forallb_forall. intros j Hj.
      rewrite last_map_Fin, select_Fin, xsum_Fin.
      - apply isclose_eq, (Ht j Hj).
      - intro E. apply (f_equal (@length _)) in E. rewrite Hlen_f in E. simpl in E. lia. }
  cbn [assert bind]. rewrite last_row_map.
  2:{ intros j _ E. apply (f_equal (@length _)) in E.
      rewrite length_map, Hlen_t in E. simpl in E. lia. }
  cbn [bind]. unfold allclose. rewrite ?map_map, !forallb2_map.
  replace (forallb _ L) with true; [reflexivity|].
  symmetry. apply forallb_forall. intros j Hj.
  rewrite last_map_Fin, select_Fin, xsum_Fin.
  - apply isclose_eq, (Ht j Hj).
  - intro E. apply (f_equal (@length _)) in E. rewrite Hlen_t in E. simpl in E. lia.
Qed.

Lemma counts_weighted_pairs :
  Forall2 (raw_pair y (length idxs))
    (map (fun j => map Fin (Qfps y (W j) idxs)) (seq 0 (dim w 1)))
    (map (fun j => map Fin (Qtps y (W j) idxs)) (seq 0 (dim w 1))).
Proof.
  assert (H : forall j, In j (seq 0 (dim w 1)) ->
            raw_pair y (length idxs) (map Fin (Qfps y (W j) idxs)) (map Fin (Qtps y (W j) idxs))).
  { intros j Hj. apply in_seq in Hj.
    assert (Hl : length y = length (W j)) by (symmetry; apply sorted_weights_length).
    assert (Hr : Forall (fun i => (i < length (W j))%nat) idxs) by (rewrite <- Hl; exact Hrange).
    assert (Hp : Forall (fun x => 0 < x) (W j)) by (apply sorted_weights_pos; lia).
    exists (Qfps y (W j) idxs), (Qtps y (W j) idxs).
    split; [reflexivity|]. split; [reflexivity|]. split; [|split; [|split]].
    - apply weighted_column; assumption.
    - unfold Qfps, Qtps. rewrite map2_length; rewrite !length_map; reflexivity.
    - intro Hy. unfold Qfps, Qtps. rewrite map2_map.
      apply (@weighted_all_true y (W j) idxs Hl Hr Hy).
    - intro Hy. apply (@weighted_all_false y (W j) idxs Hl Hr Hy). }
  induction (seq 0 (dim w 1)) as [|j L IH]; simpl; constructor.
  - apply H. left. reflexivity.
  - apply IH. intros j' Hj'. apply H. right. exact Hj'.
Qed.

End WeightedCounts.

Lemma last_elem_ok (A : Type) (l : list A) (d : A) :
  l <> [] -> last_elem l d = Ok (last l d).
Proof. destruct l; [congruence|reflexivity]. Qed.

Lemma map_of_Z (l : list Z) : map of_Z l = map Fin (map inject_Z l).
Proof. rewrite map_map. reflexivity. Qed.

Section UnweightedCounts.
Variables (y : list bool) (idxs : list nat).
Hypothesis Hsorted : StronglySorted lt idxs.
Hypothesis Hrange : Forall (fun i => (i < length y)%nat) idxs.
Hypothesis Hne : idxs <> [].
Hypothesis Hlast : last idxs 0%nat = (length y - 1)%nat.

Lemma counts_unweighted_ok :
  counts_unweighted y idxs =
  Ok (mk_matrix DInt [map of_Z (Zfps y idxs)], mk_matrix DInt [map of_Z (Ztps y idxs)]).
Proof.
  unfold counts_unweighted. rewrite take_ok.
  2:{ rewrite cumsumZ_length, length_map. exact Hrange. }
  cbn [bind]. fold (Ztps y idxs). fold (Zfps y idxs).
  assert (Hf : Zfps y idxs <> []).
  { unfold Zfps, Ztps. rewrite map2_map_r. destruct idxs; [congruence|discriminate]. }
  assert (Ht : Ztps y idxs <> []).
  { unfold Ztps. destruct idxs; [congruence|discriminate]. }
  rewrite !last_elem_ok by assumption. cbn [bind].
  destruct (unweighted_totals y idxs Hsorted Hrange Hne) as [T1 T2].
  replace (last (Zfps y idxs) 0%Z) with (sumZ (map (fun b => Z.b2z (negb b)) y)).
  2:{ unfold Zfps, Ztps. rewrite map2_map_r.
      rewrite (last_map_idx _ _ _ 0%Z 0%nat Hne), Hlast. symmetry. exact T2. }
  replace (last (Ztps y idxs) 0%Z) with (sumZ (map Z.b2z y)).
  2:{ unfold Ztps. rewrite (last_map_idx _ _ _ 0%Z 0%nat Hne), Hlast. symmetry. exact T1. }
  rewrite !Z.eqb_refl. reflexivity.
Qed.

Lemma counts_unweighted_pair :
  raw_pair y (length idxs) (map of_Z (Zfps y idxs)) (map of_Z (Ztps y idxs)).
Proof.
  exists (map inject_Z (Zfps y idxs)), (map inject_Z (Ztps y idxs)).
  split; [apply map_of_Z|]. split; [apply map_of_Z|]. split; [|split; [|split]].
  - apply unweighted_column; assumption.
  - unfold Zfps, Ztps. rewrite length_map, map2_length; rewrite ?length_map; reflexivity.
  - intro Hy. unfold Zfps, Ztps. rewrite map2_map_r.
    pose proof (unweighted_all_true y idxs Hrange Hy) as H.
    apply Forall_forall. intros x Hx. apply in_map_iff in Hx.
    destruct Hx as [z [<- Hz]]. rewrite Forall_forall in H. rewrite (H z Hz). reflexivity.
  - intro Hy. unfold Ztps.
    pose proof (unweighted_all_false y idxs Hrange Hy) as H.
    apply Forall_forall. intros x Hx. apply in_map_iff in Hx.
    destruct Hx as [z [<- Hz]]. rewrite Forall_forall in H. rewrite (H z Hz). reflexivity.
Qed.

End UnweightedCounts.

Lemma preconditions_inv (y_true y_score : ndarray) (sample_weight : option ndarray) :
  wf_inputs y_true y_score sample_weight ->
  preconditions y_true y_score sample_weight = true ->
  exists (l : list bool) (q : list Q),
    buf y_true = BoolBuf l /\ shape y_true = [length l] /\ size y_true = length l /\
    values y_score = map Fin q /\ shape y_score = [length l] /\
    length q = length l /\ (1 <= length l)%nat.
Proof.
  intros [Hy [Hs _]] H. unfold preconditions, labels_ok, scores_ok in H.
  apply andb_true_iff in H. destruct H as [H _].
  apply andb_true_iff in H. destruct H as [Hl Hsc].
  apply andb_true_iff in Hl. destruct Hl as [Hl Hsize].
  apply andb_true_iff in Hl. destruct Hl as [Hdim Hkind].
  apply andb_true_iff in Hsc. destruct Hsc as [Hshape Hfin].
  apply Nat.eqb_eq in Hdim. apply Nat.leb_le in Hsize.
  apply shape_eqb_eq in Hshape. destruct (forallb_isfinite _ Hfin) as [q Hq].
  pose proof (vector_size _ Hdim) as Hvec.
  unfold wf_ndarray in Hy, Hs. unfold kind in Hkind.
  destruct (buf y_true) as [l| |] eqn:Hbuf; try discriminate. simpl in Hy.
  exists l, q. rewrite Hy. repeat split; try assumption; try congruence.
  rewrite <- values_length in Hs. rewrite Hq, length_map in Hs.
  rewrite Hs. unfold size. rewrite Hshape. reflexivity.
Qed.

Lemma raw_pair_labels (y y' : list bool) (k : nat) (cf ct : list xnum) :
  (forall b, In b y' -> In b y) -> raw_pair y' k cf ct -> raw_pair y k cf ct.
Proof.
  intros Hin (f & t & Hf & Ht & Hc & Hk & Htrue & Hfalse).
  exists f, t. do 4 (split; [assumption|]). split.
  - intro Hy. apply Htrue. rewrite Forall_forall in Hy |- *. auto.
  - intro Hy. apply Hfalse. rewrite Forall_forall in Hy |- *. auto.
Qed.

Lemma Forall2_map_cons (P : list xnum -> list xnum -> Prop) (F T : list (list xnum)) :
  Forall2 P F T ->
  Forall2 (with_zero_row P) (map (cons x0) F) (map (cons x0) T).
Proof.
  induction 1 as [|cf ct F T H HF IH]; simpl; constructor; [|exact IH].
  exists cf, ct. auto.
Qed.

Lemma Forall2_impl (A B : Type) (P Q : A -> B -> Prop) (l : list A) (l' : list B) :
  (forall a b, P a b -> Q a b) -> Forall2 P l l' -> Forall2 Q l l'.
Proof. intros H. induction 1; constructor; auto. Qed.

Lemma weights_ok_inv (y_true w : ndarray) :
  wf_ndarray w -> weights_ok y_true w = true ->
  exists flat : list Q,
    ndim w = 2%nat /\ dim w 0 = size y_true /\ (1 <= dim w 1)%nat /\
    values w = map Fin flat /\ length flat = (dim w 0 * dim w 1)%nat /\
    Forall (fun x => 0 < x) flat.
Proof.
  intros Hwf H. unfold weights_ok in H.
  apply andb_true_iff in H. destruct H as [H Hgt].
  apply andb_true_iff in H. destruct H as [H Hfin].
  apply andb_true_iff in H. destruct H as [H Hcols].
  apply andb_true_iff in H. destruct H as [Hdim Hrows].
  apply Nat.eqb_eq in Hdim, Hrows. apply Nat.leb_le in Hcols.
  destruct (forallb_isfinite _ Hfin) as [flat Hflat]. exists flat.
  do 4 (split; [assumption|]). split.
  - unfold wf_ndarray in Hwf. rewrite <- values_length, Hflat, length_map in Hwf.
    rewrite Hwf. apply (matrix_size _ Hdim).
  - rewrite Hflat in Hgt. apply Forall_forall. intros x Hx.
    rewrite forallb_forall in Hgt. apply xltb_Fin, Hgt, in_map, Hx.
Qed.

Lemma distinct_scores_sorted (q : list Q) :
  q <> [] ->
  distinct_scores (map Fin q)
    (Qdedup (map (fun i => nth i q 0) (desc_score_indices (map Fin q)))).
Proof.
  intro Hq. split; [apply Qdedup_decreasing, sorted_scores|]. split.
  - intros x Hx. apply Qdedup_incl in Hx. apply in_map_iff in Hx.
    destruct Hx as [i [<- Hi]]. apply in_map, nth_In.
    pose proof (desc_in_range q) as H. rewrite Forall_forall in H. auto.
  - intros x Hx. apply in_map_iff in Hx. destruct Hx as [x' [E Hx']].
    injection E as ->. apply Qdedup_complete.
    destruct (In_nth _ _ 0 Hx') as [i [Hi <-]].
    apply in_map_iff. exists i. split; [reflexivity|].
    apply (Permutation_in _ (Permutation_sym (desc_perm q))).
    apply in_seq. lia.
Qed.

Theorem raw_counts_ok (y_true y_score : ndarray) (sample_weight : option ndarray) :
  wf_inputs y_true y_score sample_weight ->
  preconditions y_true y_score sample_weight = true ->
  exists F T th,
    raw_counts y_true y_score sample_weight = Ok (F, T, PInf :: map Fin th) /\
    mdtype F = mdtype T /\
    length (cols F) = n_replicates sample_weight /\
    Forall2 (with_zero_row (raw_pair (labels y_true) (length th))) (cols F) (cols T) /\
    distinct_scores (values y_score) th /\
    (exists q, values y_score = map Fin q /\ th = Qthresholds q).
Proof.
  intros Hwf Hpre.
  destruct (preconditions_inv _ _ _ Hwf Hpre)
    as (l & q & Hbuf & Hshy & Hsize & Hval & Hshs & Hlen & Hn).
  assert (Hlab : labels y_true = l) by (unfold labels; rewrite Hbuf; reflexivity).
  assert (Hq : q <> []) by (destruct q; [simpl in Hlen; lia|discriminate]).
  unfold raw_counts.
  replace (Nat.eqb (ndim y_true) 1 && dtype_eqb (kind y_true) DBool) with true
    by (unfold ndim, kind; rewrite Hshy, Hbuf; reflexivity).
  replace (shape_eqb (shape y_score) (shape y_true) && forallb isfinite (values y_score))
    with true
    by (rewrite Hshs, Hshy, Hval, forallb_isfinite_Fin; simpl;
        rewrite Nat.eqb_refl; reflexivity).
  replace (Nat.leb 1 (size y_true)) with true
    by (symmetry; apply Nat.leb_le; lia).
  cbn [assert bind]. rewrite Hval, Hlab.
  set (desc := desc_score_indices (map Fin q)).
  set (sq := map (fun i => nth i q 0) desc).
  set (y := map (fun i => nth i l false) desc).
  assert (Hdesc : Forall (fun i => (i < length q)%nat) desc) by apply desc_in_range.
  assert (Hdesc_len : length desc = length q) by apply desc_length.
  rewrite take_ok by (rewrite length_map; exact Hdesc).
  rewrite (map_nth_Fin q desc Hdesc). fold sq. cbn [bind].
  rewrite take_ok by (rewrite <- Hlen; exact Hdesc). fold y. cbn [bind].
  assert (Hy_len : length y = length (map Fin sq)).
  { unfold y, sq. rewrite !length_map. reflexivity. }
  assert (Hsq_len : length (map Fin sq) = length q).
  { unfold sq. rewrite !length_map. exact Hdesc_len. }
  assert (Hsq : sq <> []).
  { intro E. rewrite E in Hsq_len. simpl in Hsq_len. lia. }
  rewrite Hy_len.
  set (idxs := threshold_idxs (map Fin sq) (length (map Fin sq))).
  assert (Hsorted : StronglySorted lt idxs) by apply threshold_idxs_sorted.
  assert (Hrange : Forall (fun i => (i < length y)%nat) idxs).
  { rewrite Hy_len. apply threshold_idxs_in_range.
    destruct sq; [congruence|discriminate]. }
  assert (Hne : idxs <> []) by apply threshold_idxs_nonempty.
  assert (Hlast : last idxs 0%nat = (length y - 1)%nat).
  { rewrite Hy_len. apply threshold_idxs_last. }
  assert (Hth : take (map Fin sq) idxs NaN = Ok (map Fin (Qdedup sq))).
  { rewrite take_ok by (rewrite <- Hy_len; exact Hrange).
    rewrite map_nth_Fin by (rewrite <- (length_map Fin), <- Hy_len; exact Hrange).
    unfold idxs. rewrite length_map, (thresholds_dedup sq Hsq). reflexivity. }
  assert (Hlen_th : length idxs = length (Qdedup sq)).
  { rewrite <- (thresholds_dedup sq Hsq), length_map. unfold idxs.
    rewrite length_map. reflexivity. }
  assert (Hin : forall b, In b y -> In b l).
  { intros b Hb. unfold y in Hb. apply in_map_iff in Hb.
    destruct Hb as [i [<- Hi]]. apply nth_In. rewrite <- Hlen.
    rewrite Forall_forall in Hdesc. auto. }
  destruct sample_weight as [w|].
  - destruct Hwf as (_ & _ & Hw). unfold preconditions in Hpre.
    apply andb_true_iff in Hpre. destruct Hpre as [_ Hpre].
    destruct (weights_ok_inv _ _ Hw Hpre)
      as (flat & Hndim & Hrows & Hcols & Hflat & Hflat_len & Hpos).
    assert (Hrows' : dim w 0 = length y).
    { rewrite Hrows, Hsize, Hy_len, Hsq_len. symmetry. exact Hlen. }
    assert (Hdesc' : Forall (fun i => (i < length y)%nat) desc).
    { rewrite Hy_len, Hsq_len. exact Hdesc. }
    assert (Hdesc_len' : length desc = length y).
    { rewrite Hy_len, Hsq_len. exact Hdesc_len. }
    rewrite (@counts_weighted_ok y desc idxs w flat Hndim Hrows' Hcols Hflat
               Hflat_len Hpos Hdesc' Hdesc_len' Hsorted Hrange Hne Hlast).
    cbn [bind mdtype cols]. rewrite Hth. cbn [bind].
    eexists _, _, _. split; [reflexivity|]. cbn [mdtype cols n_replicates].
    split; [reflexivity|]. split; [rewrite !length_map, length_seq; reflexivity|].
    split; [|split; [apply distinct_scores_sorted, Hq|exists q; split; reflexivity]].
    apply Forall2_map_cons. rewrite <- Hlen_th.
    eapply Forall2_impl;
      [|apply (@counts_weighted_pairs y desc idxs w flat Hndim Hrows' Hcols
                 Hflat_len Hpos Hdesc' Hdesc_len' Hsorted Hrange Hne Hlast)].
    intros cf ct. apply raw_pair_labels, Hin.
  - rewrite (@counts_unweighted_ok y idxs Hsorted Hrange Hne Hlast).
    cbn [bind mdtype cols]. rewrite Hth. cbn [bind].
    eexists _, _, _. split; [reflexivity|]. cbn [mdtype cols n_replicates].
    split; [reflexivity|]. split; [reflexivity|].
    split; [|split; [apply distinct_scores_sorted, Hq|exists q; split; reflexivity]].
    cbn [map]. constructor; [|constructor]. rewrite <- Hlen_th.
    exists (map of_Z (Zfps y idxs)), (map of_Z (Ztps y idxs)).
    split; [reflexivity|]. split; [reflexivity|].
    apply raw_pair_labels with (y' := y); [exact Hin|].
    apply counts_unweighted_pair; assumption.
Qed.

(** ** Non-decreasing lists *)

Lemma Qnondecr_tail (a : Q) (l : list Q) : Qnondecr (a :: l) -> Qnondecr l.
Proof. destruct l; simpl; tauto. Qed.

Lemma Qnondecr_nth (l : list Q) (i j : nat) :
  Qnondecr l -> (i <= j)%nat -> (j < length l)%nat -> nth i l 0 <= nth j l 0.
Proof.
  revert i j. induction l as [|a l IH]; intros i j H Hij Hj; simpl in Hj; [lia|].
  destruct j as [|j].
  - assert (i = 0%nat) by lia. subst. lra.
  - destruct i as [|i].
    + apply Qle_trans with (nth 0 l 0).
      * destruct l as [|b l]; [simpl in Hj; lia|]. simpl. apply H.
      * apply IH; [exact (Qnondecr_tail _ _ H)|lia|lia].
    + simpl. apply IH; [exact (Qnondecr_tail _ _ H)|lia|lia].
Qed.

Lemma last_nth (l : list Q) : last l 0 = nth (length l - 1) l 0.
Proof.
  induction l as [|a [|b l] IH]; try reflexivity.
  change (last (a :: b :: l) 0) with (last (b :: l) 0). rewrite IH.
  simpl. rewrite Nat.sub_0_r. reflexivity.
Qed.

Lemma hd_nth (l : list Q) : hd 0 l = nth 0 l 0.
Proof. destruct l; reflexivity. Qed.

Lemma Qnondecr_bounds (l : list Q) (k : nat) :
  Qnondecr l -> (k < length l)%nat -> hd 0 l <= nth k l 0 /\ nth k l 0 <= last l 0.
Proof.
  intros H Hk. rewrite hd_nth, last_nth. split; apply Qnondecr_nth; auto; lia.
Qed.

Lemma Qnondecr_scale (c : Q) (l : list Q) :
  0 <= c -> Qnondecr l -> Qnondecr (map (Qmult c) l).
Proof.
  intro Hc. induction l as [|a [|b l] IH]; intro H; try exact I.
  destruct H as [Hab H]. split; [|apply IH, H].
  rewrite (Qmult_comm c a), (Qmult_comm c b). apply Qmult_le_compat_r; assumption.
Qed.

Lemma Qeps_pos : 0 < Qeps.
Proof. reflexivity. Qed.

Lemma scale_Fin (l : list Q) : map (xmul EPSILON) (map Fin l) = map Fin (map (Qmult Qeps) l).
Proof. rewrite !map_map. reflexivity. Qed.

Lemma nth_scale (l : list Q) (k : nat) : nth k (map (Qmult Qeps) l) 0 == Qeps * nth k l 0.
Proof.
  revert k. induction l as [|a l IH]; intros [|k]; simpl; try lra. apply IH.
Qed.

Lemma last_scale (l : list Q) : last (map (Qmult Qeps) l) 0 == Qeps * last l 0.
Proof. rewrite !last_nth, length_map. apply nth_scale. Qed.

(** ** The pseudo-point corrector on one column *)

Lemma fix_fps_Fin (f t : list Q) :
  f <> [] -> fix_fps (map Fin f) (map Fin t) = map Fin (Qfix_fps f t).
Proof.
  intro Hf. unfold fix_fps, Qfix_fps. rewrite last_map_Fin by assumption.
  cbn [xeqb x0]. destruct (Qeq_bool (last f 0) 0); [apply scale_Fin|reflexivity].
Qed.

Lemma fix_tps_Fin (f t : list Q) :
  f <> [] -> t <> [] -> fix_tps (map Fin f) (map Fin t) = map Fin (Qfix_tps f t).
Proof.
  intros Hf Ht. unfold fix_tps, Qfix_tps. rewrite last_map_Fin by assumption.
  cbn [xeqb x0]. rewrite fix_fps_Fin by assumption.
  destruct (Qeq_bool (last t 0) 0); [apply scale_Fin|reflexivity].
Qed.

Section Corrector.
Variables f t : list Q.
Hypothesis Hraw : raw_column f t.

Let F : list Q := 0 :: f.
Let T : list Q := 0 :: t.

Lemma zero_row_length : length F = length T /\ (2 <= length F)%nat.
Proof.
  destruct Hraw as [Hlen Hne _ _ _]. unfold F, T. simpl. split; [lia|].
  destruct f; [congruence|simpl; lia].
Qed.

Lemma zero_row_pos (k : nat) : (1 <= k < length F)%nat -> 0 < nth k F 0 + nth k T 0.
Proof.
  intros [H1 H2]. destruct k as [|k]; [lia|]. unfold F, T in *. simpl in *.
  apply (rc_pos Hraw). lia.
Qed.

Lemma zero_row_bounds (k : nat) :
  (k < length F)%nat ->
  0 <= nth k F 0 <= last F 0 /\ 0 <= nth k T 0 <= last T 0.
Proof.
  intro Hk. destruct zero_row_length as [Hlen _].
  pose proof (Qnondecr_bounds F k (rc_fmono Hraw) Hk) as HF.
  pose proof (Qnondecr_bounds T k (rc_tmono Hraw) ltac:(lia)) as HT.
  unfold F, T in *. simpl hd in *. tauto.
Qed.

Lemma zero_row_last_pos : 0 < last F 0 + last T 0.
Proof.
  destruct zero_row_length as [Hlen Hrows].
  rewrite !last_nth, <- Hlen. apply zero_row_pos. lia.
Qed.

Lemma Qfix_curve : curve_column (Qfix_fps F T) (Qfix_tps F T).
Proof.
  destruct zero_row_length as [Hlen Hrows].
  pose proof zero_row_last_pos as Hlast.
  assert (HlF : 0 <= last F 0).
  { rewrite last_nth. apply (zero_row_bounds (length F - 1)). lia. }
  assert (HlT : 0 <= last T 0).
  { rewrite last_nth. rewrite <- Hlen. apply (zero_row_bounds (length F - 1)). lia. }
  unfold Qfix_tps, Qfix_fps.
  destruct (Qeq_bool (last F 0) 0) eqn:EF.
  - apply Qeq_bool_iff in EF.
    assert (ET : Qeq_bool (last T 0) 0 = false) by (apply Qeq_bool_false; lra).
    rewrite ET. constructor.
    + rewrite length_map. reflexivity.
    + rewrite length_map, <- Hlen. exact Hrows.
    + unfold T. simpl. lra.
    + reflexivity.
    + apply Qnondecr_scale; [pose proof Qeps_pos; lra|apply (rc_tmono Hraw)].
    + apply (rc_tmono Hraw).
    + rewrite last_scale. pose proof Qeps_pos. nra.
    + lra.
    + intros k Hk. rewrite length_map, <- Hlen in Hk. rewrite nth_scale.
      pose proof (zero_row_pos k Hk). pose proof (zero_row_bounds k ltac:(lia)).
      pose proof Qeps_pos. nra.
  - apply Qeq_bool_false in EF.
    destruct (Qeq_bool (last T 0) 0) eqn:ET.
    + apply Qeq_bool_iff in ET. constructor.
      * rewrite length_map. reflexivity.
      * exact Hrows.
      * reflexivity.
      * unfold F. simpl. lra.
      * apply (rc_fmono Hraw).
      * apply Qnondecr_scale; [pose proof Qeps_pos; lra|apply (rc_fmono Hraw)].
      * lra.
      * rewrite last_scale. pose proof Qeps_pos. nra.
      * intros k Hk. rewrite nth_scale.
        pose proof (zero_row_pos k Hk). pose proof (zero_row_bounds k ltac:(lia)).
        pose proof Qeps_pos. nra.
    + apply Qeq_bool_false in ET. constructor; try assumption; try reflexivity.
      * apply (rc_fmono Hraw).
      * apply (rc_tmono Hraw).
      * lra.
      * lra.
      * apply zero_row_pos.
Qed.

Lemma all_zero_last (l : list Q) : Forall (fun x => x == 0) l -> last (0 :: l) 0 == 0.
Proof.
  intro H. assert (H' : Forall (fun x => x == 0) (0 :: l)) by (constructor; [reflexivity|exact H]).
  clear H. induction H' as [|a [|b l'] Ha Hl IH]; [reflexivity|exact Ha|].
  change (last (a :: b :: l') 0) with (last (b :: l') 0). apply IH.
Qed.

Lemma Qfix_all_true :
  Forall (fun x => x == 0) f -> Qfix_fps F T = map (Qmult Qeps) (Qfix_tps F T).
Proof.
  intro H. pose proof (all_zero_last _ H) as EF. fold F in EF.
  pose proof zero_row_last_pos as Hlast.
  unfold Qfix_tps, Qfix_fps.
  assert (E1 : Qeq_bool (last F 0) 0 = true) by (apply Qeq_bool_iff; exact EF).
  assert (E2 : Qeq_bool (last T 0) 0 = false) by (apply Qeq_bool_false; lra).
  rewrite E1, E2. reflexivity.
Qed.

Lemma Qfix_all_false :
  Forall (fun x => x == 0) t -> Qfix_tps F T = map (Qmult Qeps) (Qfix_fps F T).
Proof.
  intro H. pose proof (all_zero_last _ H) as ET. fold T in ET.
  pose proof zero_row_last_pos as Hlast.
  unfold Qfix_tps, Qfix_fps.
  assert (E1 : Qeq_bool (last F 0) 0 = false) by (apply Qeq_bool_false; lra).
  assert (E2 : Qeq_bool (last T 0) 0 = true) by (apply Qeq_bool_iff; exact ET).
  rewrite E1, E2. reflexivity.
Qed.

End Corrector.

(** ** The pseudo-point corrector on matrices *)

Lemma last_row_ok (M : list (list xnum)) :
  Forall (fun c => c <> []) M -> last_row M = Ok (map (fun c => last c NaN) M).
Proof.
  intro H. unfold last_row.
  replace (forallb _ M) with true; [reflexivity|].
  symmetry. apply forallb_forall. intros c Hc. rewrite Forall_forall in H.
  specialize (H c Hc). apply Nat.ltb_lt. destruct c; [congruence|simpl; lia].
Qed.

Lemma assign_fps (F T : list (list xnum)) :
  length F = length T ->
  assign_columns (map (fun x => xeqb x x0) (map (fun c => last c NaN) F)) F (scale T)
  = map2 fix_fps F T.
Proof.
  revert T. induction F as [|cf F IH]; intros [|ct T] Hlen; simpl in Hlen;
    try discriminate; [reflexivity|].
  cbn [map scale assign_columns map2]. fold (scale T). rewrite IH by lia.
  reflexivity.
Qed.

Lemma assign_tps (F T : list (list xnum)) :
  length F = length T ->
  assign_columns (map (fun x => xeqb x x0) (map (fun c => last c NaN) T)) T
    (scale (map2 fix_fps F T))
  = map2 fix_tps F T.
Proof.
  revert T. induction F as [|cf F IH]; intros [|ct T] Hlen; simpl in Hlen;
    try discriminate; [reflexivity|].
  cbn [map scale assign_columns map2]. fold (scale (map2 fix_fps F T)).
  rewrite IH by lia. reflexivity.
Qed.

Lemma no_fix (F T : list (list xnum)) :
  length F = length T ->
  existsb (fun b => b) (map (fun x => xeqb x x0) (map (fun c => last c NaN) F)) = false ->
  existsb (fun b => b) (map (fun x => xeqb x x0) (map (fun c => last c NaN) T)) = false ->
  map2 fix_fps F T = F /\ map2 fix_tps F T = T.
Proof.
  revert T. induction F as [|cf F IH]; intros [|ct T] Hlen HF HT; simpl in Hlen;
    try discriminate; [split; reflexivity|].
  cbn [map existsb] in HF, HT.
  apply orb_false_iff in HF, HT. destruct HF as [HF1 HF2]. destruct HT as [HT1 HT2].
  destruct (IH T ltac:(lia) HF2 HT2) as [E1 E2].
  cbn [map2]. rewrite E1, E2. unfold fix_tps, fix_fps. rewrite HF1, HT1.
  split; reflexivity.
Qed.

Lemma add_pseudo_points_cols (fps tps : matrix) :
  Forall (fun c => c <> []) (cols fps) -> Forall (fun c => c <> []) (cols tps) ->
  length (cols fps) = length (cols tps) -> mdtype fps = mdtype tps ->
  exists dt,
    add_pseudo_points fps tps =
    Ok (mk_matrix dt (map2 fix_fps (cols fps) (cols tps)),
        mk_matrix dt (map2 fix_tps (cols fps) (cols tps))).
Proof.
  intros HF HT Hlen Hdt. unfold add_pseudo_points.
  rewrite !last_row_ok by assumption. cbn [bind].
  destruct (existsb _ _ || existsb _ _) eqn:E.
  - exists DFloat. rewrite (assign_fps _ _ Hlen), (assign_tps _ _ Hlen). reflexivity.
  - apply orb_false_iff in E. destruct E as [E1 E2].
    destruct (no_fix _ _ Hlen E1 E2) as [-> ->].
    exists (mdtype fps). destruct fps, tps. simpl in *. subst. reflexivity.
Qed.

(** ** The engine *)

Lemma Qfix_fps_length (f t : list Q) :
  length f = length t -> length (Qfix_fps f t) = length f.
Proof.
  intro H. unfold Qfix_fps. destruct (Qeq_bool _ _); [rewrite length_map; lia|reflexivity].
Qed.

Lemma pair_fix (y : list bool) (k : nat) (cf ct : list xnum) :
  with_zero_row (raw_pair y k) cf ct ->
  curve_pair y (S k) (fix_fps cf ct) (fix_tps cf ct).
Proof.
  intros (cf' & ct' & -> & -> & f & t & -> & -> & Hraw & Hk & Htrue & Hfalse).
  change (x0 :: map Fin f) with (map Fin (0 :: f)).
  change (x0 :: map Fin t) with (map Fin (0 :: t)).
  rewrite fix_fps_Fin, fix_tps_Fin by discriminate.
  exists (Qfix_fps (0 :: f) (0 :: t)), (Qfix_tps (0 :: f) (0 :: t)).
  split; [reflexivity|]. split; [reflexivity|].
  split; [apply Qfix_curve, Hraw|]. split; [|split].
  - rewrite Qfix_fps_length; simpl; [lia|]. rewrite (rc_length Hraw). reflexivity.
  - intro Hy. apply Qfix_all_true; auto.
  - intro Hy. apply Qfix_all_false; auto.
Qed.

Lemma Forall2_map2 (P Q : list xnum -> list xnum -> Prop)
  (g h : list xnum -> list xnum -> list xnum) (F T : list (list xnum)) :
  (forall cf ct, P cf ct -> Q (g cf ct) (h cf ct)) ->
  Forall2 P F T -> Forall2 Q (map2 g F T) (map2 h F T).
Proof. intro H. induction 1; simpl; constructor; auto. Qed.

Lemma Forall2_length (A B : Type) (P : A -> B -> Prop) (l : list A) (l' : list B) :
  Forall2 P l l' -> length l = length l'.
Proof. induction 1; simpl; auto. Qed.



Lemma accumulate_from_Fin (m : Q) (l : list Q) :
  Qnondecr (m :: l) -> accumulate_from (Fin m) (map Fin l) = map Fin l.
Proof.
  revert m. induction l as [|a l IH]; intros m H; [reflexivity|].
  destruct H as [Hma H]. cbn [map accumulate_from xmax xleb].
  apply Qle_bool_iff in Hma. rewrite Hma. rewrite IH by exact H. reflexivity.
Qed.

Lemma maximum_accumulate_Fin (l : list Q) :
  Qnondecr l -> maximum_accumulate (map Fin l) = map Fin l.
Proof.
  destruct l as [|a l]; intro H; [reflexivity|].
  cbn [map maximum_accumulate]. rewrite accumulate_from_Fin by exact H. reflexivity.
Qed.

Lemma diff_nonneg_Fin (l : list Q) :
  Qnondecr l -> forallb (xleb x0) (diff (map Fin l)) = true.
Proof.
  induction l as [|a [|b l] IH]; intro H; try reflexivity.
  destruct H as [Hab H].
  change (diff (map Fin (a :: b :: l))) with (Fin (b + - a) :: diff (map Fin (b :: l))).
  cbn [forallb]. rewrite (IH H), andb_true_r. apply xleb_Fin. lra.
Qed.

Lemma curve_pair_checks (y : list bool) (k : nat) (F T : list (list xnum)) :
  Forall2 (curve_pair y k) F T ->
  Forall (fun c => c <> []) F /\ Forall (fun c => c <> []) T /\
  all_positive (map (fun c => last c NaN) F) = true /\
  all_positive (map (fun c => last c NaN) T) = true /\
  map maximum_accumulate F = F /\
  nondecreasing F = true /\ nondecreasing T = true.
Proof.
  induction 1 as [|cf ct F T H HFT IH].
  - repeat split; constructor.
  - destruct IH as (I1 & I2 & I3 & I4 & I5 & I6 & I7).
    destruct H as (f & t & -> & -> & Hc & Hk & _ & _).
    assert (Hf : f <> []).
    { pose proof (cc_rows Hc). destruct f; [simpl in *; lia|discriminate]. }
    assert (Ht : t <> []).
    { pose proof (cc_rows Hc). pose proof (cc_length Hc).
      destruct t; [simpl in *; lia|discriminate]. }
    split; [constructor; [destruct f; [congruence|discriminate]|exact I1]|].
    split; [constructor; [destruct t; [congruence|discriminate]|exact I2]|].
    unfold all_positive, nondecreasing in *. cbn [map forallb].
    rewrite !last_map_Fin by assumption.
    rewrite I3, I4, I5, I6, I7, !andb_true_r.
    rewrite (maximum_accumulate_Fin _ (cc_fmono Hc)).
    rewrite (diff_nonneg_Fin _ (cc_fmono Hc)), (diff_nonneg_Fin _ (cc_tmono Hc)).
    repeat split; try reflexivity.
    + apply xltb_Fin, (cc_flast Hc).
    + apply xltb_Fin, (cc_tlast Hc).
Qed.

Lemma with_zero_row_nonempty (P : list xnum -> list xnum -> Prop) (F T : list (list xnum)) :
  Forall2 (with_zero_row P) F T ->
  Forall (fun c => c <> []) F /\ Forall (fun c => c <> []) T.
Proof.
  induction 1 as [|cf ct F T H HFT IH]; [split; constructor|].
  destruct IH as [I1 I2]. destruct H as (cf' & ct' & -> & -> & _).
  split; constructor; try assumption; discriminate.
Qed.

(** The stages of the engine on valid input: the counting stage returns
    column pairs that start with the zero row, the corrector maps
    [fix_fps] and [fix_tps] over them, and the remaining checks pass. *)
Theorem engine_pipeline (y_true y_score : ndarray) (sample_weight : option ndarray) :
  wf_inputs y_true y_score sample_weight ->
  preconditions y_true y_score sample_weight = true ->
  exists F0 T0 dt th,
    let F := mk_matrix dt (map2 fix_fps (cols F0) (cols T0)) in
    let T := mk_matrix dt (map2 fix_tps (cols F0) (cols T0)) in
    raw_counts y_true y_score sample_weight = Ok (F0, T0, PInf :: map Fin th) /\
    add_pseudo_points F0 T0 = Ok (F, T) /\
    _binary_clf_curve y_true y_score sample_weight = Ok (F, T, PInf :: map Fin th) /\
    length (cols F0) = n_replicates sample_weight /\
    Forall2 (with_zero_row (raw_pair (labels y_true) (length th))) (cols F0) (cols T0) /\
    distinct_scores (values y_score) th /\
    (exists q, values y_score = map Fin q /\ th = Qthresholds q).
Proof.
  intros Hwf Hpre.
  destruct (raw_counts_ok _ _ _ Hwf Hpre)
    as (F0 & T0 & th & Hraw & Hdt & Hn & Hpairs & Hth & Hq).
  destruct (with_zero_row_nonempty _ _ _ Hpairs) as [HF HT].
  pose proof (Forall2_length _ _ _ _ _ Hpairs) as Hlen.
  destruct (add_pseudo_points_cols F0 T0 HF HT Hlen Hdt) as [dt Hfix].
  pose proof (Forall2_map2 _ _ fix_fps fix_tps _ _ (pair_fix (labels y_true) (length th)) Hpairs)
    as Hcurve.
  destruct (curve_pair_checks _ _ _ _ Hcurve) as (C1 & C2 & C3 & C4 & C5 & C6 & C7).
  exists F0, T0, dt, th. cbn zeta.
  split; [exact Hraw|]. split; [exact Hfix|]. split; [|auto].
  unfold _binary_clf_curve. rewrite Hraw. cbn [bind]. rewrite Hfix. cbn [bind cols mdtype].
  rewrite !last_row_ok by assumption. cbn [bind]. rewrite C3, C4, C5, C6, C7.
  replace (dtype_eqb dt dt) with true by (destruct dt; reflexivity).
  reflexivity.
Qed.

(** The engine on valid input: it returns, and every column pair of its
    output is a [curve_pair]. *)
Theorem binary_clf_curve_ok (y_true y_score : ndarray) (sample_weight : option ndarray) :
  wf_inputs y_true y_score sample_weight ->
  preconditions y_true y_score sample_weight = true ->
  exists F T th,
    _binary_clf_curve y_true y_score sample_weight = Ok (F, T, PInf :: map Fin th) /\
    mdtype F = mdtype T /\
    length (cols F) = n_replicates sample_weight /\
    length (cols T) = n_replicates sample_weight /\
    Forall2 (curve_pair (labels y_true) (S (length th))) (cols F) (cols T) /\
    distinct_scores (values y_score) th.
Proof.
  intros Hwf Hpre.
  destruct (engine_pipeline _ _ _ Hwf Hpre)
    as (F0 & T0 & dt & th & Hraw & Hfix & Heng & Hn & Hpairs & Hth & _).
  pose proof (Forall2_map2 _ _ fix_fps fix_tps _ _ (pair_fix (labels y_true) (length th)) Hpairs)
    as Hcurve.
  pose proof (Forall2_length _ _ _ _ _ Hpairs) as Hlen.
  pose proof (Forall2_length _ _ _ _ _ Hcurve) as Hlen'.
  eexists _, _, th. split; [exact Heng|]. cbn [mdtype cols].
  split; [reflexivity|].
  assert (HlenF : length (map2 fix_fps (cols F0) (cols T0)) = length (cols F0)).
  { apply map2_length, Hlen. }
  split; [congruence|]. split; [congruence|]. split; assumption.
Qed.

(** ** Claims about the engine *)





Lemma StronglySorted_nth (R : Q -> Q -> Prop) (l : list Q) (i j : nat) :
  StronglySorted R l -> (i < j)%nat -> (j < length l)%nat ->
  R (nth i l 0) (nth j l 0).
Proof.
  intro H. revert i j. induction H as [|a l Hs IH Ha]; intros i j Hij Hj;
    simpl in Hj; [lia|].
  destruct j as [|j]; [lia|]. destruct i as [|i].
  - simpl. rewrite Forall_forall in Ha. apply Ha, nth_In. lia.
  - simpl. apply IH; lia.
Qed.


Lemma map_Fin_inj (q q' : list Q) : map Fin q = map Fin q' -> q = q'.
Proof.
  revert q'. induction q as [|a q IH]; intros [|b q'] H; simpl in H;
    try discriminate; [reflexivity|].
  injection H as -> H. f_equal. apply IH, H.
Qed.

Lemma preconditions_None (y_true y_score : ndarray) (sample_weight : option ndarray) :
  wf_inputs y_true y_score sample_weight ->
  preconditions y_true y_score sample_weight = true ->
  wf_inputs y_true y_score None /\ preconditions y_true y_score None = true.
Proof.
  intros (Hy & Hs & _) H. split; [repeat split; assumption|].
  unfold preconditions in *. apply andb_true_iff in H. destruct H as [H _].
  rewrite H. reflexivity.
Qed.










(** ** Rejected inputs *)





Lemma counts_weighted_rejects (y_true w : ndarray) (y : list bool) (desc idxs : list nat) :
  length y = size y_true -> weights_ok y_true w = false ->
  counts_weighted y desc idxs w = Raise AssertionError.
Proof.
  intros Hlen H. unfold weights_ok in H. rewrite <- Hlen in H.
  unfold counts_weighted.
  destruct (Nat.eqb (ndim w) 2); [|reflexivity].
  destruct (Nat.eqb (dim w 0) (length y)); [|reflexivity].
  destruct (Nat.leb 1 (dim w 1)); [|reflexivity].
  destruct (forallb isfinite (values w)); [|reflexivity].
  destruct (forallb (xltb x0) (values w)); [discriminate|reflexivity].
Qed.

Lemma raw_counts_rejects_weights (y_true y_score w : ndarray) :
  wf_inputs y_true y_score (Some w) ->
  preconditions y_true y_score None = true ->
  weights_ok y_true w = false ->
  raw_counts y_true y_score (Some w) = Raise AssertionError.
Proof.
  intros Hwf Hpre Hbad.
  assert (Hwf' : wf_inputs y_true y_score None).
  { destruct Hwf as (? & ? & _). repeat split; assumption. }
  destruct (preconditions_inv _ _ _ Hwf' Hpre)
    as (l & q & Hbuf & Hshy & Hsize & Hval & Hshs & Hlen & Hn).
  assert (Hlab : labels y_true = l) by (unfold labels; rewrite Hbuf; reflexivity).
  unfold raw_counts.
  replace (Nat.eqb (ndim y_true) 1 && dtype_eqb (kind y_true) DBool) with true
    by (unfold ndim, kind; rewrite Hshy, Hbuf; reflexivity).
  replace (shape_eqb (shape y_score) (shape y_true) && forallb isfinite (values y_score))
    with true
    by (rewrite Hshs, Hshy, Hval, forallb_isfinite_Fin; simpl;
        rewrite Nat.eqb_refl; reflexivity).
  replace (Nat.leb 1 (size y_true)) with true
    by (symmetry; apply Nat.leb_le; lia).
  cbn [assert bind]. rewrite Hval, Hlab.
  pose proof (desc_in_range q) as Hdesc.
  rewrite take_ok by (rewrite length_map; exact Hdesc). cbn [bind].
  rewrite take_ok by (rewrite <- Hlen; exact Hdesc). cbn [bind].
  rewrite (counts_weighted_rejects y_true w); [reflexivity| |exact Hbad].
  rewrite length_map, desc_length. congruence.
Qed.

Lemma raw_counts_rejects (y_true y_score : ndarray) (sample_weight : option ndarray) :
  wf_inputs y_true y_score sample_weight ->
  preconditions y_true y_score sample_weight = false ->
  raw_counts y_true y_score sample_weight = Raise AssertionError.
Proof.
  intros Hwf Hpre.
  destruct (preconditions y_true y_score None) eqn:Hnone.
  - destruct sample_weight as [w|]; [|congruence].
    apply raw_counts_rejects_weights; try assumption.
    unfold preconditions in *. apply andb_true_iff in Hnone. destruct Hnone as [H _].
    rewrite H in Hpre. exact Hpre.
  - clear Hpre Hwf. unfold preconditions, labels_ok, scores_ok in Hnone.
    rewrite andb_true_r in Hnone. unfold raw_counts.
    destruct (Nat.eqb (ndim y_true) 1 && dtype_eqb (kind y_true) DBool); [|reflexivity].
    destruct (shape_eqb (shape y_score) (shape y_true) && forallb isfinite (values y_score));
      [|reflexivity].
    destruct (Nat.leb 1 (size y_true)); [discriminate|reflexivity].
Qed.



(** ** The ROC curve *)

Lemma curve_column_nonempty (f t : list Q) :
  curve_column f t -> f <> [] /\ t <> [].
Proof.
  intro Hc. pose proof (cc_rows Hc). pose proof (cc_length Hc).
  split; [destruct f|destruct t]; simpl in *; try discriminate; lia.
Qed.







(** ** The precision-recall curve *)







Section PrecisionColumn.
Variables f t : list Q.
Hypothesis Hc : curve_column f t.

Let p : list xnum := map2 (fun a b => xdiv a (xadd a b)) (map Fin t) (map Fin f).





End PrecisionColumn.






(** ** The precision-recall-gain curve *)







Section Gains.
Variables n_neg n_pos : Q.
Hypothesis Hneg : 0 < n_neg.
Hypothesis Hpos : 0 < n_pos.










End Gains.








Lemma existsb_false (A : Type) (f : A -> bool) (l : list A) :
  (forall x, In x l -> f x = false) -> existsb f l = false.
Proof.
  induction l as [|a l IH]; intro H; [reflexivity|]. cbn [existsb].
  rewrite (H a (or_introl eq_refl)), IH; [reflexivity|].
  intros x Hx. apply H. right. exact Hx.
Qed.






(** ** The second row *)




(** ** The left Riemann sum *)

Lemma isnan_true (v : xnum) : isnan v = true <-> v = NaN.
Proof. destruct v; simpl; split; intro; congruence. Qed.

Lemma existsb_isnan (M : list (list xnum)) :
  existsb (existsb isnan) M = true <-> contains_nan M.
Proof.
  unfold contains_nan. rewrite existsb_exists. split.
  - intros [c [Hc H]]. apply existsb_exists in H. destruct H as [v [Hv Hn]].
    apply isnan_true in Hn. subst. exists c. auto.
  - intros [c [Hc Hn]]. exists c. split; [exact Hc|].
    apply existsb_exists. exists NaN. auto.
Qed.

Lemma products_by_index (x y : list xnum) :
  length x = length y ->
  map2 xmul (removelast y) (diff x)
  = map (fun i => xmul (nth i y NaN) (xsub (nth (S i) x NaN) (nth i x NaN)))
      (seq 0 (length x - 1)).
Proof.
  revert y. induction x as [|a [|a' x] IH]; intros [|b [|b' y]] Hlen;
    simpl in Hlen; try discriminate; try reflexivity.
  change (removelast (b :: b' :: y)) with (b :: removelast (b' :: y)).
  change (diff (a :: a' :: x)) with (xsub a' a :: diff (a' :: x)).
  cbn [map2]. rewrite (IH (b' :: y)) by (simpl; lia).
  cbn [length Nat.sub]. rewrite !Nat.sub_0_r.
  change (seq 0 (S (length x))) with (0%nat :: seq 1 (length x)).
  cbn [map]. rewrite <- seq_shift, map_map. reflexivity.
Qed.

Lemma riemann_column (x y : list xnum) :
  length x = length y ->
  nansum (map2 xmul (removelast y) (diff x)) = left_riemann_sum x y.
Proof.
  intro Hlen. unfold nansum, left_riemann_sum.
  rewrite (products_by_index x y Hlen), map_map. reflexivity.
Qed.

(** C9: [auc_left] fails when either input holds a NaN; otherwise it
    returns, for each column, the left Riemann sum of [y[i] * (x[i+1] - x[i])]
    over [i = 0 .. n-2], in which a product that is NaN (such as [0 * inf])
    counts as [0]. *)
Theorem C9_left_riemann_sum (x_curve y_curve : list (list xnum)) :
  same_shape x_curve y_curve ->
  (contains_nan x_curve \/ contains_nan y_curve ->
   auc_left x_curve y_curve = Raise AssertionError) /\
  (~ contains_nan x_curve -> ~ contains_nan y_curve ->
   auc_left x_curve y_curve = Ok (map2 left_riemann_sum x_curve y_curve)).
Proof.
  intro Hshape. unfold auc_left. split.
  - intros [H|H]; apply existsb_isnan in H.
    + rewrite H. reflexivity.
    + rewrite H. destruct (existsb (existsb isnan) x_curve); reflexivity.
  - intros Hx Hy.
    destruct (existsb (existsb isnan) x_curve) eqn:Ex;
      [exfalso; apply Hx, existsb_isnan, Ex|].
    destruct (existsb (existsb isnan) y_curve) eqn:Ey;
      [exfalso; apply Hy, existsb_isnan, Ey|].
    cbn [negb assert bind]. f_equal. clear Hx Hy Ex Ey.
    induction Hshape as [|cx cy X Y Hlen HXY IH]; [reflexivity|].
    cbn [map2]. rewrite IH, (riemann_column cx cy Hlen). reflexivity.
Qed.

Lemma C9_witness :
  (auc_left example_x_curve example_nan_curve = Raise AssertionError) /\
  (auc_left example_x_curve example_y_curve
   = Ok (map2 left_riemann_sum example_x_curve example_y_curve)).
Proof.
  split.
  - apply (C9_left_riemann_sum example_x_curve example_nan_curve).
    + repeat constructor.
    + right. exists [Fin 2; NaN; Fin 7]. simpl. auto.
  - apply (C9_left_riemann_sum example_x_curve example_y_curve).
    + repeat constructor.
    + intro H. apply existsb_isnan in H. discriminate H.
    + intro H. apply existsb_isnan in H. discriminate H.
Defined.

(** ** The non-vectorized reference *)

Lemma take_rows_single (c : list xnum) (idx : list nat) :
  take_rows [c] idx = (r <- take c idx NaN ;; Ok [r]).
Proof.
  unfold take_rows, take. cbn [forallb map]. rewrite andb_true_r.
  destruct (forallb _ idx); reflexivity.
Qed.

Lemma last_row_single (c : list xnum) :
  last_row [c] = (v <- last_elem c NaN ;; Ok [v]).
Proof.
  unfold last_row, last_elem. cbn [forallb map]. rewrite andb_true_r.
  destruct c; reflexivity.
Qed.

Lemma column_single (l : list xnum) : column l (length l) 1 0 = l.
Proof.
  unfold column. set (g := fun i => nth (i * 1 + 0) l NaN).
  apply (nth_ext _ _ NaN NaN).
  - rewrite length_map, length_seq. reflexivity.
  - intros i Hi. rewrite length_map, length_seq in Hi.
    rewrite (nth_indep _ NaN (g 0%nat))
      by (rewrite length_map, length_seq; exact Hi).
    rewrite map_nth, seq_nth by exact Hi. unfold g. f_equal. lia.
Qed.

Lemma counts_unweighted_nv (y : list bool) (idxs : list nat) :
  counts_unweighted y idxs = lift_pair (nv_counts_unweighted y idxs).
Proof.
  unfold counts_unweighted, nv_counts_unweighted.
  destruct (take (cumsumZ (map Z.b2z y)) idxs 0%Z) as [tps|e]; [|reflexivity].
  cbn [bind].
  destruct (last_elem (map2 _ idxs tps) 0%Z) as [fl|e]; [|reflexivity]. cbn [bind].
  destruct (last_elem tps 0%Z) as [tl|e]; [|reflexivity]. cbn [bind].
  destruct (_ && _); reflexivity.
Qed.

Lemma counts_weighted_nv (y : list bool) (desc idxs : list nat) (w : ndarray) (n : nat) :
  wf_ndarray w -> shape w = [n; 1%nat] ->
  counts_weighted y desc idxs w = lift_pair (nv_counts_weighted y desc idxs (flatten w)).
Proof.
  intros Hwf Hshape. unfold counts_weighted, nv_counts_weighted.
  assert (Hvals : values (flatten w) = values w) by reflexivity.
  assert (Hdt : count_dtype (flatten w) = count_dtype w) by reflexivity.
  assert (Hsize : size w = n) by (unfold size; rewrite Hshape; simpl; lia).
  assert (Hlen : length (values w) = n).
  { rewrite values_length. unfold wf_ndarray in Hwf. congruence. }
  rewrite Hvals, Hdt. unfold ndim, dim, flatten. cbn [shape]. rewrite Hsize, Hshape.
  cbn [length nth Nat.eqb Nat.leb shape_eqb assert bind].
  rewrite andb_true_r.
  destruct (Nat.eqb n (length y)); [|reflexivity]. cbn [assert bind].
  destruct (forallb isfinite (values w)); [|reflexivity]. cbn [assert bind].
  destruct (forallb (xltb x0) (values w)); [|reflexivity]. cbn [assert bind].
  unfold columns, dim. rewrite Hshape. cbn [nth seq map].
  rewrite <- Hlen, column_single, take_rows_single.
  destruct (take (values w) desc NaN) as [weight|e]; [|reflexivity]. cbn [bind map].
  rewrite !take_rows_single.
  destruct (take (cumsum (map2 _ y weight)) idxs NaN) as [tps|e]; [|reflexivity].
  cbn [bind].
  destruct (take (cumsum weight) idxs NaN) as [csum|e]; [|reflexivity].
  cbn [bind map2]. rewrite !last_row_single.
  destruct tps as [|t0 tps]; [destruct csum; reflexivity|].
  destruct (last_elem (map2 xsub csum (t0 :: tps)) NaN) as [fl|e]; [|reflexivity].
  cbn [bind last_elem]. unfold allclose. cbn [forallb2]. rewrite !andb_true_r.
  destruct (isclose fl _); [|reflexivity]. cbn [assert bind andb].
  destruct (isclose _ _); reflexivity.
Qed.

Lemma xeqb_of_Z (z : Z) : xeqb (of_Z z) x0 = Z.eqb z 0.
Proof.
  unfold of_Z, x0, xeqb, Qeq_bool, inject_Z. simpl. rewrite Z.mul_1_r. reflexivity.
Qed.

Lemma take_inv (A : Type) (l : list A) (idx : list nat) (d : A) (r : list A) :
  take l idx d = Ok r ->
  Forall (fun i => (i < length l)%nat) idx /\ r = map (fun i => nth i l d) idx.
Proof.
  unfold take. destruct (forallb _ idx) eqn:E; [|discriminate].
  intro H. injection H as <-. split; [apply forallb_ltb, E|reflexivity].
Qed.

Lemma not_both_zero (z : Z) (i : nat) :
  negb (Z.eqb z 0 && Z.eqb (1 + Z.of_nat i - z) 0) = true.
Proof.
  destruct (Z.eqb_spec z 0) as [E|E]; [|reflexivity].
  cbn [andb]. apply negb_true_iff. apply Z.eqb_neq. lia.
Qed.

Lemma nv_unweighted_first (y : list bool) (idxs : list nat) (f t : vector) :
  idxs <> [] -> nv_counts_unweighted y idxs = Ok (f, t) ->
  exists t0 f0,
    first_elem (elems t) = Ok t0 /\ first_elem (elems f) = Ok f0 /\
    negb (xeqb t0 x0 && xeqb f0 x0) = true.
Proof.
  intros Hne H. unfold nv_counts_unweighted in H.
  destruct (take (cumsumZ (map Z.b2z y)) idxs 0%Z) as [tps|e] eqn:Et; [|discriminate].
  cbn [bind] in H. destruct (take_inv _ _ _ _ _ Et) as [_ ->].
  destruct (last_elem _ 0%Z) as [fl|e]; [|discriminate]. cbn [bind] in H.
  destruct (last_elem _ 0%Z) as [tl|e]; [|discriminate]. cbn [bind] in H.
  destruct (_ && _); [|discriminate]. cbn [assert bind] in H.
  injection H as <- <-. destruct idxs as [|i0 idxs]; [congruence|].
  cbn [elems map map2 first_elem]. eexists _, _. split; [reflexivity|].
  split; [reflexivity|]. rewrite !xeqb_of_Z. apply not_both_zero.
Qed.

Lemma positive_values (l : list xnum) :
  forallb isfinite l = true -> forallb (xltb x0) l = true ->
  exists q, l = map Fin q /\ Forall (fun x => 0 < x) q.
Proof.
  intros Hf Hp. destruct (forallb_isfinite _ Hf) as [q ->]. exists q.
  split; [reflexivity|]. apply Forall_forall. intros x Hx.
  rewrite forallb_forall in Hp. apply xltb_Fin, Hp, in_map, Hx.
Qed.

Lemma nv_weighted_first (y : list bool) (desc idxs : list nat) (w : ndarray) (f t : vector) :
  idxs <> [] -> nv_counts_weighted y desc idxs w = Ok (f, t) ->
  exists t0 f0,
    first_elem (elems t) = Ok t0 /\ first_elem (elems f) = Ok f0 /\
    negb (xeqb t0 x0 && xeqb f0 x0) = true.
Proof.
  intros Hne H. unfold nv_counts_weighted in H.
  destruct (shape_eqb _ _); [|discriminate]. cbn [assert bind] in H.
  destruct (forallb isfinite (values w)) eqn:Hfin; [|discriminate].
  cbn [assert bind] in H.
  destruct (forallb (xltb x0) (values w)) eqn:Hgt; [|discriminate].
  cbn [assert bind] in H.
  destruct (positive_values _ Hfin Hgt) as (q & Hq & Hpos). rewrite Hq in H.
  destruct (take (map Fin q) desc NaN) as [weight|e] eqn:Ew; [|discriminate].
  cbn [bind] in H. destruct (take_inv _ _ _ _ _ Ew) as [Hdesc ->].
  rewrite length_map in Hdesc. rewrite (map_nth_Fin q desc Hdesc) in H.
  set (wq := map (fun i => nth i q 0) desc) in *.
  assert (Hwq : Forall (fun x => 0 < x) wq).
  { apply Forall_forall. intros x Hx. unfold wq in Hx. apply in_map_iff in Hx.
    destruct Hx as [i [<- Hi]]. rewrite Forall_forall in Hpos, Hdesc.
    apply Hpos, nth_In, Hdesc, Hi. }
  rewrite weigh_Fin, !cumsum_Fin in H.
  destruct (take (map Fin (Qcumsum (Qweigh y wq))) idxs NaN) as [tps|e] eqn:Et;
    [|discriminate].
  cbn [bind] in H. destruct (take_inv _ _ _ _ _ Et) as [Ht ->].
  destruct (take (map Fin (Qcumsum wq)) idxs NaN) as [csum|e] eqn:Ec; [|discriminate].
  cbn [bind] in H. destruct (take_inv _ _ _ _ _ Ec) as [Hc ->].
  rewrite length_map in Ht, Hc.
  destruct (last_elem _ NaN) as [fl|e]; [|discriminate]. cbn [bind] in H.
  destruct (last_elem _ NaN) as [tl|e]; [|discriminate]. cbn [bind] in H.
  destruct (allclose _ _); [|discriminate]. cbn [assert bind] in H.
  injection H as <- <-. destruct idxs as [|i0 idxs]; [congruence|].
  inversion Ht as [|? ? Hti _]; subst. inversion Hc as [|? ? Hci _]; subst.
  cbn [elems map map2 first_elem]. eexists _, _. split; [reflexivity|].
  split; [reflexivity|]. rewrite !nth_map_Fin by assumption.
  cbn [xsub xneg xadd xeqb x0].
  rewrite Qcumsum_length in Hci.
  assert (HC : 0 < nth i0 (Qcumsum wq) 0).
  { rewrite Qcumsum_nth by exact Hci. apply Qsum_firstn_pos; [exact Hwq| |lia].
    destruct wq; [simpl in Hci; lia|discriminate]. }
  destruct (Qeq_bool (nth i0 (Qcumsum (Qweigh y wq)) 0) 0) eqn:E; [|reflexivity].
  apply Qeq_bool_iff in E. cbn [andb]. apply negb_true_iff, Qeq_bool_false. lra.
Qed.

Lemma add_pseudo_points_nv (f t : vector) :
  add_pseudo_points (as_matrix f) (as_matrix t) = lift_pair (_nv_add_pseudo_points f t).
Proof.
  unfold add_pseudo_points, _nv_add_pseudo_points, as_matrix. cbn [cols].
  rewrite !last_row_single.
  destruct (last_elem (elems f) NaN) as [fl|e]; [|reflexivity]. cbn [bind].
  destruct (xeqb fl x0) eqn:Ef.
  - cbn [elems]. destruct (last_elem (elems t) NaN) as [tl|e]; [|reflexivity].
    cbn [bind map existsb]. rewrite Ef. cbn [orb assign_columns scale map].
    destruct (xeqb tl x0); reflexivity.
  - destruct (last_elem (elems t) NaN) as [tl|e]; [|reflexivity].
    cbn [bind map existsb]. rewrite Ef. cbn [orb].
    destruct (xeqb tl x0); [reflexivity|]. cbn [orb].
    destruct f, t; reflexivity.
Qed.

(** The two engines after the counting stage, for any outcome [c] of the
    reference's counting stage whose first row is not all zero. *)
Lemma curve_tail_nv (c : result (vector * vector)) (s : list xnum) (idxs : list nat) :
  (forall f t, c = Ok (f, t) ->
     exists t0 f0,
       first_elem (elems t) = Ok t0 /\ first_elem (elems f) = Ok f0 /\
       negb (xeqb t0 x0 && xeqb f0 x0) = true) ->
  ('(fps, tps, thresholds) <-
     ('(fps, tps) <- lift_pair c ;;
      let fps := mk_matrix (mdtype fps) (map (cons x0) (cols fps)) in
      let tps := mk_matrix (mdtype tps) (map (cons x0) (cols tps)) in
      th <- take s idxs NaN ;;
      Ok (fps, tps, PInf :: th)) ;;
   '(fps, tps) <- add_pseudo_points fps tps ;;
   fps_last <- last_row (cols fps) ;;
   tps_last <- last_row (cols tps) ;;
   check (all_positive fps_last && all_positive tps_last) ;;
   check (dtype_eqb (mdtype fps) (mdtype tps)) ;;
   let fps := mk_matrix (mdtype fps) (map maximum_accumulate (cols fps)) in
   check (nondecreasing (cols fps) && nondecreasing (cols tps)) ;;
   Ok (fps, tps, thresholds))
  =
  lift_curve
    ('(fps, tps) <- c ;;
     tps_first <- first_elem (elems tps) ;;
     fps_first <- first_elem (elems fps) ;;
     check (negb (xeqb tps_first x0 && xeqb fps_first x0)) ;;
     let fps := mk_vector (vdtype fps) (x0 :: elems fps) in
     let tps := mk_vector (vdtype tps) (x0 :: elems tps) in
     th <- take s idxs NaN ;;
     let thresholds := PInf :: th in
     '(fps, tps) <- _nv_add_pseudo_points fps tps ;;
     fps_last <- last_elem (elems fps) NaN ;;
     tps_last <- last_elem (elems tps) NaN ;;
     check (xltb x0 fps_last && xltb x0 tps_last) ;;
     check (dtype_eqb (vdtype fps) (vdtype tps)) ;;
     let fps := mk_vector (vdtype fps) (maximum_accumulate (elems fps)) in
     check (forallb (xleb x0) (diff (elems fps)) && forallb (xleb x0) (diff (elems tps))) ;;
     Ok (fps, tps, thresholds)).
Proof.
  intro Hfirst. destruct c as [[f t]|e]; [|reflexivity].
  destruct (Hfirst f t eq_refl) as (t0 & f0 & E1 & E2 & E3).
  cbn [lift_pair bind]. rewrite E1, E2. cbn [bind]. rewrite E3. cbn [assert bind].
  destruct (take s idxs NaN) as [th|e]; [|reflexivity]. cbn [bind].
  change (mk_matrix (mdtype (as_matrix f)) (map (cons x0) (cols (as_matrix f))))
    with (as_matrix (mk_vector (vdtype f) (x0 :: elems f))).
  change (mk_matrix (mdtype (as_matrix t)) (map (cons x0) (cols (as_matrix t))))
    with (as_matrix (mk_vector (vdtype t) (x0 :: elems t))).
  rewrite add_pseudo_points_nv.
  destruct (_nv_add_pseudo_points _ _) as [[f' t']|e]; [|reflexivity].
  cbn [lift_pair bind]. unfold as_matrix. cbn [cols mdtype].
  rewrite !last_row_single.
  destruct (last_elem (elems f') NaN) as [fl|e]; [|reflexivity]. cbn [bind].
  destruct (last_elem (elems t') NaN) as [tl|e]; [|reflexivity]. cbn [bind].
  unfold all_positive, nondecreasing. cbn [forallb map]. rewrite !andb_true_r.
  destruct (xltb x0 fl && xltb x0 tl); [|reflexivity]. cbn [assert bind].
  destruct (dtype_eqb (vdtype f') (vdtype t')); [|reflexivity]. cbn [assert bind elems].
  destruct (forallb (xleb x0) (diff (maximum_accumulate (elems f')))
            && forallb (xleb x0) (diff (elems t'))); reflexivity.
Qed.



(** ** The step function *)

Lemma select_map (A B : Type) (f : A -> B) (mask : list bool) (l : list A) :
  select mask (map f l) = map f (select mask l).
Proof.
  revert l. induction mask as [|b mask IH]; intros [|a l]; simpl; try reflexivity.
  destruct b; simpl; rewrite IH; reflexivity.
Qed.

Lemma select_length (A B : Type) (mask : list bool) (l : list A) (l' : list B) :
  length l = length l' -> length (select mask l) = length (select mask l').
Proof.
  revert l l'. induction mask as [|b mask IH]; intros [|a l] [|a' l'] H;
    simpl in *; try reflexivity; try discriminate.
  destruct b; simpl; rewrite (IH l l') by lia; reflexivity.
Qed.

Lemma select_In (A : Type) (mask : list bool) (l : list A) (x : A) :
  In x (select mask l) -> In x l.
Proof.
  revert l. induction mask as [|b mask IH]; intros [|a l] H; simpl in *; try contradiction.
  destruct b; [destruct H as [H|H]; [left; exact H|]|]; right; apply IH, H.
Qed.

Lemma select_all (A : Type) (l : list A) : select (map (fun _ => true) l) l = l.
Proof. induction l as [|a l IH]; simpl; [|rewrite IH]; reflexivity. Qed.

Lemma select_not_nan (l : list xnum) : ~ In NaN (select (not_nan l) l).
Proof.
  induction l as [|a l IH]; simpl; [tauto|].
  destruct a; simpl; try (intros [H|H]; [discriminate|tauto]). exact IH.
Qed.

Lemma not_nan_all (l : list xnum) : ~ In NaN l -> not_nan l = map (fun _ => true) l.
Proof.
  induction l as [|a l IH]; intro H; simpl; [reflexivity|].
  rewrite IH by (intro H'; apply H; right; exact H').
  destruct a; try reflexivity. exfalso. apply H. left. reflexivity.
Qed.

Lemma values_mask_array (mask : list bool) (a : ndarray) :
  values (mask_array mask a) = select mask (values a).
Proof.
  unfold values, mask_array. simpl. destruct (buf a); simpl;
    rewrite ?select_map; reflexivity.
Qed.

Lemma mask_array_facts (mask : list bool) (a : ndarray) :
  wf_ndarray (mask_array mask a) /\ ndim (mask_array mask a) = 1%nat /\
  kind (mask_array mask a) = kind a /\
  shape (mask_array mask a) = [length (values (mask_array mask a))].
Proof.
  unfold wf_ndarray, ndim, kind, size, mask_array. simpl.
  repeat split; try lia.
  - destruct (buf a); reflexivity.
  - rewrite values_length. reflexivity.
Qed.

Lemma boolean_index_ok (a : ndarray) (mask : list bool) :
  shape a = [length mask] -> boolean_index a mask = Ok (mask_array mask a).
Proof.
  intro H. unfold boolean_index. rewrite H. simpl. rewrite Nat.eqb_refl. reflexivity.
Qed.

Lemma boolean_index_inv (a a' : ndarray) (mask : list bool) :
  boolean_index a mask = Ok a' -> a' = mask_array mask a /\ shape a = [length mask].
Proof.
  unfold boolean_index. destruct (shape_eqb (shape a) [length mask]) eqn:E;
    [|discriminate].
  intro H. injection H as <-. apply shape_eqb_eq in E. split; [reflexivity|exact E].
Qed.

Lemma mask_array_all (a : ndarray) :
  shape a = [buf_length (buf a)] ->
  mask_array (map (fun _ => true) (values a)) a = a.
Proof.
  intro H. destruct a as [s b]. simpl in H. subst s. unfold mask_array, values. simpl.
  destruct b as [l|l|l]; simpl; rewrite ?map_map, select_all; reflexivity.
Qed.

Lemma delta_positive (a b : xnum) :
  isnan a = false -> isnan b = false -> xltb x0 (xsub b a) = xltb a b.
Proof.
  destruct a as [a| | |], b as [b| | |]; simpl; intros Ha Hb;
    try discriminate; try reflexivity.
  apply eq_true_iff_eq. rewrite !Qltb_iff. split; intro; lra.
Qed.

Lemma delta_tolerated (a b : xnum) : xle a b -> xltb (xsub b a) step_tolerance = false.
Proof.
  unfold xle, step_tolerance. destruct a as [a| | |], b as [b| | |]; simpl; intro H;
    try discriminate; try reflexivity.
  apply Qle_bool_iff in H. apply not_true_is_false. rewrite Qltb_iff. lra.
Qed.

Lemma xlt_xle_trans (a b c : xnum) : xlt a b -> xle b c -> xlt a c.
Proof.
  unfold xlt, xle. destruct a as [a| | |], b as [b| | |], c as [c| | |]; simpl;
    intros H1 H2; try discriminate; try reflexivity.
  apply Qltb_iff. apply Qltb_iff in H1. apply Qle_bool_iff in H2. lra.
Qed.

Lemma xlt_xle (a b : xnum) : xlt a b -> xle a b.
Proof.
  unfold xlt, xle. destruct a as [a| | |], b as [b| | |]; simpl; intro H;
    try discriminate; try reflexivity.
  apply Qle_bool_iff. apply Qltb_iff in H. lra.
Qed.




(** Non-decreasing by index and as a sorted list. *)
Lemma nondecreasing_sorted (l : list xnum) :
  column_nondecreasing l -> StronglySorted xle l.
Proof.
  induction l as [|a l IH]; intro H; constructor.
  - apply IH. intros i j Hij Hj. apply (H (S i) (S j)); simpl; lia.
  - apply Forall_forall. intros x Hx. destruct (In_nth _ _ NaN Hx) as [k [Hk <-]].
    apply (H 0%nat (S k)); simpl; lia.
Qed.

Lemma sorted_increasing (l : list xnum) :
  StronglySorted xlt l -> strictly_increasing l.
Proof.
  intro H. induction H as [|a l Hs IH Ha]; intros i j Hij Hj; simpl in Hj; [lia|].
  destruct j as [|j]; [lia|]. destruct i as [|i]; simpl.
  - rewrite Forall_forall in Ha. apply Ha, nth_In. lia.
  - apply IH; lia.
Qed.

Lemma increasing_sorted (l : list xnum) :
  strictly_increasing l -> StronglySorted xlt l.
Proof.
  induction l as [|a l IH]; intro H; constructor.
  - apply IH. intros i j Hij Hj. apply (H (S i) (S j)); simpl; lia.
  - apply Forall_forall. intros x Hx. destruct (In_nth _ _ NaN Hx) as [k [Hk <-]].
    apply (H 0%nat (S k)); simpl; lia.
Qed.

(** The two masks of [make_into_step] on sorted sample points. *)
Lemma tolerance_check (l : list xnum) :
  StronglySorted xle l ->
  existsb (fun d => xltb d step_tolerance) (diff l) = false.
Proof.
  intro H. induction H as [|a l Hs IH Ha]; [reflexivity|].
  destruct l as [|b l]; [reflexivity|].
  change (diff (a :: b :: l)) with (xsub b a :: diff (b :: l)). cbn [existsb].
  rewrite IH, orb_false_r. apply delta_tolerated.
  rewrite Forall_forall in Ha. apply Ha. left. reflexivity.
Qed.

Lemma delta_mask (l : list xnum) :
  ~ In NaN l -> l <> [] -> map (xltb x0) (diff l) ++ [true] = last_of_ties l.
Proof.
  induction l as [|a l IH]; intros Hn Hl; [congruence|].
  destruct l as [|b l]; [reflexivity|].
  change (diff (a :: b :: l)) with (xsub b a :: diff (b :: l)).
  change (last_of_ties (a :: b :: l)) with (xltb a b :: last_of_ties (b :: l)).
  cbn [map app].
  rewrite IH; [|intro H; apply Hn; right; exact H|discriminate].
  rewrite delta_positive; [reflexivity| |].
  - destruct a; try reflexivity. exfalso. apply Hn. left. reflexivity.
  - destruct b; try reflexivity. exfalso. apply Hn. right. left. reflexivity.
Qed.

Lemma tolerance_check_bool (l : list bool) :
  existsb (fun d => xltb d step_tolerance) (map of_bool (map2 xorb (tl l) l)) = false.
Proof.
  apply existsb_false. intros x Hx. apply in_map_iff in Hx.
  destruct Hx as [b [<- _]]. destruct b; reflexivity.
Qed.

Lemma delta_mask_bool (l : list bool) :
  StronglySorted xle (map of_bool l) -> l <> [] ->
  map (xltb x0) (map of_bool (map2 xorb (tl l) l)) ++ [true]
  = last_of_ties (map of_bool l).
Proof.
  induction l as [|a l IH]; intros Hs Hl; [congruence|].
  destruct l as [|b l]; [reflexivity|].
  inversion Hs as [|? ? Hs' Ha]; subst.
  specialize (IH Hs' ltac:(discriminate)).
  cbn [tl map2 map app last_of_ties] in *. rewrite <- IH. f_equal.
  inversion Ha as [|? ? Hab _]; subst. destruct a, b; try reflexivity.
  discriminate Hab.
Qed.

Lemma array_masks (a : ndarray) :
  ~ In NaN (values a) -> StronglySorted xle (values a) ->
  existsb (fun d => xltb d step_tolerance) (diff_array a) = false /\
  (values a <> [] -> map (xltb x0) (diff_array a) ++ [true] = last_of_ties (values a)).
Proof.
  unfold diff_array, values. destruct (buf a) as [l|l|l]; intros Hn Hs.
  - split; [apply tolerance_check_bool|]. intro Hl. apply delta_mask_bool; [exact Hs|].
    intro E. subst. apply Hl. reflexivity.
  - split; [apply tolerance_check, Hs|]. intro Hl. apply delta_mask; assumption.
  - split; [apply tolerance_check, Hs|]. intro Hl. apply delta_mask; assumption.
Qed.

Lemma select_buffer_length (mask : list bool) (a a' : ndarray) :
  length (values a) = length (values a') ->
  buf_length (select_buffer mask (buf a)) = length (select mask (values a')).
Proof.
  intro H. rewrite <- (select_length _ _ mask _ _ H), <- values_mask_array, values_length.
  reflexivity.
Qed.

Lemma index_none_mask (a : ndarray) : index_none a = mask_array [] a.
Proof. unfold index_none, mask_array. destruct (buf a); reflexivity. Qed.

Lemma sample_points_sorted (xp : ndarray) :
  column_nondecreasing (sample_points xp) ->
  ~ In NaN (values (mask_array (not_nan (values xp)) xp)) /\
  StronglySorted xle (values (mask_array (not_nan (values xp)) xp)).
Proof.
  intro H. rewrite values_mask_array. split; [apply select_not_nan|].
  apply nondecreasing_sorted, H.
Qed.

(** On sorted sample points the call succeeds, with the points selected by
    [last_of_ties]. *)
Lemma make_into_step_eval (xp yp : ndarray) :
  wf_ndarray xp -> wf_ndarray yp -> ndim xp = 1%nat -> shape xp = shape yp ->
  column_nondecreasing (sample_points xp) ->
  let keep := last_of_ties (sample_points xp) in
  make_into_step xp yp
  = Ok (mask_array keep (mask_array (not_nan (values xp)) xp),
        mask_array keep (mask_array (not_nan (values xp)) yp)).
Proof.
  intros Hwf Hwf' Hdim Hsh Hs keep. unfold make_into_step.
  rewrite Hdim, <- Hsh. simpl Nat.eqb.
  replace (shape_eqb (shape xp) (shape xp)) with true
    by (symmetry; apply shape_eqb_eq; reflexivity).
  cbn [andb assert bind]. fold (not_nan (values xp)).
  assert (Hshape : shape xp = [length (not_nan (values xp))]).
  { unfold not_nan. rewrite length_map, values_length, Hwf. apply vector_size, Hdim. }
  rewrite boolean_index_ok by exact Hshape. cbn [bind].
  rewrite boolean_index_ok by (rewrite <- Hsh; exact Hshape). cbn [bind].
  destruct (sample_points_sorted xp Hs) as [Hn Hsorted].
  destruct (array_masks _ Hn Hsorted) as [Htol Hmask].
  fold step_tolerance. rewrite Htol. cbn [negb assert bind].
  set (xp' := mask_array (not_nan (values xp)) xp) in *.
  set (yp' := mask_array (not_nan (values xp)) yp).
  assert (Hpts : values xp' = sample_points xp) by apply values_mask_array.
  assert (Hsize : size xp' = length (sample_points xp)).
  { rewrite <- Hpts, values_length. unfold xp', mask_array, size. simpl. lia. }
  rewrite Hsize. destruct (sample_points xp) as [|p pts] eqn:Epts.
  - simpl. unfold keep. rewrite !index_none_mask. reflexivity.
  - cbn [length Nat.eqb]. rewrite Hmask by (rewrite Hpts; discriminate).
    rewrite Hpts. fold keep.
    assert (Hk : length keep = length (p :: pts)).
    { unfold keep. clear. generalize (p :: pts). intro l.
      induction l as [|a [|b l] IH]; simpl in *; [reflexivity|reflexivity|].
      rewrite IH. reflexivity. }
    assert (Hx : shape xp' = [length keep]).
    { rewrite Hk, <- Hpts. apply mask_array_facts. }
    rewrite boolean_index_ok by exact Hx. cbn [bind].
    rewrite boolean_index_ok; [reflexivity|].
    rewrite Hk, <- Epts. unfold yp', mask_array. cbn [shape]. f_equal.
    apply (select_buffer_length (not_nan (values xp)) yp xp).
    rewrite !values_length, Hwf, Hwf'. unfold size. rewrite Hsh. reflexivity.
Qed.

(** The selection of [last_of_ties] on a sorted list. *)
Lemma ties_cons (A : Type) (a b : xnum) (t : list xnum) (va vb : A) (vt : list A) :
  select (last_of_ties (a :: b :: t)) (va :: vb :: vt)
  = (if xltb a b then [va] else []) ++ select (last_of_ties (b :: t)) (vb :: vt).
Proof.
  change (last_of_ties (a :: b :: t)) with (xltb a b :: last_of_ties (b :: t)).
  cbn [select]. destruct (xltb a b); reflexivity.
Qed.

Lemma ties_length (l : list xnum) : length (last_of_ties l) = length l.
Proof.
  induction l as [|a [|b l] IH]; [reflexivity|reflexivity|].
  change (last_of_ties (a :: b :: l)) with (xltb a b :: last_of_ties (b :: l)).
  cbn [length]. rewrite IH. reflexivity.
Qed.

Lemma ties_increasing (l : list xnum) :
  StronglySorted xle l -> StronglySorted xlt (select (last_of_ties l) l).
Proof.
  intro H. induction H as [|a l Hs IH Ha]; [constructor|].
  destruct l as [|b t]; [repeat constructor|].
  rewrite ties_cons. destruct (xltb a b) eqn:E; [|exact IH].
  cbn [app]. constructor; [exact IH|].
  apply Forall_forall. intros x Hx. apply select_In in Hx.
  inversion Hs as [|? ? _ Hb]; subst. rewrite Forall_forall in Hb.
  destruct Hx as [<-|Hx]; [exact E|].
  apply xlt_xle_trans with (b := b); [exact E|apply Hb, Hx].
Qed.

Lemma ties_fixed (l : list xnum) :
  StronglySorted xlt l -> last_of_ties l = map (fun _ => true) l.
Proof.
  intro H. induction H as [|a l Hs IH Ha]; [reflexivity|].
  destruct l as [|b t]; [reflexivity|].
  change (last_of_ties (a :: b :: t)) with (xltb a b :: last_of_ties (b :: t)).
  rewrite IH. inversion Ha as [|? ? Hab _]; subst. unfold xlt in Hab. rewrite Hab.
  reflexivity.
Qed.



Lemma make_into_step_inv (xp yp xp' yp' : ndarray) :
  make_into_step xp yp = Ok (xp', yp') ->
  ndim xp = 1%nat /\ shape xp = shape yp /\
  exists keep,
    xp' = mask_array keep (mask_array (not_nan (values xp)) xp) /\
    yp' = mask_array keep (mask_array (not_nan (values xp)) yp).
Proof.
  unfold make_into_step. fold (not_nan (values xp)).
  destruct (Nat.eqb (ndim xp) 1 && shape_eqb (shape xp) (shape yp)) eqn:E;
    [|discriminate].
  apply andb_true_iff in E. destruct E as [E1 E2].
  apply Nat.eqb_eq in E1. apply shape_eqb_eq in E2. cbn [assert bind].
  destruct (boolean_index xp (not_nan (values xp))) as [x1|] eqn:Ex; [|discriminate].
  destruct (boolean_index yp (not_nan (values xp))) as [y1|] eqn:Ey; [|discriminate].
  apply boolean_index_inv in Ex, Ey. destruct Ex as [-> _], Ey as [-> _]. cbn [bind].
  match goal with |- context [assert ?b] => destruct b end; [|discriminate].
  cbn [assert bind].
  match goal with |- context [if ?b then _ else _] => destruct b end.
  - intro H. injection H as <- <-. split; [exact E1|]. split; [exact E2|].
    exists []. rewrite !index_none_mask. split; reflexivity.
  - match goal with |- context [boolean_index ?a ?m] =>
      destruct (boolean_index a m) as [x2|] eqn:Ex; [|discriminate] end.
    cbn [bind].
    match goal with |- context [boolean_index ?a ?m] =>
      destruct (boolean_index a m) as [y2|] eqn:Ey; [|discriminate] end.
    cbn [bind]. intro H. injection H as <- <-.
    apply boolean_index_inv in Ex, Ey. destruct Ex as [-> _], Ey as [-> _].
    split; [exact E1|]. split; [exact E2|]. eexists. split; reflexivity.
Qed.

Lemma values_same_length (xp yp : ndarray) :
  wf_ndarray xp -> wf_ndarray yp -> shape xp = shape yp ->
  length (values xp) = length (values yp).
Proof.
  intros Hx Hy Hs. rewrite !values_length, Hx, Hy. unfold size. rewrite Hs. reflexivity.
Qed.

(** X1. A successful [make_into_step] returns two well-formed one-dimensional
    arrays of one shape and of the dtypes of its arguments; the returned
    sample points hold no NaN, and no entry is returned that the arguments
    did not hold. *)
Theorem make_into_step_arrays (xp yp xp' yp' : ndarray) :
  wf_ndarray xp -> wf_ndarray yp ->
  make_into_step xp yp = Ok (xp', yp') ->
  wf_ndarray xp' /\ wf_ndarray yp' /\
  ndim xp' = 1%nat /\ shape xp' = shape yp' /\
  kind xp' = kind xp /\ kind yp' = kind yp /\
  ~ In NaN (values xp') /\
  (forall x, In x (values xp') -> In x (values xp)) /\
  (forall y, In y (values yp') -> In y (values yp)).
Proof.
  intros Hx Hy H. apply make_into_step_inv in H.
  destruct H as (Hdim & Hsh & keep & -> & ->).
  pose proof (values_same_length xp yp Hx Hy Hsh) as Hlen.
  set (nn := not_nan (values xp)).
  destruct (mask_array_facts keep (mask_array nn xp)) as (W1 & D1 & K1 & S1).
  destruct (mask_array_facts keep (mask_array nn yp)) as (W2 & _ & K2 & S2).
  destruct (mask_array_facts nn xp) as (_ & _ & K3 & _).
  destruct (mask_array_facts nn yp) as (_ & _ & K4 & _).
  split; [exact W1|]. split; [exact W2|]. split; [exact D1|].
  split.
  { rewrite S1, S2, !values_mask_array. f_equal.
    apply select_length, select_length, Hlen. }
  split; [congruence|]. split; [congruence|].
  rewrite !values_mask_array. split; [|split].
  - intro Hn. apply select_In in Hn. exact (select_not_nan (values xp) Hn).
  - intros x Hin. apply select_In, select_In in Hin. exact Hin.
  - intros y Hin. apply select_In, select_In in Hin. exact Hin.
Qed.

Lemma make_into_step_arrays_witness :
  exists xp' yp',
    make_into_step example_xp example_yp = Ok (xp', yp') /\
    wf_ndarray xp' /\ wf_ndarray yp' /\
    ndim xp' = 1%nat /\ shape xp' = shape yp' /\
    kind xp' = kind example_xp /\ kind yp' = kind example_yp /\
    ~ In NaN (values xp') /\
    (forall x, In x (values xp') -> In x (values example_xp)) /\
    (forall y, In y (values yp') -> In y (values example_yp)).
Proof.
  eexists _, _. split; [vm_compute; reflexivity|].
  apply (make_into_step_arrays example_xp example_yp); reflexivity.
Defined.







(** X5. [make_into_step] changes nothing in its own result: on sample points
    in non-decreasing order a second call returns the arrays of the first. *)
Theorem make_into_step_idempotent (xp yp xp' yp' : ndarray) :
  wf_ndarray xp -> wf_ndarray yp ->
  column_nondecreasing (sample_points xp) ->
  make_into_step xp yp = Ok (xp', yp') ->
  make_into_step xp' yp' = Ok (xp', yp').
Proof.
  intros Hx Hy Hs H.
  destruct (make_into_step_arrays xp yp xp' yp' Hx Hy H)
    as (Wx & Wy & Dx & Sh & _ & _ & Hn & _).
  destruct (make_into_step_inv xp yp xp' yp' H) as (Hdim & Hsh & _).
  rewrite (make_into_step_eval xp yp Hx Hy Hdim Hsh Hs) in H.
  assert (Hv : values xp' = select (last_of_ties (sample_points xp)) (sample_points xp)).
  { injection H as <- _. rewrite !values_mask_array. reflexivity. }
  assert (Hinc : StronglySorted xlt (values xp')).
  { rewrite Hv. apply ties_increasing, nondecreasing_sorted, Hs. }
  assert (Hpts : sample_points xp' = values xp').
  { unfold sample_points. rewrite (not_nan_all _ Hn). apply select_all. }
  assert (Hs' : column_nondecreasing (sample_points xp')).
  { rewrite Hpts. intros i j Hij Hj. destruct (Nat.eq_dec i j) as [->|Hne].
    - unfold xle. pose proof (nth_In (values xp') NaN Hj) as Hi.
      destruct (nth j (values xp') NaN) eqn:E; try reflexivity.
      + simpl. apply Qle_bool_iff. lra.
      + contradiction.
    - apply xlt_xle. apply (sorted_increasing _ Hinc); lia. }
  rewrite (make_into_step_eval xp' yp' Wx Wy Dx Sh Hs').
  rewrite Hpts, (ties_fixed _ Hinc), (not_nan_all _ Hn).
  assert (Hshape : forall a, wf_ndarray a -> ndim a = 1%nat ->
                             shape a = [buf_length (buf a)]).
  { intros a Ha Hd. rewrite Ha. apply vector_size, Hd. }
  rewrite !(mask_array_all xp') by (apply Hshape; assumption).
  assert (Hlen : length (values xp') = length (values yp')).
  { apply values_same_length; assumption. }
  replace (map (fun _ : xnum => true) (values xp'))
    with (map (fun _ : xnum => true) (values yp')).
  - assert (Sy : shape yp' = [buf_length (buf yp')]).
    { apply Hshape; [assumption|]. unfold ndim in *. rewrite <- Sh. exact Dx. }
    rewrite !(mask_array_all yp' Sy). reflexivity.
  - clear - Hlen. revert Hlen. generalize (values xp'), (values yp').
    intros l l'. revert l. induction l' as [|b l' IH]; intros [|a l] H;
      simpl in *; try reflexivity; try discriminate. rewrite (IH l); [reflexivity|lia].
Qed.

Lemma make_into_step_idempotent_witness :
  make_into_step
    (mk_ndarray [4%nat] (FloatBuf [Fin 0; Fin 1; Fin 3; PInf]))
    (mk_ndarray [4%nat] (IntBuf [10; 40; 50; 60]%Z))
  = Ok (mk_ndarray [4%nat] (FloatBuf [Fin 0; Fin 1; Fin 3; PInf]),
        mk_ndarray [4%nat] (IntBuf [10; 40; 50; 60]%Z)).
Proof.
  apply (make_into_step_idempotent example_xp example_yp); try reflexivity.
  intros i j Hij Hj.
  do 5 (destruct j as [|j]; [do 5 (destruct i as [|i]; [try reflexivity; lia|]); lia|]).
  simpl in Hj. lia.
Defined.






(** ** Areas under finite curves *)








































Lemma xsum_from_nan (l : list xnum) : fold_left xadd l NaN = NaN.
Proof. induction l as [|a l IH]; [reflexivity|exact IH]. Qed.

Lemma xsum_nan (l : list xnum) : In NaN l -> xsum l = NaN.
Proof.
  unfold xsum. generalize x0. induction l as [|a l IH]; intros acc H; [contradiction|].
  destruct H as [->|H]; cbn [fold_left].
  - replace (xadd acc NaN) with NaN by (destruct acc; reflexivity).
    apply xsum_from_nan.
  - apply IH, H.
Qed.

Lemma diff_nan (l : list xnum) : In NaN l -> (2 <= length l)%nat -> In NaN (diff l).
Proof.
  induction l as [|a l IH]; intros H Hlen; [contradiction|].
  destruct l as [|b l]; [simpl in Hlen; lia|].
  change (diff (a :: b :: l)) with (xsub b a :: diff (b :: l)).
  destruct H as [->|H].
  - left. destruct b; reflexivity.
  - destruct H as [->|H]; [left; destruct a; reflexivity|].
    right. apply IH; [right; exact H|]. destruct l; [contradiction|simpl; lia].
Qed.

Lemma pair_sums_nan (l : list xnum) :
  In NaN l -> (2 <= length l)%nat -> In NaN (map2 xadd (tl l) (removelast l)).
Proof.
  induction l as [|a l IH]; intros H Hlen; [contradiction|].
  destruct l as [|b l]; [simpl in Hlen; lia|].
  change (removelast (a :: b :: l)) with (a :: removelast (b :: l)). cbn [tl map2].
  destruct H as [->|H].
  - left. destruct b; reflexivity.
  - destruct H as [->|H]; [left; destruct a; reflexivity|].
    right. destruct l as [|c l]; [contradiction|].
    apply (IH (or_intror H)). simpl. lia.
Qed.

Lemma map2_nan (g : xnum -> xnum -> xnum) (l l' : list xnum) :
  (forall a, g NaN a = NaN) -> (forall a, g a NaN = NaN) ->
  length l = length l' -> In NaN l \/ In NaN l' -> In NaN (map2 g l l').
Proof.
  intros Hl Hr. revert l'. induction l as [|a l IH]; intros [|b l'] Hlen H;
    try discriminate; [destruct H; contradiction|].
  cbn [map2]. destruct H as [[->|H]|[->|H]].
  - left. apply Hl.
  - right. apply IH; [simpl in Hlen; lia|left; exact H].
  - left. apply Hr.
  - right. apply IH; [simpl in Hlen; lia|right; exact H].
Qed.

Lemma trapz_nan (x y : list xnum) :
  length x = length y -> (2 <= length x)%nat -> In NaN x \/ In NaN y ->
  trapz y x = NaN.
Proof.
  intros Hlen H2 H. unfold trapz. apply xsum_nan. apply map2_nan.
  - intro a. reflexivity.
  - intro a. destruct a; reflexivity.
  - rewrite diff_length, map2_length.
    + destruct y; simpl in *; lia.
    + destruct y as [|b y]; [simpl in *; lia|]. cbn [tl].
      rewrite removelast_firstn_len, length_firstn. simpl. lia.
  - destruct H as [H|H]; [left; apply diff_nan; assumption|].
    right. apply pair_sums_nan; [exact H|lia].
Qed.

(** X12. [auc_trapz] rejects nothing: where a column of two rows or more
    holds a NaN, in [x] or in [y], the area of that column is NaN, on curves
    that [auc_left] refuses. *)
Theorem auc_trapz_propagates_nan (x_curve y_curve : list (list xnum)) (j : nat) :
  same_shape x_curve y_curve -> (j < length x_curve)%nat ->
  (2 <= length (nth j x_curve []))%nat ->
  In NaN (nth j x_curve []) \/ In NaN (nth j y_curve []) ->
  nth j (auc_trapz x_curve y_curve) x0 = NaN /\
  auc_left x_curve y_curve = Raise AssertionError.
Proof.
  intros Hshape Hj H2 Hnan. split.
  - unfold auc_trapz. revert j Hj H2 Hnan.
    induction Hshape as [|x y X Y Hxy _ IH]; intros j Hj H2 Hnan; [simpl in Hj; lia|].
    destruct j as [|j]; cbn [map2 nth] in *.
    + apply trapz_nan; assumption.
    + apply IH; [simpl in Hj; lia|assumption|assumption].
  - assert (Hy : (j < length y_curve)%nat).
    { rewrite <- (Forall2_length _ _ _ _ _ Hshape). exact Hj. }
    unfold auc_left. destruct Hnan as [Hn|Hn].
    + replace (existsb (existsb isnan) x_curve) with true; [reflexivity|].
      symmetry. apply existsb_isnan. exists (nth j x_curve []).
      split; [apply nth_In, Hj|exact Hn].
    + destruct (existsb (existsb isnan) x_curve); [reflexivity|].
      replace (existsb (existsb isnan) y_curve) with true; [reflexivity|].
      symmetry. apply existsb_isnan. exists (nth j y_curve []).
      split; [apply nth_In, Hy|exact Hn].
Qed.

Lemma auc_trapz_propagates_nan_witness :
  nth 0 (auc_trapz example_x_curve example_nan_curve) x0 = NaN /\
  auc_left example_x_curve example_nan_curve = Raise AssertionError.
Proof.
  apply (auc_trapz_propagates_nan example_x_curve example_nan_curve 0).
  - repeat constructor.
  - simpl. lia.
  - simpl. lia.
  - right. simpl. auto.
Defined.

(** ** What the counts count *)

(** The counting stage without weights, by its values. *)
Lemma raw_counts_unweighted (y_true y_score : ndarray) :
  wf_inputs y_true y_score None ->
  preconditions y_true y_score None = true ->
  exists (l : list bool) (q : list Q),
    labels y_true = l /\ values y_score = map Fin q /\ length q = length l /\
    (1 <= length l)%nat /\
    raw_counts y_true y_score None
    = Ok (mk_matrix DInt [x0 :: map of_Z (Zfps (sorted_labels l q) (score_idxs q))],
          mk_matrix DInt [x0 :: map of_Z (Ztps (sorted_labels l q) (score_idxs q))],
          PInf :: map Fin (Qthresholds q)).
Proof.
  intros Hwf Hpre.
  destruct (preconditions_inv _ _ _ Hwf Hpre)
    as (l & q & Hbuf & Hshy & Hsize & Hval & Hshs & Hlen & Hn).
  assert (Hlab : labels y_true = l) by (unfold labels; rewrite Hbuf; reflexivity).
  assert (Hq : q <> []) by (destruct q; [simpl in Hlen; lia|discriminate]).
  exists l, q. split; [exact Hlab|]. split; [exact Hval|]. split; [exact Hlen|].
  split; [exact Hn|].
  unfold raw_counts.
  replace (Nat.eqb (ndim y_true) 1 && dtype_eqb (kind y_true) DBool) with true
    by (unfold ndim, kind; rewrite Hshy, Hbuf; reflexivity).
  replace (shape_eqb (shape y_score) (shape y_true) && forallb isfinite (values y_score))
    with true
    by (rewrite Hshs, Hshy, Hval, forallb_isfinite_Fin; simpl;
        rewrite Nat.eqb_refl; reflexivity).
  replace (Nat.leb 1 (size y_true)) with true
    by (symmetry; apply Nat.leb_le; lia).
  cbn [assert bind]. rewrite Hval, Hlab.
  unfold Qthresholds, score_idxs, sorted_labels, Qsorted.
  set (desc := desc_score_indices (map Fin q)).
  set (sq := map (fun i => nth i q 0) desc).
  set (y := map (fun i => nth i l false) desc).
  assert (Hdesc : Forall (fun i => (i < length q)%nat) desc) by apply desc_in_range.
  assert (Hdesc_len : length desc = length q) by apply desc_length.
  rewrite take_ok by (rewrite length_map; exact Hdesc).
  rewrite (map_nth_Fin q desc Hdesc). fold sq. cbn [bind].
  rewrite take_ok by (rewrite <- Hlen; exact Hdesc). fold y. cbn [bind].
  assert (Hy_len : length y = length (map Fin sq)).
  { unfold y, sq. rewrite !length_map. reflexivity. }
  assert (Hsq_len : length (map Fin sq) = length q).
  { unfold sq. rewrite !length_map. exact Hdesc_len. }
  assert (Hsq : sq <> []).
  { intro E. rewrite E in Hsq_len. simpl in Hsq_len. lia. }
  rewrite Hy_len.
  set (idxs := threshold_idxs (map Fin sq) (length (map Fin sq))).
  assert (Hsorted : StronglySorted lt idxs) by apply threshold_idxs_sorted.
  assert (Hrange : Forall (fun i => (i < length y)%nat) idxs).
  { rewrite Hy_len. apply threshold_idxs_in_range.
    destruct sq; [congruence|discriminate]. }
  assert (Hne : idxs <> []) by apply threshold_idxs_nonempty.
  assert (Hlast : last idxs 0%nat = (length y - 1)%nat).
  { rewrite Hy_len. apply threshold_idxs_last. }
  assert (Hth : take (map Fin sq) idxs NaN = Ok (map Fin (Qdedup sq))).
  { rewrite take_ok by (rewrite <- Hy_len; exact Hrange).
    rewrite map_nth_Fin by (rewrite <- (length_map Fin), <- Hy_len; exact Hrange).
    unfold idxs. rewrite length_map, (thresholds_dedup sq Hsq). reflexivity. }
  rewrite (counts_unweighted_ok y idxs Hsorted Hrange Hne Hlast).
  cbn [bind mdtype cols]. rewrite Hth. reflexivity.
Qed.

Lemma combine_by_index (A B : Type) (l : list A) (l' : list B) (d : A) (d' : B) :
  length l = length l' ->
  combine l l' = map (fun i => (nth i l d, nth i l' d')) (seq 0 (length l)).
Proof.
  revert l'. induction l as [|a l IH]; intros [|b l'] H; try discriminate;
    [reflexivity|].
  cbn [combine length seq map nth]. f_equal.
  rewrite <- seq_shift, map_map. apply IH. simpl in H. lia.
Qed.

Lemma combine_map_index (A B X : Type) (f : X -> A) (g : X -> B) (L : list X) :
  combine (map f L) (map g L) = map (fun x => (f x, g x)) L.
Proof. induction L as [|x L IH]; [reflexivity|]. simpl. rewrite IH. reflexivity. Qed.

Lemma filter_length_perm (A : Type) (f : A -> bool) (L L' : list A) :
  Permutation L L' -> length (filter f L) = length (filter f L').
Proof.
  intro H. induction H as [|x L L' _ IH|x y L|L L' L'' _ IH1 _ IH2].
  - reflexivity.
  - simpl. destruct (f x); simpl; rewrite IH; reflexivity.
  - simpl. destruct (f x), (f y); reflexivity.
  - rewrite IH1. exact IH2.
Qed.

Lemma filter_length_map (A B : Type) (f : B -> bool) (g : A -> B) (L : list A) :
  length (filter f (map g L)) = length (filter (fun x => f (g x)) L).
Proof.
  induction L as [|x L IH]; [reflexivity|]. simpl. destruct (f (g x)); simpl;
    rewrite IH; reflexivity.
Qed.

Lemma filter_none (A : Type) (f : A -> bool) (L : list A) :
  (forall x, In x L -> f x = false) -> filter f L = [].
Proof.
  induction L as [|x L IH]; intro H; [reflexivity|]. simpl.
  rewrite (H x (or_introl eq_refl)). apply IH. intros z Hz. apply H. right. exact Hz.
Qed.

(** A predicate that holds on the first [n] entries only selects them. *)
Lemma filter_prefix (A : Type) (f : A -> bool) (d : A) (L : list A) (n : nat) :
  (forall p, (p < length L)%nat -> (f (nth p L d) = true <-> (p < n)%nat)) ->
  filter f L = firstn n L.
Proof.
  revert n. induction L as [|a L IH]; intros n H; [destruct n; reflexivity|].
  destruct n as [|n].
  - simpl firstn. apply filter_none. intros x Hx.
    destruct (In_nth _ _ d Hx) as [p [Hp <-]]. apply not_true_is_false.
    rewrite (H p Hp). lia.
  - simpl. replace (f a) with true by (symmetry; apply (H 0%nat); simpl; lia).
    f_equal. apply IH. intros p Hp.
    specialize (H (S p) ltac:(simpl; lia)). cbn [nth] in H. rewrite H. lia.
Qed.

Lemma filter_both (A : Type) (g h : A -> bool) (L : list A) :
  filter (fun x => g x && h x) L = filter g (filter h L).
Proof.
  induction L as [|x L IH]; [reflexivity|]. simpl.
  destruct (h x); simpl; rewrite ?andb_true_r, ?andb_false_r;
    [destruct (g x)|]; rewrite IH; reflexivity.
Qed.

Lemma label_count (B : Type) (b : bool) (y : list bool) (s : list B) :
  length y = length s ->
  Z.of_nat (length (filter (fun p => Bool.eqb (fst p) b) (combine y s)))
  = sumZ (map (fun c => Z.b2z (Bool.eqb c b)) y).
Proof.
  revert s. induction y as [|c y IH]; intros [|v s] H; try discriminate; [reflexivity|].
  cbn [combine filter fst map]. rewrite sumZ_cons, <- (IH s) by (simpl in H; lia).
  destruct (Bool.eqb c b); cbn [length Z.b2z]; lia.
Qed.

(** In a decreasing list a threshold index cuts the entries that are at
    least its own. *)
Lemma sorted_cut (sq : list Q) (i p : nat) :
  StronglySorted (fun a b => b <= a) sq -> (i < length sq)%nat ->
  ((S i < length sq)%nat -> ~ nth (S i) sq 0 == nth i sq 0) ->
  (p < length sq)%nat ->
  (Qle_bool (nth i sq 0) (nth p sq 0) = true <-> (p < S i)%nat).
Proof.
  intros Hs Hi Hstep Hp. rewrite Qle_bool_iff. split.
  - intro H. destruct (Nat.lt_ge_cases p (S i)) as [|Hge]; [assumption|].
    exfalso. assert (Hi' : (S i < length sq)%nat) by lia.
    assert (H1 : nth (S i) sq 0 <= nth i sq 0).
    { apply (StronglySorted_nth _ _ i (S i) Hs); lia. }
    assert (H2 : nth p sq 0 <= nth (S i) sq 0).
    { destruct (Nat.eq_dec p (S i)) as [->|Hne]; [lra|].
      apply (StronglySorted_nth _ _ (S i) p Hs); lia. }
    apply (Hstep Hi'). lra.
  - intro H. destruct (Nat.eq_dec p i) as [->|Hne]; [lra|].
    apply (StronglySorted_nth _ _ p i Hs); lia.
Qed.

Lemma sorted_count (b : bool) (y : list bool) (sq : list Q) (i : nat) :
  StronglySorted (fun a b => b <= a) sq -> length y = length sq ->
  (i < length sq)%nat ->
  ((S i < length sq)%nat -> ~ nth (S i) sq 0 == nth i sq 0) ->
  Z.of_nat (length (filter (fun p => Bool.eqb (fst p) b && Qle_bool (nth i sq 0) (snd p))
                      (combine y sq)))
  = sumZ (firstn (S i) (map (fun c => Z.b2z (Bool.eqb c b)) y)).
Proof.
  intros Hs Hlen Hi Hstep.
  rewrite (filter_both _ (fun p => Bool.eqb (fst p) b)
             (fun p => Qle_bool (nth i sq 0) (snd p))).
  rewrite (filter_prefix _ _ (false, 0) (combine y sq) (S i)).
  - rewrite combine_firstn, label_count, firstn_map; [reflexivity|].
    rewrite !length_firstn, Hlen. reflexivity.
  - intros p Hp. rewrite length_combine, Hlen, Nat.min_id in Hp.
    rewrite combine_nth by exact Hlen. cbn [snd].
    apply sorted_cut; assumption.
Qed.

Lemma threshold_step (sq : list Q) (i : nat) :
  sq <> [] ->
  In i (threshold_idxs (map Fin sq) (length (map Fin sq))) ->
  (i < length sq)%nat /\
  ((S i < length sq)%nat -> ~ nth (S i) sq 0 == nth i sq 0).
Proof.
  rewrite length_map. revert i. induction sq as [|a sq IH]; intros i Hne Hi;
    [congruence|].
  destruct sq as [|b sq].
  - simpl in Hi. destruct Hi as [<-|[]]. simpl. split; lia.
  - rewrite threshold_idxs_cons in Hi. apply in_app_or in Hi.
    destruct Hi as [Hi|Hi].
    + destruct (Qeq_bool (b + - a) 0) eqn:E; [contradiction|].
      destruct Hi as [<-|[]]. split; [simpl; lia|]. intros _ H. cbn [nth] in H.
      apply Qeq_bool_false in E. apply E. rewrite H. ring.
    + apply in_map_iff in Hi. destruct Hi as [i' [<- Hi']].
      destruct (IH i' ltac:(discriminate) Hi') as [H1 H2]. split; [simpl in *; lia|].
      intro H. apply H2. simpl in *. lia.
Qed.

(** The counts of the sorted samples at a threshold index are counts of the
    samples as they were given. *)
Lemma count_sorted_labels (b : bool) (l : list bool) (q : list Q) (i : nat) :
  length q = length l -> q <> [] -> In i (score_idxs q) ->
  sumZ (firstn (S i) (map (fun c => Z.b2z (Bool.eqb c b)) (sorted_labels l q)))
  = count_at_least l (map Fin q) b (Fin (nth i (Qsorted q) 0)).
Proof.
  intros Hlen Hq Hi. unfold score_idxs in Hi.
  assert (Hsq : Qsorted q <> []).
  { unfold Qsorted. intro E. apply (f_equal (@length Q)) in E.
    rewrite length_map, desc_length in E. destruct q; [congruence|discriminate]. }
  destruct (threshold_step (Qsorted q) i Hsq Hi) as [Hi' Hstep].
  assert (Hy : length (sorted_labels l q) = length (Qsorted q)).
  { unfold sorted_labels, Qsorted. rewrite !length_map. reflexivity. }
  rewrite <- (sorted_count b (sorted_labels l q) (Qsorted q) i
                (sorted_scores q) Hy Hi' Hstep).
  unfold count_at_least. f_equal.
  set (f := fun p : bool * Q => Bool.eqb (fst p) b && Qle_bool (nth i (Qsorted q) 0) (snd p)).
  set (g := fun j : nat => (nth j l false, nth j q 0)).
  assert (E1 : combine (sorted_labels l q) (Qsorted q)
               = map g (desc_score_indices (map Fin q))).
  { unfold sorted_labels, Qsorted. apply combine_map_index. }
  assert (E2 : combine l (map Fin q)
               = map (fun p => (fst p, Fin (snd p))) (map g (seq 0 (length q)))).
  { rewrite map_map. unfold g. cbn [fst snd].
    rewrite (combine_by_index _ _ l (map Fin q) false NaN)
      by (rewrite length_map; symmetry; exact Hlen).
    rewrite <- Hlen. apply map_ext_in. intros j Hj. apply in_seq in Hj.
    rewrite nth_map_Fin by lia. reflexivity. }
  rewrite E1, E2, !filter_length_map.
  apply (filter_length_perm _ (fun x => f (g x))), desc_perm.
Qed.

Lemma count_at_infinity (l : list bool) (q : list Q) (b : bool) :
  count_at_least l (map Fin q) b PInf = 0%Z.
Proof.
  unfold count_at_least. rewrite filter_none; [reflexivity|].
  intros [c v] H. apply in_combine_r in H. apply in_map_iff in H.
  destruct H as [x [<- _]]. unfold at_least. cbn [snd xleb]. apply andb_false_r.
Qed.

Lemma Qsorted_nonempty (q : list Q) : q <> [] -> Qsorted q <> [].
Proof.
  intros Hq E. apply (f_equal (@length Q)) in E. unfold Qsorted in E.
  rewrite length_map, desc_length in E. destruct q; [congruence|discriminate].
Qed.

Lemma score_idxs_range (l : list bool) (q : list Q) (i : nat) :
  length q = length l -> q <> [] -> In i (score_idxs q) ->
  (i < length (sorted_labels l q))%nat.
Proof.
  intros Hlen Hq Hi.
  destruct (threshold_step (Qsorted q) i (Qsorted_nonempty q Hq) Hi) as [H _].
  unfold sorted_labels, Qsorted in *. rewrite length_map in *. exact H.
Qed.

(** The two columns of the counting stage without weights, threshold by
    threshold. *)
Lemma unweighted_columns (l : list bool) (q : list Q) :
  length q = length l -> q <> [] ->
  x0 :: map of_Z (Ztps (sorted_labels l q) (score_idxs q))
  = map (fun th => of_Z (count_at_least l (map Fin q) true th))
      (PInf :: map Fin (Qthresholds q)) /\
  x0 :: map of_Z (Zfps (sorted_labels l q) (score_idxs q))
  = map (fun th => of_Z (count_at_least l (map Fin q) false th))
      (PInf :: map Fin (Qthresholds q)).
Proof.
  intros Hlen Hq.
  assert (Hth : Qthresholds q = map (fun i => nth i (Qsorted q) 0) (score_idxs q)).
  { unfold Qthresholds, score_idxs. rewrite length_map.
    symmetry. apply (thresholds_dedup (Qsorted q)), Qsorted_nonempty, Hq. }
  cbn [map]. rewrite !count_at_infinity, Hth, !map_map.
  unfold Zfps, Ztps. rewrite map2_map_r, !map_map.
  set (y := sorted_labels l q).
  assert (HT : forall i, In i (score_idxs q) ->
             nth i (cumsumZ (map Z.b2z y)) 0%Z
             = count_at_least l (map Fin q) true (Fin (nth i (Qsorted q) 0))).
  { intros i Hi. pose proof (score_idxs_range l q i Hlen Hq Hi) as Hr.
    rewrite cumsumZ_nth by (rewrite length_map; exact Hr).
    rewrite <- (count_sorted_labels true l q i Hlen Hq Hi). fold y.
    do 2 f_equal. apply map_ext. intros []; reflexivity. }
  assert (HF : forall i, In i (score_idxs q) ->
             (1 + Z.of_nat i - nth i (cumsumZ (map Z.b2z y)) 0)%Z
             = count_at_least l (map Fin q) false (Fin (nth i (Qsorted q) 0))).
  { intros i Hi. pose proof (score_idxs_range l q i Hlen Hq Hi) as Hr.
    rewrite cumsumZ_nth by (rewrite length_map; exact Hr).
    rewrite <- (count_sorted_labels false l q i Hlen Hq Hi). fold y.
    rewrite !firstn_map.
    pose proof (count_split (firstn (S i) y)) as Hs.
    rewrite length_firstn in Hs.
    replace (map (fun c => Z.b2z (Bool.eqb c false)) (firstn (S i) y))
      with (map (fun b => Z.b2z (negb b)) (firstn (S i) y))
      by (apply map_ext; intros []; reflexivity).
    fold y in Hr. lia. }
  split; f_equal; apply map_ext_in; intros i Hi; f_equal; auto.
Qed.

Lemma score_idxs_facts (l : list bool) (q : list Q) :
  length q = length l -> q <> [] ->
  StronglySorted lt (score_idxs q) /\
  Forall (fun i => (i < length (sorted_labels l q))%nat) (score_idxs q) /\
  score_idxs q <> [] /\
  last (score_idxs q) 0%nat = (length (sorted_labels l q) - 1)%nat.
Proof.
  intros Hlen Hq.
  assert (Hy : length (sorted_labels l q) = length (map Fin (Qsorted q))).
  { unfold sorted_labels, Qsorted. rewrite !length_map. reflexivity. }
  split; [apply threshold_idxs_sorted|]. split; [|split].
  - apply Forall_forall. intros i Hi. apply score_idxs_range; assumption.
  - apply threshold_idxs_nonempty.
  - rewrite Hy. apply threshold_idxs_last.
Qed.

Lemma sumZ_positive (A : Type) (h : A -> Z) (c : A) (y : list A) :
  (forall x, (0 <= h x)%Z) -> In c y -> (0 < h c)%Z -> (0 < sumZ (map h y))%Z.
Proof.
  intros Hh Hin Hc. induction y as [|a y IH]; [contradiction|].
  cbn [map]. rewrite sumZ_cons.
  assert (H0 : (0 <= sumZ (map h y))%Z).
  { clear - Hh. induction y as [|b y IH]; [reflexivity|].
    cbn [map]. rewrite sumZ_cons. specialize (Hh b). lia. }
  destruct Hin as [->|Hin]; [lia|]. specialize (Hh a). specialize (IH Hin). lia.
Qed.

Lemma sorted_labels_In (l : list bool) (q : list Q) (c : bool) :
  length q = length l -> In c l -> In c (sorted_labels l q).
Proof.
  intros Hlen Hc. destruct (In_nth _ _ false Hc) as [j [Hj <-]].
  unfold sorted_labels. apply in_map_iff. exists j. split; [reflexivity|].
  apply (Permutation_in _ (Permutation_sym (desc_perm q))). apply in_seq. lia.
Qed.

Lemma last_cons_nonempty (A : Type) (a d : A) (l : list A) :
  l <> [] -> last (a :: l) d = last l d.
Proof. destruct l; [congruence|reflexivity]. Qed.

(** With both classes among the labels no total is zero. *)
Lemma unweighted_lasts (l : list bool) (q : list Q) :
  length q = length l -> q <> [] -> In true l -> In false l ->
  xeqb (last (x0 :: map of_Z (Zfps (sorted_labels l q) (score_idxs q))) NaN) x0 = false /\
  xeqb (last (x0 :: map of_Z (Ztps (sorted_labels l q) (score_idxs q))) NaN) x0 = false.
Proof.
  intros Hlen Hq Ht Hf.
  destruct (score_idxs_facts l q Hlen Hq) as (Hsorted & Hrange & Hne & Hlast).
  set (y := sorted_labels l q) in *. set (idxs := score_idxs q) in *.
  destruct (unweighted_totals y idxs Hsorted Hrange Hne) as [T1 T2].
  assert (EF : last (x0 :: map of_Z (Zfps y idxs)) NaN
               = of_Z (sumZ (map (fun b => Z.b2z (negb b)) y))).
  { unfold Zfps, Ztps. rewrite map2_map_r, map_map.
    rewrite last_cons_nonempty by (destruct idxs; [congruence|discriminate]).
    rewrite (last_map_idx _ _ _ NaN 0%nat Hne), Hlast. f_equal. exact T2. }
  assert (ET : last (x0 :: map of_Z (Ztps y idxs)) NaN = of_Z (sumZ (map Z.b2z y))).
  { unfold Ztps. rewrite map_map.
    rewrite last_cons_nonempty by (destruct idxs; [congruence|discriminate]).
    rewrite (last_map_idx _ _ _ NaN 0%nat Hne), Hlast. f_equal. exact T1. }
  rewrite EF, ET, !xeqb_of_Z. split; apply Z.eqb_neq.
  - pose proof (sumZ_positive _ (fun b => Z.b2z (negb b)) false y
                  ltac:(intros []; simpl; lia)
                  (sorted_labels_In l q false Hlen Hf) ltac:(simpl; lia)). lia.
  - pose proof (sumZ_positive _ Z.b2z true y
                  ltac:(intros []; simpl; lia)
                  (sorted_labels_In l q true Hlen Ht) ltac:(simpl; lia)). lia.
Qed.



(** The counting stage with weights, by its values. *)
Lemma raw_counts_weighted (y_true y_score w : ndarray) :
  wf_inputs y_true y_score (Some w) ->
  preconditions y_true y_score (Some w) = true ->
  exists (l : list bool) (q flat : list Q),
    labels y_true = l /\ values y_score = map Fin q /\ length q = length l /\
    (1 <= length l)%nat /\
    values w = map Fin flat /\ length flat = (dim w 0 * dim w 1)%nat /\
    dim w 0 = length l /\ (1 <= dim w 1)%nat /\ Forall (fun x => 0 < x) flat /\
    let W := sorted_weights flat (dim w 0) (dim w 1) (desc_score_indices (map Fin q)) in
    raw_counts y_true y_score (Some w)
    = Ok (mk_matrix (count_dtype w)
            (map (cons x0)
               (map (fun j => map Fin (Qfps (sorted_labels l q) (W j) (score_idxs q)))
                  (seq 0 (dim w 1)))),
          mk_matrix (count_dtype w)
            (map (cons x0)
               (map (fun j => map Fin (Qtps (sorted_labels l q) (W j) (score_idxs q)))
                  (seq 0 (dim w 1)))),
          PInf :: map Fin (Qthresholds q)).
Proof.
  intros Hwf Hpre.
  destruct (preconditions_inv _ _ _ Hwf Hpre)
    as (l & q & Hbuf & Hshy & Hsize & Hval & Hshs & Hlen & Hn).
  assert (Hlab : labels y_true = l) by (unfold labels; rewrite Hbuf; reflexivity).
  assert (Hq : q <> []) by (destruct q; [simpl in Hlen; lia|discriminate]).
  destruct Hwf as (_ & _ & Hw). unfold preconditions in Hpre.
  apply andb_true_iff in Hpre. destruct Hpre as [_ Hpre].
  destruct (weights_ok_inv _ _ Hw Hpre)
    as (flat & Hndim & Hrows & Hcols & Hflat & Hflat_len & Hpos).
  exists l, q, flat. split; [exact Hlab|]. split; [exact Hval|]. split; [exact Hlen|].
  split; [exact Hn|]. split; [exact Hflat|]. split; [exact Hflat_len|].
  split; [rewrite Hrows; exact Hsize|]. split; [exact Hcols|]. split; [exact Hpos|].
  intro W. unfold raw_counts.
  replace (Nat.eqb (ndim y_true) 1 && dtype_eqb (kind y_true) DBool) with true
    by (unfold ndim, kind; rewrite Hshy, Hbuf; reflexivity).
  replace (shape_eqb (shape y_score) (shape y_true) && forallb isfinite (values y_score))
    with true
    by (rewrite Hshs, Hshy, Hval, forallb_isfinite_Fin; simpl;
        rewrite Nat.eqb_refl; reflexivity).
  replace (Nat.leb 1 (size y_true)) with true
    by (symmetry; apply Nat.leb_le; lia).
  cbn [assert bind]. rewrite Hval, Hlab.
  unfold Qthresholds, score_idxs, sorted_labels, Qsorted, W.
  set (desc := desc_score_indices (map Fin q)).
  set (sq := map (fun i => nth i q 0) desc).
  set (y := map (fun i => nth i l false) desc).
  assert (Hdesc : Forall (fun i => (i < length q)%nat) desc) by apply desc_in_range.
  assert (Hdesc_len : length desc = length q) by apply desc_length.
  rewrite take_ok by (rewrite length_map; exact Hdesc).
  rewrite (map_nth_Fin q desc Hdesc). fold sq. cbn [bind].
  rewrite take_ok by (rewrite <- Hlen; exact Hdesc). fold y. cbn [bind].
  assert (Hy_len : length y = length (map Fin sq)).
  { unfold y, sq. rewrite !length_map. reflexivity. }
  assert (Hsq_len : length (map Fin sq) = length q).
  { unfold sq. rewrite !length_map. exact Hdesc_len. }
  assert (Hsq : sq <> []).
  { intro E. rewrite E in Hsq_len. simpl in Hsq_len. lia. }
  rewrite Hy_len.
  set (idxs := threshold_idxs (map Fin sq) (length (map Fin sq))).
  assert (Hsorted : StronglySorted lt idxs) by apply threshold_idxs_sorted.
  assert (Hrange : Forall (fun i => (i < length y)%nat) idxs).
  { rewrite Hy_len. apply threshold_idxs_in_range.
    destruct sq; [congruence|discriminate]. }
  assert (Hne : idxs <> []) by apply threshold_idxs_nonempty.
  assert (Hlast : last idxs 0%nat = (length y - 1)%nat).
  { rewrite Hy_len. apply threshold_idxs_last. }
  assert (Hth : take (map Fin sq) idxs NaN = Ok (map Fin (Qdedup sq))).
  { rewrite take_ok by (rewrite <- Hy_len; exact Hrange).
    rewrite map_nth_Fin by (rewrite <- (length_map Fin), <- Hy_len; exact Hrange).
    unfold idxs. rewrite length_map, (thresholds_dedup sq Hsq). reflexivity. }
  assert (Hrows' : dim w 0 = length y).
  { rewrite Hrows, Hsize, Hy_len, Hsq_len. symmetry. exact Hlen. }
  assert (Hdesc' : Forall (fun i => (i < length y)%nat) desc).
  { rewrite Hy_len, Hsq_len. exact Hdesc. }
  assert (Hdesc_len' : length desc = length y).
  { rewrite Hy_len, Hsq_len. exact Hdesc_len. }
  rewrite (@counts_weighted_ok y desc idxs w flat Hndim Hrows' Hcols Hflat
             Hflat_len Hpos Hdesc' Hdesc_len' Hsorted Hrange Hne Hlast).
  cbn [bind mdtype cols]. rewrite Hth. reflexivity.
Qed.



















(** ** Weights that are all one *)

Lemma inject_Z_add (a b : Z) : inject_Z a + inject_Z b = inject_Z (a + b).
Proof. unfold Qplus, inject_Z. simpl. f_equal. lia. Qed.

Lemma inject_Z_sub (a b : Z) : inject_Z a + - inject_Z b = inject_Z (a - b).
Proof. unfold Qplus, Qopp, inject_Z. simpl. f_equal. lia. Qed.

Lemma Qcumsum_from_inject (acc : Z) (l : list Z) :
  Qcumsum_from (inject_Z acc) (map inject_Z l) = map inject_Z (cumsumZ_from acc l).
Proof.
  revert acc. induction l as [|x l IH]; intro acc; [reflexivity|].
  cbn [map Qcumsum_from cumsumZ_from]. rewrite inject_Z_add, IH. reflexivity.
Qed.

Lemma Qcumsum_inject (l : list Z) :
  Qcumsum (map inject_Z l) = map inject_Z (cumsumZ l).
Proof.
  destruct l as [|x l]; [reflexivity|]. cbn [map Qcumsum cumsumZ].
  rewrite Qcumsum_from_inject. reflexivity.
Qed.

Lemma Qweigh_ones (y : list bool) (W : list Q) :
  length y = length W -> Forall (fun x => x = 1) W ->
  Qweigh y W = map inject_Z (map Z.b2z y) /\
  W = map inject_Z (map (fun _ => 1%Z) y).
Proof.
  revert W. induction y as [|b y IH]; intros [|x W] Hlen HW; try discriminate;
    [split; reflexivity|].
  inversion HW as [|? ? -> HW']; subst.
  destruct (IH W ltac:(simpl in Hlen; lia) HW') as [E1 E2].
  unfold Qweigh in *. cbn [map map2]. rewrite E1, <- E2.
  split; [destruct b|]; reflexivity.
Qed.

Lemma cumsumZ_ones (A : Type) (y : list A) (i : nat) :
  (i < length y)%nat ->
  nth i (cumsumZ (map (fun _ => 1%Z) y)) 0%Z = (1 + Z.of_nat i)%Z.
Proof.
  intro Hi. rewrite cumsumZ_nth by (rewrite length_map; exact Hi).
  rewrite firstn_map. set (l := firstn (S i) y).
  assert (Hl : length l = S i) by (unfold l; rewrite length_firstn; lia).
  replace (1 + Z.of_nat i)%Z with (Z.of_nat (length l)) by lia.
  clear. induction l as [|a l IH]; [reflexivity|].
  cbn [map length]. rewrite sumZ_cons, IH. lia.
Qed.

Lemma nth_inject_Z (l : list Z) (i : nat) :
  nth i (map inject_Z l) 0 = inject_Z (nth i l 0%Z).
Proof. apply (map_nth inject_Z l 0%Z i). Qed.

(** The counts of a column of unit weights are the counts without weights. *)
Lemma unit_weight_counts (y : list bool) (W : list Q) (idxs : list nat) :
  length y = length W -> Forall (fun x => x = 1) W ->
  Forall (fun i => (i < length y)%nat) idxs ->
  map Fin (Qtps y W idxs) = map of_Z (Ztps y idxs) /\
  map Fin (Qfps y W idxs) = map of_Z (Zfps y idxs).
Proof.
  intros Hlen HW Hr. destruct (Qweigh_ones y W Hlen HW) as [E1 E2].
  unfold Qfps, Qtps, Zfps, Ztps. rewrite E1. rewrite E2. rewrite !Qcumsum_inject.
  rewrite map2_map, map2_map_r, !map_map. rewrite Forall_forall in Hr.
  split; apply map_ext_in; intros i Hi; unfold of_Z; f_equal.
  - apply nth_inject_Z.
  - rewrite !nth_inject_Z, inject_Z_sub.
    rewrite cumsumZ_ones by (apply Hr, Hi). reflexivity.
Qed.

Lemma map_seq_const (A : Type) (g : nat -> A) (c : A) (m : nat) :
  (forall j, (j < m)%nat -> g j = c) -> map g (seq 0 m) = repeat c m.
Proof.
  intro H. transitivity (map (fun _ : nat => c) (seq 0 m)).
  - apply map_ext_in. intros j Hj. apply in_seq in Hj. apply H. lia.
  - rewrite map_const, length_seq. reflexivity.
Qed.

Lemma map2_repeat (A B C : Type) (g : A -> B -> C) (a : A) (b : B) (m : nat) :
  map2 g (repeat a m) (repeat b m) = repeat (g a b) m.
Proof. induction m as [|m IH]; [reflexivity|]. simpl. rewrite IH. reflexivity. Qed.

Lemma map_repeat (A B : Type) (g : A -> B) (a : A) (m : nat) :
  map g (repeat a m) = repeat (g a) m.
Proof. induction m as [|m IH]; [reflexivity|]. simpl. rewrite IH. reflexivity. Qed.

(** X15. Weights that are all one change nothing: every replicate column of
    the counts the engine returns for them is the column it returns without
    weights, and the thresholds are the same. *)
Theorem unit_weights_are_no_weights (y_true y_score w : ndarray) :
  wf_inputs y_true y_score (Some w) ->
  preconditions y_true y_score (Some w) = true ->
  (forall x, In x (values w) -> x = x1) ->
  exists fps tps fps' tps' thresholds cf ct,
    _binary_clf_curve y_true y_score None = Ok (fps, tps, thresholds) /\
    _binary_clf_curve y_true y_score (Some w) = Ok (fps', tps', thresholds) /\
    cols fps = [cf] /\ cols tps = [ct] /\
    cols fps' = repeat cf (dim w 1) /\ cols tps' = repeat ct (dim w 1).
Proof.
  intros Hwf Hpre Hone.
  destruct (preconditions_None _ _ _ Hwf Hpre) as [Hwf0 Hpre0].
  destruct (raw_counts_unweighted _ _ Hwf0 Hpre0)
    as (l & q & Hl & Hs & Hlen & Hn & Hraw0).
  destruct (raw_counts_weighted _ _ _ Hwf Hpre)
    as (l' & q' & flat & Hl' & Hs' & _ & _ & Hv & Hflat & Hrows & Hcols & Hpos & Hraw1).
  subst l l'.
  assert (q' = q) by (apply map_Fin_inj; congruence). subst q'.
  set (l := labels y_true) in *.
  assert (Hq : q <> []) by (destruct q; [simpl in Hlen; lia|discriminate]).
  cbv zeta in Hraw1.
  destruct (score_idxs_facts l q Hlen Hq) as (_ & Hrange & _ & _).
  set (desc := desc_score_indices (map Fin q)) in *.
  assert (Hflat1 : forall k, (k < length flat)%nat -> nth k flat 0 = 1).
  { intros k Hk. assert (E : Fin (nth k flat 0) = x1).
    { apply Hone. rewrite Hv. apply in_map, nth_In, Hk. }
    injection E as E. exact E. }
  assert (Hcol : forall j, (j < dim w 1)%nat ->
            map Fin (Qfps (sorted_labels l q)
                       (sorted_weights flat (dim w 0) (dim w 1) desc j) (score_idxs q))
            = map of_Z (Zfps (sorted_labels l q) (score_idxs q)) /\
            map Fin (Qtps (sorted_labels l q)
                       (sorted_weights flat (dim w 0) (dim w 1) desc j) (score_idxs q))
            = map of_Z (Ztps (sorted_labels l q) (score_idxs q))).
  { intros j Hj.
    assert (HU : map Fin (Qtps (sorted_labels l q)
                            (sorted_weights flat (dim w 0) (dim w 1) desc j) (score_idxs q))
                 = map of_Z (Ztps (sorted_labels l q) (score_idxs q)) /\
                 map Fin (Qfps (sorted_labels l q)
                            (sorted_weights flat (dim w 0) (dim w 1) desc j) (score_idxs q))
                 = map of_Z (Zfps (sorted_labels l q) (score_idxs q))).
    { apply unit_weight_counts; [| |exact Hrange].
      - unfold sorted_labels, sorted_weights. rewrite !length_map. reflexivity.
      - unfold sorted_weights, Qcolumn. apply Forall_forall. intros x Hx.
        apply in_map_iff in Hx. destruct Hx as [i [<- Hi]].
        pose proof (desc_in_range q) as HR. rewrite Forall_forall in HR.
        specialize (HR i Hi).
        rewrite (nth_map_in _ (fun i0 => nth (i0 * dim w 1 + j) flat 0) (seq 0 (dim w 0))
                   i 0%nat) by (rewrite length_seq, Hrows, <- Hlen; exact HR).
        rewrite seq_nth by (rewrite Hrows, <- Hlen; exact HR).
        apply Hflat1. rewrite Hflat, Hrows, <- Hlen. simpl. nia. }
    split; apply HU. }
  destruct (engine_pipeline _ _ _ Hwf0 Hpre0) as (F0 & T0 & dt & th & R0 & _ & E0 & _).
  destruct (engine_pipeline _ _ _ Hwf Hpre) as (F1 & T1 & dt1 & th1 & R1 & _ & E1 & _).
  rewrite Hraw0 in R0. injection R0 as <- <- Eth0. rewrite <- Eth0 in E0.
  rewrite Hraw1 in R1. injection R1 as <- <- Eth1. rewrite <- Eth1 in E1.
  cbn [cols map2] in E0, E1.
  rewrite (map_seq_const _ _ (map of_Z (Zfps (sorted_labels l q) (score_idxs q))))
    in E1 by (intros j Hj; apply Hcol, Hj).
  rewrite (map_seq_const _ _ (map of_Z (Ztps (sorted_labels l q) (score_idxs q))))
    in E1 by (intros j Hj; apply Hcol, Hj).
  rewrite !map_repeat, !map2_repeat in E1.
  eexists _, _, _, _, _, _, _. split; [exact E0|]. split; [exact E1|].
  cbn [cols]. repeat split; reflexivity.
Qed.

Lemma unit_weights_are_no_weights_witness :
  exists fps tps fps' tps' thresholds cf ct,
    _binary_clf_curve example_y_true example_y_score None = Ok (fps, tps, thresholds) /\
    _binary_clf_curve example_y_true example_y_score (Some example_unit_weight)
    = Ok (fps', tps', thresholds) /\
    cols fps = [cf] /\ cols tps = [ct] /\
    cols fps' = repeat cf (dim example_unit_weight 1) /\
    cols tps' = repeat ct (dim example_unit_weight 1).
Proof.
  apply (unit_weights_are_no_weights example_y_true example_y_score example_unit_weight).
  - repeat split.
  - reflexivity.
  - intros x Hx. simpl in Hx. repeat (destruct Hx as [<-|Hx]; [reflexivity|]).
    contradiction.
Defined.

(** ** The non-vectorized curves *)

(** On one column the engine is the reference, failures included. *)
Lemma engine_is_reference (y_true y_score : ndarray) (sample_weight : option ndarray) :
  wf_inputs y_true y_score sample_weight ->
  single_column sample_weight ->
  _binary_clf_curve y_true y_score sample_weight
  = lift_curve (_nv_binary_clf_curve y_true y_score (option_map flatten sample_weight)).
Proof.
  intros Hwf Hsingle. unfold _binary_clf_curve, raw_counts, _nv_binary_clf_curve.
  destruct (Nat.eqb (ndim y_true) 1 && dtype_eqb (kind y_true) DBool); [|reflexivity].
  cbn [assert bind].
  destruct (shape_eqb (shape y_score) (shape y_true) && forallb isfinite (values y_score));
    [|reflexivity].
  cbn [assert bind].
  destruct (Nat.leb 1 (size y_true)); [|reflexivity]. cbn [assert bind].
  destruct (take (values y_score) _ NaN) as [s|e]; [|reflexivity]. cbn [bind].
  destruct (take (labels y_true) _ false) as [y|e]; [|reflexivity]. cbn [bind].
  destruct sample_weight as [w|]; cbn [option_map].
  - destruct Hsingle as [n Hshape]. destruct Hwf as (_ & _ & Hw).
    rewrite (counts_weighted_nv y _ _ w n Hw Hshape).
    apply curve_tail_nv. intros f t H.
    apply (nv_weighted_first y _ _ _ f t (threshold_idxs_nonempty _ _) H).
  - rewrite counts_unweighted_nv.
    apply curve_tail_nv. intros f t H.
    apply (nv_unweighted_first y _ f t (threshold_idxs_nonempty _ _) H).
Qed.

Lemma engine_rejects (y_true y_score : ndarray) (sample_weight : option ndarray) :
  wf_inputs y_true y_score sample_weight ->
  preconditions y_true y_score sample_weight = false ->
  _binary_clf_curve y_true y_score sample_weight = Raise AssertionError.
Proof.
  intros Hwf Hpre. unfold _binary_clf_curve.
  rewrite (raw_counts_rejects _ _ _ Hwf Hpre). reflexivity.
Qed.

(** What the reference returns on one column: the vectors of a curve pair. *)
Lemma reference_result (y_true y_score : ndarray) (sample_weight : option ndarray)
  (f t : vector) (th : list xnum) :
  wf_inputs y_true y_score sample_weight ->
  single_column sample_weight ->
  _nv_binary_clf_curve y_true y_score (option_map flatten sample_weight) = Ok (f, t, th) ->
  _binary_clf_curve y_true y_score sample_weight = Ok (as_matrix f, as_matrix t, th) /\
  exists k, curve_pair (labels y_true) k (elems f) (elems t).
Proof.
  intros Hwf Hsingle Hnv.
  pose proof (engine_is_reference _ _ _ Hwf Hsingle) as Heq.
  rewrite Hnv in Heq. cbn [lift_curve] in Heq. split; [exact Heq|].
  destruct (preconditions y_true y_score sample_weight) eqn:Hpre.
  - destruct (binary_clf_curve_ok _ _ _ Hwf Hpre)
      as (F & T & th' & Heng & _ & _ & _ & Hpairs & _).
    rewrite Heq in Heng. injection Heng as <- <- _. cbn [as_matrix cols] in Hpairs.
    inversion Hpairs as [|? ? ? ? Hp _]; subst. eexists. exact Hp.
  - rewrite (engine_rejects _ _ _ Hwf Hpre) in Heq. discriminate.
Qed.

Lemma curve_pair_nonempty (y : list bool) (k : nat) (cf ct : list xnum) :
  curve_pair y k cf ct -> cf <> [] /\ ct <> [] /\ (1 < length cf)%nat /\ length cf = length ct.
Proof.
  intros (f & t & -> & -> & Hc & _).
  destruct (curve_column_nonempty _ _ Hc) as [Hf Ht].
  pose proof (cc_rows Hc). pose proof (cc_length Hc).
  rewrite !length_map. repeat split; try lia.
  - destruct f; [congruence|discriminate].
  - destruct t; [congruence|discriminate].
Qed.



(** X17. For no weights or one column of weights [recall_precision_curve]
    is the reference [_nv_recall_precision_curve] on the flattened weights:
    both fail with the same error, or recall, precision and thresholds are
    those of the reference. *)
Theorem recall_precision_curve_is_reference
  (y_true y_score : ndarray) (sample_weight : option ndarray) :
  wf_inputs y_true y_score sample_weight ->
  single_column sample_weight ->
  recall_precision_curve y_true y_score sample_weight
  = lift_columns
      (_nv_recall_precision_curve y_true y_score (option_map flatten sample_weight)).
Proof.
  intros Hwf Hsingle. unfold recall_precision_curve, _nv_recall_precision_curve.
  destruct (_nv_binary_clf_curve y_true y_score (option_map flatten sample_weight))
    as [[[f t] th]|e] eqn:Hnv.
  - destruct (reference_result _ _ _ f t th Hwf Hsingle Hnv) as [Heng [k Hp]].
    destruct (curve_pair_nonempty _ _ _ _ Hp) as (Hf & Ht & _).
    rewrite Heng. cbn [bind as_matrix cols divide_by_last map].
    rewrite last_elem_ok by assumption. cbn [bind].
    unfold raw_precision, overwrite_first, row, nth_elem, in_unit_interval.
    cbn [as_matrix cols map2 forallb map].
    set (p := map2 (fun t0 f0 => xdiv t0 (xadd t0 f0)) (elems t) (elems f)).
    rewrite andb_true_r. destruct (Nat.ltb 1 (length p)); [|reflexivity].
    cbn [bind map2 forallb]. rewrite !andb_true_r.
    match goal with |- context [assert ?b] => destruct b end; reflexivity.
  - rewrite (engine_is_reference _ _ _ Hwf Hsingle), Hnv. reflexivity.
Qed.

Lemma recall_precision_curve_is_reference_witness :
  recall_precision_curve example_y_true example_y_score (Some example_column_weight)
  = lift_columns (_nv_recall_precision_curve example_y_true example_y_score
                    (Some (flatten example_column_weight))).
Proof.
  apply (recall_precision_curve_is_reference example_y_true example_y_score
           (Some example_column_weight)).
  - repeat split.
  - exists 4%nat. reflexivity.
Defined.

(** ** The reference of the precision-recall-gain curve *)













(** ** The ends of the precision-recall-gain curve *)








(** ** Exchanging the classes *)

Lemma count_exchanged (l : list bool) (s : list xnum) (b : bool) (th : xnum) :
  count_at_least (map negb l) s b th = count_at_least l s (negb b) th.
Proof.
  unfold count_at_least. f_equal.
  assert (E : combine (map negb l) s = map (fun p => (negb (fst p), snd p)) (combine l s)).
  { revert s. induction l as [|c l IH]; intros [|v s]; try reflexivity.
    cbn [map combine fst snd]. rewrite IH. reflexivity. }
  rewrite E, filter_length_map. f_equal. apply filter_ext.
  intros [c v]. unfold at_least. cbn [fst snd]. destruct c, b; reflexivity.
Qed.

Lemma exchanged_valid (y_true y_score : ndarray) :
  wf_inputs y_true y_score None ->
  preconditions y_true y_score None = true ->
  wf_inputs (exchanged y_true) y_score None /\
  preconditions (exchanged y_true) y_score None = true /\
  labels (exchanged y_true) = map negb (labels y_true).
Proof.
  intros Hwf Hpre.
  destruct (preconditions_inv _ _ _ Hwf Hpre)
    as (l & q & Hbuf & Hshy & Hsize & Hval & Hshs & Hlen & Hn).
  assert (Hlab : labels y_true = l) by (unfold labels; rewrite Hbuf; reflexivity).
  destruct Hwf as (Hy & Hs & _).
  split; [|split; [|reflexivity]].
  - split; [|split; [exact Hs|exact I]].
    unfold wf_ndarray, exchanged, size. cbn [buf shape buf_length].
    rewrite length_map, Hlab. fold (size y_true). symmetry. exact Hsize.
  - unfold preconditions, labels_ok, scores_ok, exchanged, ndim, kind, size in *.
    cbn [shape buf] in *. rewrite Hbuf in Hpre. exact Hpre.
Qed.

(** Without weights and with both classes among the labels the engine
    returns the columns of the counting stage. *)
Lemma engine_unweighted (y_true y_score : ndarray) (F0 T0 : matrix) (th : list xnum) :
  wf_inputs y_true y_score None ->
  preconditions y_true y_score None = true ->
  In true (labels y_true) -> In false (labels y_true) ->
  raw_counts y_true y_score None = Ok (F0, T0, th) ->
  exists fps tps,
    _binary_clf_curve y_true y_score None = Ok (fps, tps, th) /\
    cols fps = cols F0 /\ cols tps = cols T0.
Proof.
  intros Hwf Hpre Ht Hf Hraw0.
  destruct (raw_counts_unweighted _ _ Hwf Hpre) as (l & q & Hl & Hs & Hlen & Hn & Hraw).
  assert (Hq : q <> []) by (destruct q; [simpl in Hlen; lia|discriminate]).
  rewrite Hraw in Hraw0. injection Hraw0 as <- <- <-.
  destruct (engine_pipeline _ _ _ Hwf Hpre) as (F0 & T0 & dt & th & Hraw' & _ & Heng & _).
  rewrite Hraw in Hraw'. injection Hraw' as <- <- Eth. rewrite <- Eth in Heng.
  eexists _, _. split; [exact Heng|]. cbn [cols map2].
  rewrite Hl in Ht, Hf.
  destruct (unweighted_lasts l q Hlen Hq Ht Hf) as [LF LT].
  unfold fix_tps, fix_fps. rewrite LF, LT. split; reflexivity.
Qed.

(** X20. Exchanging the two classes exchanges the counts: without weights
    the counting stage on the negated labels returns the true-positive
    counts as false-positive counts and the reverse, at the same
    thresholds, and with both classes among the labels so does the engine. *)
Theorem exchanging_classes_exchanges_counts (y_true y_score : ndarray) :
  wf_inputs y_true y_score None ->
  preconditions y_true y_score None = true ->
  exists F0 T0 thresholds,
    raw_counts y_true y_score None = Ok (F0, T0, thresholds) /\
    raw_counts (exchanged y_true) y_score None = Ok (T0, F0, thresholds) /\
    (In true (labels y_true) -> In false (labels y_true) ->
     exists fps tps fps' tps',
       _binary_clf_curve y_true y_score None = Ok (fps, tps, thresholds) /\
       _binary_clf_curve (exchanged y_true) y_score None = Ok (fps', tps', thresholds) /\
       cols fps' = cols tps /\ cols tps' = cols fps).
Proof.
  intros Hwf Hpre.
  destruct (exchanged_valid _ _ Hwf Hpre) as (Hwf' & Hpre' & Hlab').
  destruct (raw_counts_unweighted _ _ Hwf Hpre) as (l & q & Hl & Hs & Hlen & Hn & Hraw).
  destruct (raw_counts_unweighted _ _ Hwf' Hpre')
    as (l' & q' & Hl' & Hs' & Hlen' & _ & Hraw').
  assert (Hq : q <> []) by (destruct q; [simpl in Hlen; lia|discriminate]).
  assert (q' = q) by (apply map_Fin_inj; congruence). subst q'.
  assert (El : l' = map negb l) by congruence.
  destruct (unweighted_columns l q Hlen Hq) as [ET EF].
  destruct (unweighted_columns l' q Hlen' Hq) as [ET' EF'].
  assert (Eswap : x0 :: map of_Z (Ztps (sorted_labels l' q) (score_idxs q))
                  = x0 :: map of_Z (Zfps (sorted_labels l q) (score_idxs q)) /\
                  x0 :: map of_Z (Zfps (sorted_labels l' q) (score_idxs q))
                  = x0 :: map of_Z (Ztps (sorted_labels l q) (score_idxs q))).
  { rewrite ET', EF', ET, EF, El. split; apply map_ext; intro v;
      rewrite count_exchanged; reflexivity. }
  destruct Eswap as [E1 E2]. rewrite E1, E2 in Hraw'.
  eexists _, _, _. split; [exact Hraw|]. split; [exact Hraw'|].
  intros Ht Hf.
  destruct (engine_unweighted _ _ _ _ _ Hwf Hpre Ht Hf Hraw) as (fps & tps & Heng & Ef & Et).
  assert (Ht' : In true (labels (exchanged y_true))).
  { rewrite Hlab'. apply in_map_iff. exists false. split; [reflexivity|exact Hf]. }
  assert (Hf' : In false (labels (exchanged y_true))).
  { rewrite Hlab'. apply in_map_iff. exists true. split; [reflexivity|exact Ht]. }
  destruct (engine_unweighted _ _ _ _ _ Hwf' Hpre' Ht' Hf' Hraw')
    as (fps' & tps' & Heng' & Ef' & Et').
  exists fps, tps, fps', tps'. split; [exact Heng|]. split; [exact Heng'|].
  cbn [cols] in *. split; congruence.
Qed.

Lemma exchanging_classes_exchanges_counts_witness :
  exists F0 T0 thresholds,
    raw_counts example_y_true example_y_score None = Ok (F0, T0, thresholds) /\
    raw_counts (exchanged example_y_true) example_y_score None
    = Ok (T0, F0, thresholds) /\
    (In true (labels example_y_true) -> In false (labels example_y_true) ->
     exists fps tps fps' tps',
       _binary_clf_curve example_y_true example_y_score None
       = Ok (fps, tps, thresholds) /\
       _binary_clf_curve (exchanged example_y_true) example_y_score None
       = Ok (fps', tps', thresholds) /\
       cols fps' = cols tps /\ cols tps' = cols fps).
Proof.
  apply (exchanging_classes_exchanges_counts example_y_true example_y_score).
  - repeat split.
  - reflexivity.
Defined.

(** ** The shapes of the curves *)






(** ** The pseudo-point corrector by column *)





(** ** One class only *)





(** ** A perfect ranking *)










(** ** Weights up to a factor *)




















